(** * Agent Society protocol layer: a shallow embedding and its properties

    The development follows the TypeScript sources of the repository:
    - [src/events/*]            tag-based event builders and parsers,
    - [src/trust/social-trust-manager.ts]   the social-graph credit engine,
    - [src/spsp/nostr-spsp-client.ts] and
      [packages/core/src/spsp/NostrSpspClient.ts]  the two SPSP clients,
    - the classes [NostrPeerDiscovery] (core package) and
      [NostrPeerDiscoveryService]  peer discovery,
    - the class [BootstrapService] of the core package,
    - [src/spsp/nostr-spsp-server.ts]   the SPSP server,
    - [packages/core/src/events/builders.ts] and [parsers.ts]  the JSON
      builders and parsers of the core package.

    JavaScript values are modelled as follows: a [bigint] is a [Z] (with
    [Z.quot] for the truncating division), an integer-valued [number] such as
    [created_at] is a [Z], a [Map<string, V>] is a [gmap string V], a
    [Set<string>] is a [gset string], an array is a [list], a value that may be
    [undefined] or [null] is an [option], and a call that may throw returns a
    [result]. *)

From Stdlib Require Import ZArith List Bool Ascii String Permutation Lia.
From stdpp Require Import base option list gmap strings pretty fin_maps fin_sets.

Local Open Scope string_scope.
Local Open Scope list_scope.
Local Open Scope Z_scope.

(** ** JavaScript preliminaries *)

Module Js.

(** The outcome of a call that may throw. *)
Inductive result (E A : Type) : Type :=
| Returned (a : A)
| Thrown (e : E).
Arguments Returned {E A} a.
Arguments Thrown {E A} e.

(** The errors the sources throw. *)
Inductive JsError : Type :=
| RangeError
| Error_ (message : string)
| SpspError (message : string)
| SpspTimeoutError (message : string) (recipientPubkey : string)
| PeerDiscoveryError (message : string)
| BootstrapError (message : string).

(** A JavaScript [number] that holds an integer, or one of the infinities. *)
Inductive number : Type :=
| Finite (z : Z)
| PosInfinity
| NegInfinity.

(** [Number(q)] for a bigint [q]: exact below 2^53, rounded to the nearest
    double (ties to even) above, infinite from 2^1024 on. *)
Definition Number_of_BigInt (q : Z) : number :=
  let a := Z.abs q in
  if a <? 2 ^ 53 then Finite q
  else
    let e := Z.log2 a - 52 in
    let m := a / 2 ^ e in
    let r := a mod 2 ^ e in
    let half := 2 ^ (e - 1) in
    let m' := if (r >? half) || ((r =? half) && Z.odd m) then m + 1 else m in
    if m' * 2 ^ e >=? 2 ^ 1024 then (if q <? 0 then NegInfinity else PosInfinity)
    else Finite (Z.sgn q * (m' * 2 ^ e)).

(** [a / b] on bigints: truncation toward zero, [RangeError] on a zero
    divisor. *)
Definition bigint_div (a b : Z) : option Z :=
  if b =? 0 then None else Some (Z.quot a b).

(** [t[i]] on an array of strings ([undefined] when out of range). *)
Definition at_ (t : list string) (i : nat) : option string := nth_error t i.

(** [t[i] === s]. *)
Definition at_is (t : list string) (i : nat) (s : string) : bool :=
  match at_ t i with
  | Some x => String.eqb x s
  | None => false
  end.

(** [/^[0-9a-f]$/] on one character. *)
Definition is_lower_hex (c : ascii) : bool :=
  let n := nat_of_ascii c in
  ((48 <=? n)%nat && (n <=? 57)%nat) || ((97 <=? n)%nat && (n <=? 102)%nat).

Fixpoint all_chars (p : ascii -> bool) (s : string) : bool :=
  match s with
  | EmptyString => true
  | String c s' => p c && all_chars p s'
  end.

(** [/^[0-9a-f]{64}$/.test(s)]: without the [m] flag, [$] only matches at the
    very end of the input. *)
Definition PUBKEY_REGEX_test (s : string) : bool :=
  (String.length s =? 64)%nat && all_chars is_lower_hex s.

End Js.

Import Js.

(** ** Nostr events, filters and the relay query *)

Module Nostr.

(** [EventTemplate] of nostr-tools: what the builders return. *)
Record EventTemplate : Type := mkTemplate {
  t_kind : Z;
  t_created_at : Z;
  t_tags : list (list string);
  t_content : string
}.

(** A signed event. *)
Record Event : Type := mkEvent {
  event_id : string;
  pubkey : string;
  kind : Z;
  created_at : Z;
  tags : list (list string);
  content : string;
  event_sig : string
}.

(** [finalizeEvent(template, secretKey)]: the template's four fields are kept,
    and the author, the id and the signature derived from the key are added.
    The three derived strings are taken as arguments. *)
Definition finalizeEvent (t : EventTemplate) (author eid sg : string) : Event :=
  {| event_id := eid; pubkey := author; kind := t_kind t;
     created_at := t_created_at t; tags := t_tags t; content := t_content t;
     event_sig := sg |}.

(** [src/events/kinds.ts] *)
Definition ILP_PEER_INFO_KIND : Z := 10032.
Definition SPSP_INFO_KIND : Z := 10047.
Definition SPSP_REQUEST_KIND : Z := 23194.
Definition SPSP_RESPONSE_KIND : Z := 23195.
Definition FOLLOW_LIST_KIND : Z := 3.

(** The filter fields the sources use; an absent field does not constrain. *)
Record Filter : Type := mkFilter {
  kinds : option (list Z);
  authors : option (list string);
  tag_p : option (list string);
  tag_e : option (list string)
}.

Definition Z_mem (k : Z) (l : list Z) : bool := existsb (Z.eqb k) l.
Definition str_mem (s : string) (l : list string) : bool := existsb (String.eqb s) l.

(** Does the event carry a tag [[name, v, ...]] with [v] among [vs]? *)
Definition has_tag_value (name : string) (vs : list string) (e : Event) : bool :=
  existsb (fun t => at_is t 0 name &&
                    match at_ t 1 with Some v => str_mem v vs | None => false end)
          (tags e).

Definition opt_all {A} (o : option A) (p : A -> bool) : bool :=
  match o with Some a => p a | None => true end.

(** NIP-01 filter matching. *)
Definition matchFilter (f : Filter) (e : Event) : bool :=
  opt_all (kinds f) (Z_mem (kind e)) &&
  opt_all (authors f) (str_mem (pubkey e)) &&
  opt_all (tag_p f) (fun vs => has_tag_value "p" vs e) &&
  opt_all (tag_e f) (fun vs => has_tag_value "e" vs e).

(** [pool.querySync(relays, filter)]: the events the relays hold at the time
    of the call that match the filter, in the order they are received. The
    relays' holdings are the list [store]. *)
Definition querySync (store : list Event) (f : Filter) : list Event :=
  List.filter (matchFilter f) store.

End Nostr.

Import Nostr.


(** ** Tag-based events: [src/events/builder.ts], [src/events/parser.ts] *)

Module Events.

(** [SpspInfoParams]: [receiptsEnabled] is optional. *)
Record SpspInfoParams : Type := mkSpspInfoParams {
  p_destinationAccount : string;
  p_sharedSecret : string;
  p_receiptsEnabled : option bool
}.

(** [buildSpspInfoEvent(params)]; [now] is [Math.floor(Date.now() / 1000)]. *)
Definition buildSpspInfoEvent (now : Z) (params : SpspInfoParams) : EventTemplate :=
  let tags0 := [ ["destination"; p_destinationAccount params];
                 ["secret"; p_sharedSecret params] ] in
  let tags1 :=
    match p_receiptsEnabled params with
    | Some b => (tags0 ++ [ ["receipts"; if b then "true" else "false"] ])%list
    | None => tags0
    end in
  {| t_kind := SPSP_INFO_KIND; t_created_at := now; t_tags := tags1; t_content := "" |}.

(** [SpspInfo] of [src/events/types.ts]. A tag may be shorter than two
    strings, so that [destTag[1]] can be [undefined] at run time. *)
Record SpspInfo : Type := mkSpspInfo {
  si_pubkey : string;
  si_destinationAccount : option string;
  si_sharedSecret : option string;
  si_receiptsEnabled : bool;
  si_createdAt : Z
}.

(** [event.tags.find((t) => t[0] === name)] *)
Definition find_tag (name : string) (e : Event) : option (list string) :=
  List.find (fun t => at_is t 0 name) (tags e).

(** [parseSpspInfo(event)]; [None] is [null]. *)
Definition parseSpspInfo (e : Event) : option SpspInfo :=
  if negb (kind e =? SPSP_INFO_KIND) then None
  else
    match find_tag "destination" e, find_tag "secret" e with
    | Some destTag, Some secretTag =>
        let receiptsTag := find_tag "receipts" e in
        Some {| si_pubkey := pubkey e;
                si_destinationAccount := at_ destTag 1;
                si_sharedSecret := at_ secretTag 1;
                si_receiptsEnabled :=
                  match receiptsTag with
                  | Some t => at_is t 1 "true"
                  | None => false
                  end;
                si_createdAt := created_at e |}
    | _, _ => None
    end.

(** Build, sign, parse. *)
Definition roundtrip (now : Z) (author eid sg : string) (params : SpspInfoParams)
  : option SpspInfo :=
  parseSpspInfo (finalizeEvent (buildSpspInfoEvent now params) author eid sg).

(** The parsed object read at the fields of [SpspInfoParams]: its
    [receiptsEnabled] key is always there. *)
Definition as_params (i : SpspInfo) : option SpspInfoParams :=
  match si_destinationAccount i, si_sharedSecret i with
  | Some d, Some sec =>
      Some {| p_destinationAccount := d; p_sharedSecret := sec;
              p_receiptsEnabled := Some (si_receiptsEnabled i) |}
  | _, _ => None
  end.

(** The round trip as the specification states it: parsing what was built
    gives the payload back, an omitted optional field staying absent. *)
Definition parse_inverts_build : Prop :=
  forall (now : Z) (author eid sg : string) (params : SpspInfoParams),
    roundtrip now author eid sg params ≫= as_params = Some params.

(** The white space [parseInt] skips, among the code units below 256. *)
Definition is_js_space (c : ascii) : bool :=
  let n := nat_of_ascii c in
  ((9 <=? n)%nat && (n <=? 13)%nat) || (n =? 32)%nat || (n =? 160)%nat.

Fixpoint skip_space (s : string) : string :=
  match s with
  | String c s' => if is_js_space c then skip_space s' else s
  | EmptyString => s
  end.

Definition digit_of (c : ascii) : option Z :=
  let n := nat_of_ascii c in
  if (48 <=? n)%nat && (n <=? 57)%nat then Some (Z.of_nat n - 48) else None.

(** The value of the longest prefix of decimal digits, [None] when it is
    empty. *)
Fixpoint digits_prefix (acc : option Z) (s : string) : option Z :=
  match s with
  | String c s' =>
      match digit_of c with
      | Some d => digits_prefix (Some (10 * default 0 acc + d)) s'
      | None => acc
      end
  | EmptyString => acc
  end.

(** The mathematical value of [parseInt(s, 10)]; [None] is [NaN]. *)
Definition parseInt10 (s : string) : option Z :=
  match skip_space s with
  | String "-" s' => Z.opp <$> digits_prefix None s'
  | String "+" s' => digits_prefix None s'
  | s' => digits_prefix None s'
  end.

(** [parseInt(t[2], 10) || 0]: [undefined] is first turned into the string
    ["undefined"], [NaN] and zero both give [0]. *)
Definition parseInt10_or_0 (v : option string) : number :=
  match parseInt10 (default "undefined" v) with
  | Some n => Number_of_BigInt n
  | None => Finite 0
  end.

Record Asset : Type := mkAsset { code : option string; scale : number }.
Record Settlement : Type := mkSettlement { s_type : option string; details : list string }.

(** [IlpPeerInfo] of [src/events/types.ts]. *)
Record IlpPeerInfo : Type := mkIlpPeerInfo {
  pi_pubkey : string;
  ilpAddress : option string;
  btpEndpoint : option string;
  assets : list Asset;
  settlement : list Settlement;
  relays : list (option string);
  pi_createdAt : Z
}.

(** [event.tags.filter((t) => t[0] === name)] *)
Definition filter_tags (name : string) (e : Event) : list (list string) :=
  List.filter (fun t => at_is t 0 name) (tags e).

(** [parseIlpPeerInfo(event)]; [None] is [null]. *)
Definition parseIlpPeerInfo (e : Event) : option IlpPeerInfo :=
  if negb (kind e =? ILP_PEER_INFO_KIND) then None
  else
    match find_tag "ilp" e, find_tag "btp" e with
    | Some ilpTag, Some btpTag =>
        Some {| pi_pubkey := pubkey e;
                ilpAddress := at_ ilpTag 1;
                btpEndpoint := at_ btpTag 1;
                assets := List.map (fun t => {| code := at_ t 1;
                                                scale := parseInt10_or_0 (at_ t 2) |})
                                   (filter_tags "asset" e);
                settlement := List.map (fun t => {| s_type := at_ t 1;
                                                    details := skipn 2 t |})
                                       (filter_tags "settlement" e);
                relays := List.map (fun t => at_ t 1) (filter_tags "relay" e);
                pi_createdAt := created_at e |}
    | _, _ => None
    end.

(** [IlpPeerInfoParams]: the three lists are optional. *)
Record AssetParams : Type := mkAssetParams { a_code : string; a_scale : Z }.
Record SettlementParams : Type := mkSettlementParams {
  sp_type : string;
  sp_details : list string
}.
Record IlpPeerInfoParams : Type := mkIlpPeerInfoParams {
  pp_ilpAddress : string;
  pp_btpEndpoint : string;
  pp_assets : option (list AssetParams);
  pp_settlement : option (list SettlementParams);
  pp_relays : option (list string)
}.

(** [n.toString()] for a number that holds a safe integer (below 2^53 in
    magnitude): its decimal digits, with a sign when negative. *)
Definition Number_toString (n : Z) : string := pretty n.

(** [buildIlpPeerInfoEvent(params)]; an array, even empty, is truthy. *)
Definition buildIlpPeerInfoEvent (now : Z) (params : IlpPeerInfoParams) : EventTemplate :=
  let tags0 := [ ["ilp"; pp_ilpAddress params]; ["btp"; pp_btpEndpoint params] ] in
  let tags1 :=
    match pp_assets params with
    | Some l => tags0 ++ List.map (fun a => ["asset"; a_code a; Number_toString (a_scale a)]) l
    | None => tags0
    end in
  let tags2 :=
    match pp_settlement params with
    | Some l => tags1 ++ List.map (fun s => "settlement" :: sp_type s :: sp_details s) l
    | None => tags1
    end in
  let tags3 :=
    match pp_relays params with
    | Some l => tags2 ++ List.map (fun r => ["relay"; r]) l
    | None => tags2
    end in
  {| t_kind := ILP_PEER_INFO_KIND; t_created_at := now; t_tags := tags3; t_content := "" |}.

(** [extractFollowedPubkeys(event)]: one entry per ["p"] tag, [undefined] for
    a tag without a value. *)
Definition extractFollowedPubkeys (e : Event) : list (option string) :=
  if negb (kind e =? FOLLOW_LIST_KIND) then []
  else List.map (fun t => at_ t 1) (filter_tags "p" e).

End Events.

(** ** Latest-record resolution *)

Module Resolver.

(** [events.reduce((a, b) => a.created_at > b.created_at ? a : b)], with no
    initial value: the first element starts the accumulator, and an empty
    array throws (every caller tests the length first). *)
Definition newer_or_right (a b : Event) : Event :=
  if created_at a >? created_at b then a else b.

Definition reduce_latest (events : list Event) : option Event :=
  match events with
  | [] => None
  | e0 :: rest => Some (fold_left newer_or_right rest e0)
  end.

(** One step of the grouping loop of [discoverPeers]:
    [if (!existing || event.created_at > existing.created_at) set(...)]. *)
Definition group_step (m : gmap string Event) (e : Event) : gmap string Event :=
  match m !! pubkey e with
  | Some existing =>
      if created_at e >? created_at existing then <[pubkey e := e]> m else m
  | None => <[pubkey e := e]> m
  end.

Definition group_latest (events : list Event) : gmap string Event :=
  fold_left group_step events ∅.

(** Insertion of an element that came before all those of [l], which is
    sorted by descending [created_at]: it goes in front of the elements that
    compare equal, the sort being stable. *)
Fixpoint insert_desc (e : Event) (l : list Event) : list Event :=
  match l with
  | [] => [e]
  | x :: l' => if created_at e >=? created_at x then e :: l else x :: insert_desc e l'
  end.

(** [events.sort((a, b) => b.created_at - a.created_at)] *)
Definition sort_desc (events : list Event) : list Event :=
  fold_right insert_desc [] events.

(** [sortedEvents[0]] *)
Definition most_recent (events : list Event) : option Event :=
  head (sort_desc events).

(** [isNewer(candidate, lastSeen)] of the specification. *)
Definition isNewer (candidate : Event) (lastSeen : Z) : bool :=
  created_at candidate >? lastSeen.

(** The live filter as the specification words it: a record passes when it is
    strictly newer than the last-seen time stamp of its author, and then
    updates it; [seen] belongs to the one subscription whose stream this is. A
    missing entry counts as zero, as in the core package. *)
Fixpoint spec_live_filter (seen : gmap string Z) (stream : list Event) : list Event :=
  match stream with
  | [] => []
  | e :: rest =>
      if isNewer e (default 0 (seen !! pubkey e))
      then e :: spec_live_filter (<[pubkey e := created_at e]> seen) rest
      else spec_live_filter seen rest
  end.

(** Records of one (author, kind) pair. *)
Definition same_partition (l : list Event) : Prop :=
  forall x y, In x l -> In y l -> pubkey x = pubkey y /\ kind x = kind y.

(** Determinism as the specification states it: the selected record does not
    depend on the order in which the records of a partition are presented. *)
Definition resolution_ignores_order : Prop :=
  forall l l' : list Event,
    same_partition l -> Permutation l l' -> reduce_latest l = reduce_latest l'.

End Resolver.

(** ** Social trust: [src/trust/social-trust-manager.ts] *)

Module Trust.

Import Events Resolver.

Record TrustConfig : Type := mkTrustConfig {
  baseCreditForFollowed : Z;
  mutualFollowerBonus : Z;
  maxMutualBonus : Z;
  baseCreditForUnfollowed : Z;
  maxCreditLimit : Z
}.

Definition DEFAULT_CONFIG : TrustConfig :=
  {| baseCreditForFollowed := 1000;
     mutualFollowerBonus := 100;
     maxMutualBonus := 500;
     baseCreditForUnfollowed := 0;
     maxCreditLimit := 10000 |}.

Record TrustScore : Type := mkTrustScore {
  ts_pubkey : string;
  isFollowed : bool;
  followsUs : bool;
  mutualFollowers : nat;
  creditLimit : Z;
  score : number
}.

(** The manager: its constants and its three caches. A set built from
    [extractFollowedPubkeys] can hold [undefined]. After [loadMyFollows],
    [myFollows] is the very [Set] cached under the manager's own key; the only
    mutation of a set is [clear()] in [clearCache], once the cache map has
    been emptied, so that the sharing cannot be observed. *)
Record Manager : Type := mkManager {
  myPubkey : string;
  config : TrustConfig;
  myFollows : gset (option string);
  myFollowers : gset string;
  followGraphCache : gmap string (gset (option string))
}.

(** The constructor. *)
Definition new_Manager (me : string) (cfg : TrustConfig) : Manager :=
  {| myPubkey := me; config := cfg; myFollows := ∅; myFollowers := ∅;
     followGraphCache := ∅ |}.

Definition set_cache (st : Manager) (k : string) (v : gset (option string)) : Manager :=
  {| myPubkey := myPubkey st; config := config st; myFollows := myFollows st;
     myFollowers := myFollowers st;
     followGraphCache := <[k := v]> (followGraphCache st) |}.

Definition set_myFollows (st : Manager) (v : gset (option string)) : Manager :=
  {| myPubkey := myPubkey st; config := config st; myFollows := v;
     myFollowers := myFollowers st; followGraphCache := followGraphCache st |}.

Definition set_myFollowers (st : Manager) (v : gset string) : Manager :=
  {| myPubkey := myPubkey st; config := config st; myFollows := myFollows st;
     myFollowers := v; followGraphCache := followGraphCache st |}.

(** [getFollows(pubkey)]. An empty [Set] is an object, hence truthy: a cached
    empty set is returned like any other. *)
Definition getFollows (st : Manager) (store : list Event) (pk : string)
  : Manager * gset (option string) :=
  match followGraphCache st !! pk with
  | Some cached => (st, cached)
  | None =>
      let events :=
        querySync store {| kinds := Some [FOLLOW_LIST_KIND]; authors := Some [pk];
                           tag_p := None; tag_e := None |} in
      match reduce_latest events with
      | None => (set_cache st pk ∅, ∅)
      | Some latest =>
          let follows : gset (option string) :=
            list_to_set (extractFollowedPubkeys latest) in
          (set_cache st pk follows, follows)
      end
  end.

(** [countMutualFollowers(peerFollows)] *)
Definition countMutualFollowers (st : Manager) (peerFollows : gset (option string)) : nat :=
  length (List.filter (fun pk => bool_decide (pk ∈ myFollows st)) (elements peerFollows)).

(** [loadMyFollows()] *)
Definition loadMyFollows (st : Manager) (store : list Event) : Manager :=
  let '(st1, follows) := getFollows st store (myPubkey st) in
  set_myFollows st1 follows.

(** [loadMyFollowers()] *)
Definition loadMyFollowers (st : Manager) (store : list Event) : Manager :=
  let events :=
    querySync store {| kinds := Some [FOLLOW_LIST_KIND]; authors := None;
                       tag_p := Some [myPubkey st]; tag_e := None |} in
  set_myFollowers st (list_to_set (List.map pubkey events)).

(** [initialize()]: the two loads touch different fields. *)
Definition initialize (st : Manager) (store : list Event) : Manager :=
  loadMyFollowers (loadMyFollows st store) store.

(** The bonus of lines 111-116. *)
Definition cappedBonus (cfg : TrustConfig) (mutuals : nat) : Z :=
  let mutualBonus := Z.of_nat mutuals * mutualFollowerBonus cfg in
  if mutualBonus >? maxMutualBonus cfg then maxMutualBonus cfg else mutualBonus.

(** The credit limit of lines 106-128. *)
Definition computeCreditLimit (cfg : TrustConfig) (isF followsU : bool) (mutuals : nat) : Z :=
  let c0 := if isF then baseCreditForFollowed cfg else baseCreditForUnfollowed cfg in
  let c1 := c0 + cappedBonus cfg mutuals in
  let c2 := if followsU && isF then c1 + Z.quot (baseCreditForFollowed cfg) 2 else c1 in
  if c2 >? maxCreditLimit cfg then maxCreditLimit cfg else c2.

(** The score of line 131; the division throws on a zero [maxCreditLimit]. *)
Definition computeScore (cfg : TrustConfig) (credit : Z) : result JsError number :=
  match bigint_div (credit * 100) (maxCreditLimit cfg) with
  | Some q => Returned (Number_of_BigInt q)
  | None => Thrown RangeError
  end.

(** The credit limit as the specification words it (steps 4 to 6), in
    unbounded integers with floor division; compared with
    [computeCreditLimit] below. *)
Definition spec_creditLimit (cfg : TrustConfig) (isF fu : bool) (m : nat) : Z :=
  let base := if isF then baseCreditForFollowed cfg else baseCreditForUnfollowed cfg in
  Z.min (base
         + Z.min (Z.of_nat m * mutualFollowerBonus cfg) (maxMutualBonus cfg)
         + (if fu && isF then base / 2 else 0))
        (maxCreditLimit cfg).

(** [computeTrust(peerPubkey)] *)
Definition computeTrust (st : Manager) (store : list Event) (peer : string)
  : Manager * result JsError TrustScore :=
  let st1 := if (size (myFollows st) =? 0)%nat then loadMyFollows st store else st in
  let isF := bool_decide (Some peer ∈ myFollows st1) in
  let followsU := bool_decide (peer ∈ myFollowers st1) in
  let '(st2, peerFollows) := getFollows st1 store peer in
  let mutuals := countMutualFollowers st2 peerFollows in
  let credit := computeCreditLimit (config st2) isF followsU mutuals in
  match computeScore (config st2) credit with
  | Returned sc =>
      (st2, Returned {| ts_pubkey := peer; isFollowed := isF; followsUs := followsU;
                        mutualFollowers := mutuals; creditLimit := credit; score := sc |})
  | Thrown err => (st2, Thrown err)
  end.

(** The function returned by [getTrustCalculator()], reading the manager at
    the time of the call. *)
Definition trustCalculator (st : Manager) (pk : string) (isF : bool) : Z :=
  let cfg := config st in
  if negb isF then baseCreditForUnfollowed cfg
  else
    let credit0 := baseCreditForFollowed cfg in
    let credit1 :=
      if bool_decide (pk ∈ myFollowers st)
      then credit0 + Z.quot (baseCreditForFollowed cfg) 2 else credit0 in
    let credit2 :=
      match followGraphCache st !! pk with
      | Some peerFollows => credit1 + cappedBonus cfg (countMutualFollowers st peerFollows)
      | None => credit1
      end in
    if credit2 >? maxCreditLimit cfg then maxCreditLimit cfg else credit2.

(** [clearCache()] *)
Definition clearCache (st : Manager) : Manager :=
  {| myPubkey := myPubkey st; config := config st; myFollows := ∅;
     myFollowers := ∅; followGraphCache := ∅ |}.

(** The public calls on a manager, each made against the relays' holdings at
    that moment. *)
Inductive Call : Type :=
| CallInitialize (store : list Event)
| CallComputeTrust (store : list Event) (peer : string)
| CallCalculator (pk : string) (isF : bool)
| CallClearCache.

Definition is_clear (c : Call) : bool :=
  match c with CallClearCache => true | _ => false end.

Definition call (st : Manager) (c : Call) : Manager :=
  match c with
  | CallInitialize store => initialize st store
  | CallComputeTrust store peer => fst (computeTrust st store peer)
  | CallCalculator _ _ => st
  | CallClearCache => clearCache st
  end.

Definition calls (st : Manager) (cs : list Call) : Manager := fold_left call cs st.

(** The calls that only look a score up. *)
Definition is_lookup (c : Call) : bool :=
  match c with
  | CallComputeTrust _ _ | CallCalculator _ _ => true
  | _ => false
  end.

(** What a score is computed from, besides the follow set of the peer. *)
Definition view (st : Manager) : string * TrustConfig * gset (option string) * gset string :=
  (myPubkey st, config st, myFollows st, myFollowers st).

(** The score record that lines 98-140 build from a view and the peer's
    follow set. *)
Definition scoreFrom (v : string * TrustConfig * gset (option string) * gset string)
    (peerFollows : gset (option string)) (peer : string) : result JsError TrustScore :=
  let '(_, cfg, follows, followers) := v in
  let isF := bool_decide (Some peer ∈ follows) in
  let followsU := bool_decide (peer ∈ followers) in
  let mutuals :=
    length (List.filter (fun pk => bool_decide (pk ∈ follows)) (elements peerFollows)) in
  let credit := computeCreditLimit cfg isF followsU mutuals in
  match computeScore cfg credit with
  | Returned sc =>
      Returned {| ts_pubkey := peer; isFollowed := isF; followsUs := followsU;
                  mutualFollowers := mutuals; creditLimit := credit; score := sc |}
  | Thrown err => Thrown err
  end.

(** The manager's own follow set, when empty, is the one in the cache: the
    state every [computeTrust] leaves. *)
Definition loaded (st : Manager) : Prop :=
  size (myFollows st) = 0%nat ->
  followGraphCache st !! myPubkey st = Some (myFollows st).

(** The specification's rule for the trust scores, read on the manager:
    between two explicit invalidations a repeated [computeTrust] for one peer
    returns the same score, whatever calls other than [clearCache] were made
    in between. *)
Definition scores_repeat_until_cleared : Prop :=
  forall (st : Manager) (cs : list Call) (store store' : list Event) (peer : string),
    forallb (fun c => negb (is_clear c)) cs = true ->
    snd (computeTrust (calls (fst (computeTrust st store peer)) cs) store' peer)
    = snd (computeTrust st store peer).

End Trust.

(** ** The static SPSP lookup: [src/spsp/nostr-spsp-client.ts] *)

Module StaticSpsp.

Import Events Resolver.

Record SpspParams : Type := mkSpspParams {
  destinationAccount : option string;
  sharedSecret : option string;
  receiptsEnabled : bool
}.

Definition params_of (i : SpspInfo) : SpspParams :=
  {| destinationAccount := si_destinationAccount i;
     sharedSecret := si_sharedSecret i;
     receiptsEnabled := si_receiptsEnabled i |}.

(** [getStaticSpspParams(receiverPubkey)] on the client's [spspCache]. *)
Definition getStaticSpspParams (spspCache : gmap string SpspInfo)
    (store : list Event) (receiver : string)
  : gmap string SpspInfo * option SpspParams :=
  match spspCache !! receiver with
  | Some cached => (spspCache, Some (params_of cached))
  | None =>
      let events :=
        querySync store {| kinds := Some [SPSP_INFO_KIND]; authors := Some [receiver];
                           tag_p := None; tag_e := None |} in
      match reduce_latest events with
      | None => (spspCache, None)
      | Some latest =>
          match parseSpspInfo latest with
          | None => (spspCache, None)
          | Some spspInfo => (<[receiver := spspInfo]> spspCache, Some (params_of spspInfo))
          end
      end
  end.

(** [clearCache()] *)
Definition clearCache (spspCache : gmap string SpspInfo) : gmap string SpspInfo := ∅.

(** The public calls on a client, as far as the cache is concerned:
    [requestSpspParams] and [close] never touch it. *)
Inductive Call : Type :=
| CallGetStatic (store : list Event) (receiver : string)
| CallRequestSpspParams (receiver : string)
| CallClose
| CallClearCache.

Definition is_clear (c : Call) : bool :=
  match c with CallClearCache => true | _ => false end.

Definition call (spspCache : gmap string SpspInfo) (c : Call) : gmap string SpspInfo :=
  match c with
  | CallGetStatic store receiver => fst (getStaticSpspParams spspCache store receiver)
  | CallRequestSpspParams _ => spspCache
  | CallClose => spspCache
  | CallClearCache => clearCache spspCache
  end.

Definition calls (spspCache : gmap string SpspInfo) (cs : list Call) : gmap string SpspInfo :=
  fold_left call cs spspCache.

End StaticSpsp.

(** ** The correlated exchange: [packages/core/src/spsp/NostrSpspClient.ts] *)

Module Correlator.

(** [SpspResponse] and [SpspInfo] of [packages/core/src/types.ts]. *)
Record SpspResponse : Type := mkSpspResponse {
  requestId : string;
  r_destinationAccount : string;
  r_sharedSecret : string
}.

Record SpspInfo : Type := mkSpspInfo {
  destinationAccount : string;
  sharedSecret : string
}.

(** What the promise's executor was told, and when. *)
Inductive Settle : Type :=
| Resolve (info : SpspInfo)
| Reject (e : JsError).

(** The variables the two callbacks of [requestSpspInfo] close over:
    [resolved], whether [timeoutId] is still pending, whether [sub] is still
    open, and the calls made to [resolve] and [reject] so far, each with the
    time of the callback that made it. *)
Record Pending : Type := mkPending {
  resolved : bool;
  timerPending : bool;
  subOpen : bool;
  settled : list (Z * Settle)
}.

(** The state once the executor has run: subscription opened, timer set. *)
Definition start : Pending :=
  {| resolved := false; timerPending := true; subOpen := true; settled := [] |}.

(** What the event loop hands to the promise: a response event received at
    time [t], or the timer coming due at time [t]. *)
Inductive Input : Type :=
| Incoming (t : Z) (ev : Event)
| TimerDue (t : Z).

Definition time_of (i : Input) : Z :=
  match i with Incoming t _ => t | TimerDue t => t end.

Section Exchange.

(** [parseSpspResponse(event, mySecretKey, event.pubkey)] is exported by
    [packages/core/src/events/index.ts], but the text of [parsers.ts] among
    the sources does not have it yet: it is a parameter, [None] standing for
    a thrown error (failed decryption or malformed payload). *)
Variable parseSpspResponse : Event -> option SpspResponse.

(** The id returned by [buildSpspRequestEvent], the recipient and the
    [timeout] option. *)
Variable reqId : string.
Variable recipientPubkey : string.
Variable timeout : Z.

Definition timeout_error : JsError :=
  SpspTimeoutError
    ("SPSP request timed out after " ++ pretty timeout
       ++ "ms waiting for response from " ++ recipientPubkey)%string
    recipientPubkey.

(** The [onevent] callback (lines 166-195), run at time [t]. *)
Definition onevent (t : Z) (st : Pending) (responseEvent : Event) : Pending :=
  if resolved st then st
  else
    match parseSpspResponse responseEvent with
    | None => st
    | Some response =>
        if negb (String.eqb (requestId response) reqId) then st
        else
          {| resolved := true;
             timerPending := false;
             subOpen := false;
             settled := settled st ++
               [(t, Resolve {| destinationAccount := r_destinationAccount response;
                               sharedSecret := r_sharedSecret response |})] |}
    end.

(** The [setTimeout] callback (lines 199-211), run at time [t]. *)
Definition ontimeout (t : Z) (st : Pending) : Pending :=
  if resolved st then st
  else
    {| resolved := true;
       timerPending := timerPending st;
       subOpen := false;
       settled := settled st ++ [(t, Reject timeout_error)] |}.

(** The event loop: a response is handed to [onevent] (whatever the filter
    of the subscription, and even after [close], which the callback does not
    rely on); a timer that is still pending runs its callback once, a cleared
    or fired one does nothing. *)
Definition deliver (st : Pending) (i : Input) : Pending :=
  match i with
  | Incoming t ev => onevent t st ev
  | TimerDue t =>
      if timerPending st
      then ontimeout t {| resolved := resolved st; timerPending := false;
                          subOpen := subOpen st; settled := settled st |}
      else st
  end.

Definition run (st : Pending) (ins : list Input) : Pending := fold_left deliver ins st.

(** A response that decrypts, is well formed and carries the request's id. *)
Definition matching (ev : Event) : bool :=
  match parseSpspResponse ev with
  | Some response => String.eqb (requestId response) reqId
  | None => false
  end.

(** An input that ends the wait: the timer, or a matching response. *)
Definition decisive (i : Input) : bool :=
  match i with
  | Incoming _ ev => matching ev
  | TimerDue _ => true
  end.

(** The settlement a decisive input causes. *)
Definition outcome_of (i : Input) : option (Z * Settle) :=
  match i with
  | Incoming t ev =>
      match parseSpspResponse ev with
      | Some response =>
          if String.eqb (requestId response) reqId
          then Some (t, Resolve {| destinationAccount := r_destinationAccount response;
                                   sharedSecret := r_sharedSecret response |})
          else None
      | None => None
      end
  | TimerDue t => Some (t, Reject timeout_error)
  end.

(** [setTimeout(f, timeout)] set at time [t0] never runs [f] before
    [t0 + timeout]. *)
Definition timer_not_early (t0 : Z) (i : Input) : Prop :=
  match i with
  | TimerDue t => t0 + timeout <= t
  | Incoming _ _ => True
  end.

End Exchange.

End Correlator.

(** ** The older client's wait: [src/spsp/nostr-spsp-client.ts] *)

Module LegacyWait.

Section Wait.

(** The decrypted and [JSON.parse]d payload is used as it is. *)
Variable Response : Type.

(** [nip44.decrypt] followed by [JSON.parse], for the conversation key of
    this client and [fromPubkey]: the payload, or the text of the error. *)
Variable decrypt_parse : Event -> string + Response.

Variable fromPubkey : string.
Variable requestId : string.

Inductive Settle : Type :=
| Resolve (r : Response)
| Reject (e : JsError).

(** The timer, the subscription and the calls made to [resolve] and [reject];
    the promise takes the first of them. *)
Record Waiting : Type := mkWaiting {
  timerPending : bool;
  subOpen : bool;
  settled : list Settle
}.

Definition start : Waiting :=
  {| timerPending := true; subOpen := true; settled := [] |}.

(** The subscription's filter (lines 186-190). *)
Definition filter : Filter :=
  {| kinds := Some [SPSP_RESPONSE_KIND]; authors := Some [fromPubkey];
     tag_p := None; tag_e := Some [requestId] |}.

(** The [onevent] callback (lines 196-212). *)
Definition onevent (st : Waiting) (event : Event) : Waiting :=
  {| timerPending := false;
     subOpen := false;
     settled := settled st ++
       [match decrypt_parse event with
        | inr response => Resolve response
        | inl err => Reject (Error_ ("Failed to decrypt SPSP response: " ++ err)%string)
        end] |}.

(** The [setTimeout] callback (lines 181-184). *)
Definition ontimeout (st : Waiting) : Waiting :=
  {| timerPending := false;
     subOpen := false;
     settled := settled st ++ [Reject (Error_ "SPSP request timeout")] |}.

(** The subscription hands over the events that match its filter, while it is
    open. *)
Definition receive (st : Waiting) (event : Event) : Waiting :=
  if subOpen st && matchFilter filter event then onevent st event else st.

(** The promise's state: that of the first call. *)
Definition promise (st : Waiting) : option Settle := head (settled st).

End Wait.

Arguments Resolve {Response} r.
Arguments Reject {Response} e.

(** The specification's rule for candidates, read on [waitForResponse]: a
    candidate that fails decryption leaves the wait as it was. *)
Definition discards_undecryptable : Prop :=
  forall (Response : Type) (decrypt_parse : Event -> string + Response)
         (fromPubkey requestId : string) (st : Waiting Response) (event : Event) (err : string),
    promise Response st = None ->
    decrypt_parse event = inl err ->
    receive Response decrypt_parse fromPubkey requestId st event = st.

End LegacyWait.

(** ** Peer discovery of the core package: the class [NostrPeerDiscovery] *)

Module CoreDiscovery.

Import Resolver.

(** [[...new Set(pubkeys)]]: the first occurrence of each string, in order. *)
Fixpoint unique (l : list string) : list string :=
  match l with
  | [] => []
  | x :: r => x :: List.filter (fun y => negb (String.eqb y x)) (unique r)
  end.

(** The tags that pass [tag[0] === 'p' && typeof tag[1] === 'string'],
    mapped to [tag[1]]. *)
Definition p_tag_values (e : Event) : list string :=
  omap (fun t => if at_is t 0 "p" then at_ t 1 else None) (tags e).

Definition invalid_pubkey : JsError :=
  PeerDiscoveryError "Invalid pubkey format: must be 64-character lowercase hex string".

(** What [pool.querySync(relayUrls, filter)] gives for a filter: the events
    received, or what the rejected promise carries. *)
Definition Pool : Type := Filter -> result JsError (list Event).

(** A pool whose relays answer with what they hold. *)
Definition answering (store : list Event) : Pool :=
  fun f => Returned (querySync store f).

Definition query_failed : JsError :=
  PeerDiscoveryError "Failed to query relays for follow list".

(** The filter of [getFollows]; its [limit] is applied by each relay on its
    own. *)
Definition follow_lists_of (pk : string) : Filter :=
  {| kinds := Some [3]; authors := Some [pk]; tag_p := None; tag_e := None |}.

(** [getFollows(pubkey)]: whatever the query block throws is thrown again as
    a [PeerDiscoveryError]. *)
Definition getFollows (pool : Pool) (pk : string) : result JsError (list string) :=
  if negb (PUBKEY_REGEX_test pk) then Thrown invalid_pubkey
  else
    match pool (follow_lists_of pk) with
    | Thrown _ => Thrown query_failed
    | Returned events =>
        match most_recent events with
        | None => Returned []
        | Some mostRecent => Returned (unique (p_tag_values mostRecent))
        end
    end.

(** The filter of the second query of [discoverPeers]. *)
Definition peer_infos_of (follows : list string) : Filter :=
  {| kinds := Some [ILP_PEER_INFO_KIND]; authors := Some follows;
     tag_p := None; tag_e := None |}.

Section Parser.

(** The discovery class is stated for any payload type and parser, [None]
    standing for a thrown [InvalidEventError]; the [IlpPeerInfo] and
    [parseIlpPeerInfo] of the core package are [Bootstrap.IlpPeerInfo] and
    [CoreEvents.parseIlpPeerInfo] below. *)
Variable IlpPeerInfo : Type.
Variable parseIlpPeerInfo : Event -> option IlpPeerInfo.

(** [discoverPeers(pubkey)]: the result map holds the parsed latest event of
    each author; the [catch] drops the authors whose event does not parse. The
    second query stands outside any [try]: what it throws is thrown as it
    is. *)
Definition discoverPeers (pool : Pool) (pk : string)
  : result JsError (gmap string IlpPeerInfo) :=
  if negb (PUBKEY_REGEX_test pk) then Thrown invalid_pubkey
  else
    match getFollows pool pk with
    | Thrown err => Thrown err
    | Returned follows =>
        match follows with
        | [] => Returned ∅
        | _ :: _ =>
            match pool (peer_infos_of follows) with
            | Thrown err => Thrown err
            | Returned events =>
                let eventsByPubkey := group_latest events in
                Returned (omap parseIlpPeerInfo eventsByPubkey)
            end
        end
    end.

(** The variables one subscription's callbacks close over. *)
Record Subscription : Type := mkSubscription {
  peerTimestamps : gmap string Z;
  isUnsubscribed : bool
}.

(** A subscription as [subscribeToPeerUpdates] creates it. *)
Definition fresh : Subscription :=
  {| peerTimestamps := ∅; isUnsubscribed := false |}.

(** The [onevent] callback of [subscribeToPeerUpdates] (lines 189-208): the
    new state, and the arguments of [callback] when it is called. *)
Definition onevent (sub : Subscription) (event : Event)
  : Subscription * option (string * IlpPeerInfo) :=
  if isUnsubscribed sub then (sub, None)
  else
    let lastSeen := default 0 (peerTimestamps sub !! pubkey event) in
    if created_at event <=? lastSeen then (sub, None)
    else
      let sub' := {| peerTimestamps := <[pubkey event := created_at event]> (peerTimestamps sub);
                     isUnsubscribed := isUnsubscribed sub |} in
      match parseIlpPeerInfo event with
      | Some info => (sub', Some (pubkey event, info))
      | None => (sub', None)
      end.

(** [unsubscribe()] *)
Definition unsubscribe (sub : Subscription) : Subscription :=
  {| peerTimestamps := peerTimestamps sub; isUnsubscribed := true |}.

(** One subscription fed a stream of events: its final state and the calls of
    its callback, in order. *)
Fixpoint feed (sub : Subscription) (events : list Event)
  : Subscription * list (string * IlpPeerInfo) :=
  match events with
  | [] => (sub, [])
  | e :: rest =>
      let '(sub1, c) := onevent sub e in
      let '(sub2, cs) := feed sub1 rest in
      (sub2, option_list c ++ cs)
  end.

(** Several subscriptions live in one process, each with the variables of its
    own closure; the relays' events reach them interleaved, each delivery
    naming the subscription it is for. *)
Fixpoint deliveries (subs : list Subscription) (ds : list (nat * Event))
  : list Subscription * list (nat * (string * IlpPeerInfo)) :=
  match ds with
  | [] => (subs, [])
  | (i, e) :: rest =>
      match subs !! i with
      | Some sub =>
          let '(sub1, c) := onevent sub e in
          let '(subs2, cs) := deliveries (<[i := sub1]> subs) rest in
          (subs2, (List.map (pair i) (option_list c) ++ cs)%list)
      | None => deliveries subs rest
      end
  end.

End Parser.

(** The events delivered to subscription [i]. *)
Definition stream_of {A : Type} (i : nat) (ds : list (nat * A)) : list A :=
  omap (fun d => if (fst d =? i)%nat then Some (snd d) else None) ds.

End CoreDiscovery.

(** ** The discovery service: the class [NostrPeerDiscoveryService] *)

Module ServiceDiscovery.

Import Events Resolver.

(** The service: its own key and its two mutable fields. *)
Record Service : Type := mkService {
  self : string;
  followedPubkeys : gset (option string);
  peerInfoCache : gmap string IlpPeerInfo
}.

Definition new_Service (pk : string) : Service :=
  {| self := pk; followedPubkeys := ∅; peerInfoCache := ∅ |}.

Record DiscoveredPeer : Type := mkDiscoveredPeer {
  info : IlpPeerInfo;
  isFollowed : bool
}.

(** [queryEvents(filter)]: the relays' answer; when the query timer wins the
    race the answer is empty, as for relays that hold nothing. *)
Definition queryEvents (store : list Event) (f : Filter) : list Event :=
  querySync store f.

(** [refreshFollowList()] *)
Definition refreshFollowList (sv : Service) (store : list Event)
  : Service * list (option string) :=
  let events :=
    queryEvents store {| kinds := Some [FOLLOW_LIST_KIND]; authors := Some [self sv];
                         tag_p := None; tag_e := None |} in
  match reduce_latest events with
  | None => (sv, [])
  | Some latest =>
      let pubkeys := extractFollowedPubkeys latest in
      ({| self := self sv; followedPubkeys := list_to_set pubkeys;
          peerInfoCache := peerInfoCache sv |}, pubkeys)
  end.

(** The loop of [discoverPeers] over the events received (lines 92-100). *)
Fixpoint collect (cache : gmap string IlpPeerInfo) (events : list Event)
  : gmap string IlpPeerInfo * list DiscoveredPeer :=
  match events with
  | [] => (cache, [])
  | event :: rest =>
      match parseIlpPeerInfo event with
      | Some peerInfo =>
          let '(cache', peers) := collect (<[pi_pubkey peerInfo := peerInfo]> cache) rest in
          (cache', {| info := peerInfo; isFollowed := true |} :: peers)
      | None => collect cache rest
      end
  end.

(** [discoverPeers()]. The [authors] of the filter are the strings of
    [followedPubkeys]. *)
Definition discoverPeers (sv : Service) (store : list Event)
  : Service * list DiscoveredPeer :=
  let '(sv1, _) := refreshFollowList sv store in
  if (size (followedPubkeys sv1) =? 0)%nat then (sv1, [])
  else
    let peerInfoEvents :=
      queryEvents store {| kinds := Some [ILP_PEER_INFO_KIND];
                           authors := Some (omap id (elements (followedPubkeys sv1)));
                           tag_p := None; tag_e := None |} in
    let '(cache', peers) := collect (peerInfoCache sv1) peerInfoEvents in
    ({| self := self sv1; followedPubkeys := followedPubkeys sv1;
        peerInfoCache := cache' |}, peers).

(** [getPeerInfo(pubkey)] *)
Definition getPeerInfo (sv : Service) (store : list Event) (pk : string)
  : Service * option IlpPeerInfo :=
  match peerInfoCache sv !! pk with
  | Some cached => (sv, Some cached)
  | None =>
      let events :=
        queryEvents store {| kinds := Some [ILP_PEER_INFO_KIND]; authors := Some [pk];
                             tag_p := None; tag_e := None |} in
      match reduce_latest events with
      | None => (sv, None)
      | Some latest =>
          match parseIlpPeerInfo latest with
          | Some peerInfo =>
              ({| self := self sv; followedPubkeys := followedPubkeys sv;
                  peerInfoCache := <[pk := peerInfo]> (peerInfoCache sv) |}, Some peerInfo)
          | None => (sv, None)
          end
      end
  end.

(** The [onevent] callback of [subscribeToPeerUpdates] (lines 179-188): it
    reads and writes the service's [peerInfoCache]; the result carries the
    argument of [onUpdate] when it is called. *)
Definition onevent (cache : gmap string IlpPeerInfo) (event : Event)
  : gmap string IlpPeerInfo * option IlpPeerInfo :=
  match parseIlpPeerInfo event with
  | Some peerInfo =>
      match cache !! pi_pubkey peerInfo with
      | Some existing =>
          if pi_createdAt peerInfo >? pi_createdAt existing
          then (<[pi_pubkey peerInfo := peerInfo]> cache, Some peerInfo)
          else (cache, None)
      | None => (<[pi_pubkey peerInfo := peerInfo]> cache, Some peerInfo)
      end
  | None => (cache, None)
  end.

(** The subscriptions of one service, fed interleaved deliveries: every
    callback works on the one cache of the service. Each call of [onUpdate]
    is recorded with the subscription it belongs to. *)
Fixpoint deliveries (cache : gmap string IlpPeerInfo) (ds : list (nat * Event))
  : gmap string IlpPeerInfo * list (nat * IlpPeerInfo) :=
  match ds with
  | [] => (cache, [])
  | (i, e) :: rest =>
      let '(cache1, c) := onevent cache e in
      let '(cache2, cs) := deliveries cache1 rest in
      (cache2, List.map (pair i) (option_list c) ++ cs)
  end.

(** The calls of [onUpdate] made for subscription [i]. *)
Definition calls_of {A : Type} (i : nat) (cs : list (nat * A)) : list A :=
  CoreDiscovery.stream_of i cs.

(** The specification's scoping rule, read on the service: the updates a
    subscription reports
    are the parsed records of its own stream that pass the live filter, with a
    last-seen state that starts empty for each subscription. *)
Definition last_seen_is_per_subscription : Prop :=
  forall (ds : list (nat * Event)) (i : nat),
    calls_of i (snd (deliveries ∅ ds))
    = omap parseIlpPeerInfo (spec_live_filter ∅ (CoreDiscovery.stream_of i ds)).

End ServiceDiscovery.

(** ** The bootstrap service: the class [BootstrapService] of the core package *)

Module Bootstrap.

Import Resolver.

(** [IlpPeerInfo] of the core package, as its tests build it. *)
Record IlpPeerInfo : Type := mkIlpPeerInfo {
  ilpAddress : string;
  btpEndpoint : string;
  settlementEngine : option string;
  assetCode : string;
  assetScale : Z
}.

Record KnownPeer : Type := mkKnownPeer {
  kp_pubkey : string;
  relayUrl : string;
  kp_btpEndpoint : string
}.

Record BootstrapResult : Type := mkBootstrapResult {
  knownPeer : KnownPeer;
  peerInfo : IlpPeerInfo;
  spspInfo : Correlator.SpspInfo
}.

(** [s.slice(0, 16)] *)
Definition slice16 (s : string) : string := String.substring 0 16 s.

Section World.

(** Everything outside the service (the relays, the peers that answer, the
    connector) is a state [W] that each call may read and change. *)
Variable W : Type.

(** A computation that changes the world and returns or throws. *)
Definition M (A : Type) : Type := W -> W * result JsError A.

Definition ret {A : Type} (a : A) : M A := fun w => (w, Returned a).

Definition throw {A : Type} (e : JsError) : M A := fun w => (w, Thrown e).

Definition bind {A B : Type} (m : M A) (k : A -> M B) : M B :=
  fun w =>
    match m w with
    | (w', Returned a) => k a w'
    | (w', Thrown e) => (w', Thrown e)
    end.

(** [try { m } catch (error) { throw new BootstrapError(message) }] *)
Definition rethrow_as {A : Type} (message : string) (m : M A) : M A :=
  fun w =>
    match m w with
    | (w', Returned a) => (w', Returned a)
    | (w', Thrown _) => (w', Thrown (BootstrapError message))
    end.

Local Notation "'let!' x ':=' m 'in' k" := (bind m (fun x => k))
  (at level 10, x name, m at level 100, k at level 200).

(** The collaborators: [pool.querySync([url], filter)], the handshake
    [new NostrSpspClient([url], pool, secretKey).requestSpspInfo(pubkey,
    {timeout})], the connector's [addPeer] and [addRoute], and
    [pool.publish([url], event)]. *)
Variable querySync : string -> Filter -> M (list Event).
Variable requestSpspInfo : string -> string -> Z -> M Correlator.SpspInfo.
Variable addPeer : string -> string -> string -> M unit.
Variable addRoute : string -> string -> M unit.
Variable publish : string -> Event -> M unit.

(** [parseIlpPeerInfo] of [events/parsers.ts] (see
    [CoreEvents.parseIlpPeerInfo] below); [None] stands for a thrown
    [InvalidEventError]. *)
Variable parseIlpPeerInfo : Event -> option IlpPeerInfo.

(** [buildIlpPeerInfoEvent(this.ownIlpInfo, this.secretKey)] *)
Variable ownInfoEvent : Event.

(** The configuration: [spspTimeout], and whether [setConnectorAdmin] was
    called. *)
Variable spspTimeout : Z.
Variable hasConnectorAdmin : bool.

(** [queryPeerInfo(knownPeer)]: a [BootstrapError] thrown inside the [try] is
    thrown again, anything else is wrapped. *)
Definition queryPeerInfo (kp : KnownPeer) : M IlpPeerInfo :=
  fun w =>
    let filter := {| kinds := Some [ILP_PEER_INFO_KIND]; authors := Some [kp_pubkey kp];
                     tag_p := None; tag_e := None |} in
    match querySync (relayUrl kp) filter w with
    | (w', Thrown _) =>
        (w', Thrown (BootstrapError ("Failed to query peer info from " ++ relayUrl kp)%string))
    | (w', Returned events) =>
        match most_recent events with
        | None =>
            (w', Thrown (BootstrapError
                   ("No kind:10032 event found for peer " ++ slice16 (kp_pubkey kp) ++ "...")%string))
        | Some mostRecent =>
            match parseIlpPeerInfo mostRecent with
            | Some i => (w', Returned i)
            | None =>
                (w', Thrown (BootstrapError
                       ("Failed to query peer info from " ++ relayUrl kp)%string))
            end
        end
    end.

(** [directSpspHandshake(knownPeer)] *)
Definition directSpspHandshake (kp : KnownPeer) : M Correlator.SpspInfo :=
  rethrow_as ("SPSP handshake failed with " ++ slice16 (kp_pubkey kp) ++ "...")%string
    (requestSpspInfo (relayUrl kp) (kp_pubkey kp) spspTimeout).

(** [addPeerToConnector(knownPeer, peerInfo)], called when the admin client
    is set. *)
Definition addPeerToConnector (kp : KnownPeer) (i : IlpPeerInfo) : M unit :=
  rethrow_as "Failed to add peer to connector"
    (let peerId := ("nostr-" ++ slice16 (kp_pubkey kp))%string in
     let! _ := addPeer peerId (btpEndpoint i) (ilpAddress i) in
     addRoute (ilpAddress i) peerId).

(** [publishOurInfo(relayUrl)] *)
Definition publishOurInfo (url : string) : M unit :=
  rethrow_as ("Failed to publish ILP info to " ++ url)%string (publish url ownInfoEvent).

(** [bootstrapWithPeer(knownPeer)] *)
Definition bootstrapWithPeer (kp : KnownPeer) : M BootstrapResult :=
  if negb (PUBKEY_REGEX_test (kp_pubkey kp))
  then throw (BootstrapError
                ("Invalid pubkey format for known peer: " ++ kp_pubkey kp)%string)
  else
    let! i := queryPeerInfo kp in
    let! sp := directSpspHandshake kp in
    let! _ := (if hasConnectorAdmin then addPeerToConnector kp i else ret tt) in
    let! _ := publishOurInfo (relayUrl kp) in
    ret {| knownPeer := kp; peerInfo := i; spspInfo := sp |}.

(** One turn of the loop of [bootstrap]: a result is pushed, a failure is
    logged and the loop goes on. *)
Definition bootstrap_step (acc : W * list BootstrapResult) (kp : KnownPeer)
  : W * list BootstrapResult :=
  match bootstrapWithPeer kp (fst acc) with
  | (w', Returned r) => (w', snd acc ++ [r])
  | (w', Thrown _) => (w', snd acc)
  end.

(** [bootstrap()] over [config.knownPeers] *)
Definition bootstrap (knownPeers : list KnownPeer) (w : W) : W * list BootstrapResult :=
  fold_left bootstrap_step knownPeers (w, []).

End World.

End Bootstrap.

(** ** Sample data *)

Module Samples.

(** A follow list of [author] naming [ps]. *)
Definition follow_list (author : string) (ts : Z) (ps : list string) : Event :=
  {| event_id := (author ++ "-follows-" ++ pretty ts)%string; pubkey := author;
     kind := FOLLOW_LIST_KIND; created_at := ts;
     tags := List.map (fun pk => ["p"; pk]) ps; content := ""; event_sig := "" |}.

(** A peer advertisement of [author] in the tag form. *)
Definition peer_info (author : string) (ts : Z) (address : string) : Event :=
  {| event_id := (author ++ "-peer-" ++ pretty ts ++ "-" ++ address)%string; pubkey := author;
     kind := ILP_PEER_INFO_KIND; created_at := ts;
     tags := [ ["ilp"; address]; ["btp"; "wss://btp.example" ] ];
     content := address; event_sig := "" |}.

(** A static SPSP record of [author] in the tag form. *)
Definition spsp_info (author : string) (ts : Z) (secret : string) : Event :=
  finalizeEvent
    (Events.buildSpspInfoEvent ts
       {| Events.p_destinationAccount := "g.agent.receiver";
          Events.p_sharedSecret := secret; Events.p_receiptsEnabled := None |})
    author (author ++ "-spsp-" ++ pretty ts)%string "".

(** What the relays hold at first, and after newer records were published. *)
Definition store_old : list Event :=
  [ follow_list "me" 1 ["peer"; "a"]; follow_list "peer" 1 ["a"; "b"];
    spsp_info "receiver" 1 "old-secret" ].

Definition store_new : list Event :=
  follow_list "peer" 2 ["c"] :: spsp_info "receiver" 2 "new-secret" :: store_old.

(** The owner follows a peer and ten more keys, all of which the peer follows
    too; nobody follows the owner. *)
Definition ten_keys : list string :=
  ["m0"; "m1"; "m2"; "m3"; "m4"; "m5"; "m6"; "m7"; "m8"; "m9"].

Definition store_ten_mutuals : list Event :=
  [ follow_list "me" 1 ("peer" :: ten_keys); follow_list "peer" 1 ten_keys ].

(** Two records of one author and kind with the same time stamp. *)
Definition tied_1 : Event := peer_info "alice" 5 "g.alice.one".
Definition tied_2 : Event := peer_info "alice" 5 "g.alice.two".

(** The relays of a service whose owner follows alice, two of which hold
    different advertisements of hers. *)
Definition store_two_versions : list Event :=
  [ follow_list "me" 1 ["alice"];
    peer_info "alice" 1 "g.alice.old"; peer_info "alice" 2 "g.alice.new" ].

(** A response parser for the exchange with request id ["req-1"]: the content
    ["ok"] decrypts to the matching response, ["other"] to a response to
    another request, anything else fails. *)
Definition parse_response (e : Event) : option Correlator.SpspResponse :=
  if String.eqb (content e) "ok"
  then Some {| Correlator.requestId := "req-1";
               Correlator.r_destinationAccount := "g.agent.receiver.1";
               Correlator.r_sharedSecret := "c2VjcmV0" |}
  else if String.eqb (content e) "other"
  then Some {| Correlator.requestId := "req-2";
               Correlator.r_destinationAccount := "g.agent.receiver.2";
               Correlator.r_sharedSecret := "b3RoZXI=" |}
  else None.

(** A response event of [author] answering request [req]. *)
Definition response (author req text : string) : Event :=
  {| event_id := (author ++ "-response")%string; pubkey := author;
     kind := SPSP_RESPONSE_KIND; created_at := 10;
     tags := [ ["p"; "me"]; ["e"; req] ]; content := text; event_sig := "" |}.

(** Decryption for the older client: the content ["ok"] decrypts. *)
Definition decrypt (e : Event) : string + string :=
  if String.eqb (content e) "ok" then inr "payload" else inl "invalid MAC".

(** A world for the bootstrap: the log of the calls made so far. *)
Definition log (entry : string) {A : Type} (a : A) : Bootstrap.M (list string) A :=
  fun w => (w ++ [entry], Returned a).

Definition seed (pk : string) : Bootstrap.KnownPeer :=
  {| Bootstrap.kp_pubkey := pk; Bootstrap.relayUrl := "wss://relay.example";
     Bootstrap.kp_btpEndpoint := "wss://btp.example" |}.

Definition key_a : string := "aaaaaaaaaaaaaaaaaaaaaaaaaaaaaaaaaaaaaaaaaaaaaaaaaaaaaaaaaaaaaaaa".
Definition key_b : string := "bbbbbbbbbbbbbbbbbbbbbbbbbbbbbbbbbbbbbbbbbbbbbbbbbbbbbbbbbbbbbbbb".

Definition parse_core (e : Event) : option Bootstrap.IlpPeerInfo :=
  if String.eqb (content e) "" then None
  else Some {| Bootstrap.ilpAddress := content e;
               Bootstrap.btpEndpoint := "wss://btp.example";
               Bootstrap.settlementEngine := None;
               Bootstrap.assetCode := "USD"; Bootstrap.assetScale := 6 |}.

Definition sample_bootstrap : list Bootstrap.KnownPeer -> list string ->
                              list string * list Bootstrap.BootstrapResult :=
  Bootstrap.bootstrap (list string)
    (fun url f => log ("query " ++ url)%string
                      (querySync [peer_info key_a 1 "g.a"; peer_info key_b 1 "g.b"] f))
    (fun url pk _ => log ("spsp " ++ pk)%string
                         {| Correlator.destinationAccount := "g.peer";
                            Correlator.sharedSecret := "c2VjcmV0" |})
    (fun peerId _ _ => log ("addPeer " ++ peerId)%string tt)
    (fun _ peerId => log ("addRoute " ++ peerId)%string tt)
    (fun url _ => log ("publish " ++ url)%string tt)
    parse_core
    (peer_info "me" 1 "g.me")
    10000
    true.

End Samples.

(** ** Further call classes of the trust manager *)

Module TrustCalls.

(** The one public call that loads the followers of the owner. *)
Definition is_initialize (c : Trust.Call) : bool :=
  match c with Trust.CallInitialize _ => true | _ => false end.

(** The filter of [getFollows] and of [refreshFollowList]: the follow lists
    of one author. *)
Definition follow_lists_of (pk : string) : Filter :=
  {| kinds := Some [FOLLOW_LIST_KIND]; authors := Some [pk];
     tag_p := None; tag_e := None |}.

End TrustCalls.

(** ** Follow lists: [buildFollowListEvent] and [parseFollowList] *)

Module FollowList.

Import Events.

(** [FollowParams]: the relay hint and the pet name are optional. *)
Record FollowParams : Type := mkFollowParams {
  f_pubkey : string;
  f_relayHint : option string;
  f_petname : option string
}.

(** A string that may be [undefined], used as a condition: the string itself
    when it is truthy (neither [undefined] nor empty). This is also
    [s || undefined]. *)
Definition if_truthy (o : option string) : option string :=
  match o with
  | Some s => if String.eqb s "" then None else Some s
  | None => None
  end.

(** The tag of one follow (lines 90-96 of the builder). *)
Definition follow_tag (f : FollowParams) : list string :=
  let tag0 := ["p"; f_pubkey f] in
  let tag1 :=
    match if_truthy (f_relayHint f) with
    | Some hint => tag0 ++ [hint]
    | None =>
        match if_truthy (f_petname f) with
        | Some _ => tag0 ++ [""]
        | None => tag0
        end
    end in
  match if_truthy (f_petname f) with
  | Some name => tag1 ++ [name]
  | None => tag1
  end.

(** [buildFollowListEvent(follows)] *)
Definition buildFollowListEvent (now : Z) (follows : list FollowParams) : EventTemplate :=
  {| t_kind := FOLLOW_LIST_KIND; t_created_at := now;
     t_tags := List.map follow_tag follows; t_content := "" |}.

(** [SocialRelationship] of [src/events/types.ts]; [to] is [t[1]], which a
    short tag leaves [undefined]. *)
Record SocialRelationship : Type := mkSocialRelationship {
  r_from : string;
  r_to : option string;
  r_relayHint : option string;
  r_petname : option string
}.

(** [parseFollowList(event)] *)
Definition parseFollowList (e : Event) : list SocialRelationship :=
  if negb (kind e =? FOLLOW_LIST_KIND) then []
  else List.map (fun t => {| r_from := pubkey e;
                             r_to := at_ t 1;
                             r_relayHint := if_truthy (at_ t 2);
                             r_petname := if_truthy (at_ t 3) |})
                (filter_tags "p" e).

(** An event with other tags. *)
Definition with_tags (e : Event) (ts : list (list string)) : Event :=
  {| event_id := event_id e; pubkey := pubkey e; kind := kind e;
     created_at := created_at e; tags := ts; content := content e;
     event_sig := event_sig e |}.

(** The tag names [parseSpspInfo] and [parseIlpPeerInfo] look for. *)
Definition spsp_tag (t : list string) : bool :=
  at_is t 0 "destination" || at_is t 0 "secret" || at_is t 0 "receipts".

Definition peer_tag (t : list string) : bool :=
  at_is t 0 "ilp" || at_is t 0 "btp" || at_is t 0 "asset"
  || at_is t 0 "settlement" || at_is t 0 "relay".

End FollowList.

(** ** Peer configurations and the calls of the discovery service *)

Module PeerConfigs.

Import Events ServiceDiscovery.

(** [PeerConfig] of [src/events/types.ts]; [getPeerConfigs] never sets
    [name]. *)
Record PeerConfig : Type := mkPeerConfig {
  pc_pubkey : string;
  pc_ilpAddress : option string;
  pc_btpEndpoint : option string;
  pc_creditLimit : Z;
  pc_settlement : option Settlement
}.

(** [defaultTrust] of [getPeerConfigs] *)
Definition defaultTrust (pk : string) (isFollowed : bool) : Z :=
  if isFollowed then 1000 else 0.

(** [getPeerConfigs(trustCalculator)]; [peer.settlement[0]] is [undefined]
    for a peer without settlement tags. *)
Definition getPeerConfigs (sv : Service) (store : list Event)
    (trustCalculator : option (string -> bool -> Z)) : Service * list PeerConfig :=
  let '(sv1, peers) := discoverPeers sv store in
  let calcTrust := default defaultTrust trustCalculator in
  (sv1,
   List.map (fun peer =>
               {| pc_pubkey := pi_pubkey (info peer);
                  pc_ilpAddress := ilpAddress (info peer);
                  pc_btpEndpoint := btpEndpoint (info peer);
                  pc_creditLimit := calcTrust (pi_pubkey (info peer)) (isFollowed peer);
                  pc_settlement := head (settlement (info peer)) |})
            peers).

(** [isFollowing(pubkey)] *)
Definition isFollowing (sv : Service) (pk : string) : bool :=
  bool_decide (Some pk ∈ followedPubkeys sv).

(** What can happen to a service: its public calls, each against the
    relays' holdings at that moment, and an event handed to the [onevent]
    callback of one of its subscriptions. *)
Inductive Call : Type :=
| CallDiscoverPeers (store : list Event)
| CallGetPeerInfo (store : list Event) (pk : string)
| CallGetPeerConfigs (store : list Event) (trustCalculator : option (string -> bool -> Z))
| CallRefreshFollowList (store : list Event)
| CallIsFollowing (pk : string)
| Delivered (event : Event).

Definition call (sv : Service) (c : Call) : Service :=
  match c with
  | CallDiscoverPeers store => fst (discoverPeers sv store)
  | CallGetPeerInfo store pk => fst (getPeerInfo sv store pk)
  | CallGetPeerConfigs store calc => fst (getPeerConfigs sv store calc)
  | CallRefreshFollowList store => fst (refreshFollowList sv store)
  | CallIsFollowing _ => sv
  | Delivered event =>
      {| self := self sv; followedPubkeys := followedPubkeys sv;
         peerInfoCache := fst (onevent (peerInfoCache sv) event) |}
  end.

Definition calls (sv : Service) (cs : list Call) : Service := fold_left call cs sv.

(** Every entry of the cache is stored under the key of its author. *)
Definition keyed (cache : gmap string IlpPeerInfo) : Prop :=
  forall (k : string) (i : IlpPeerInfo), cache !! k = Some i -> pi_pubkey i = k.

End PeerConfigs.

(** ** Discovery through a relay: [BootstrapService.discoverPeersViaRelay] *)

Module BootstrapRelay.

Import Resolver Bootstrap.

Section World.

Variable W : Type.

(** [pool.querySync([relayUrl], filter)] and the core package's
    [parseIlpPeerInfo], [None] standing for a thrown error. *)
Variable querySync : string -> Filter -> M W (list Event).
Variable parseIlpPeerInfo : Event -> option IlpPeerInfo.

(** [this.pubkey] *)
Variable ownPubkey : string.

(** The filter of the query: every kind-10032 event of the relay. *)
Definition all_peer_infos : Filter :=
  {| kinds := Some [ILP_PEER_INFO_KIND]; authors := None; tag_p := None; tag_e := None |}.

(** One turn of the grouping loop: an excluded author is skipped. *)
Definition relay_step (excludeSet : gset string) (m : gmap string Event) (event : Event)
  : gmap string Event :=
  if bool_decide (pubkey event ∈ excludeSet) then m else group_step m event.

(** [discoverPeersViaRelay(relayUrl, excludePubkeys)]: the inner [catch]
    drops the authors whose event does not parse, the outer one wraps what
    the query throws. *)
Definition discoverPeersViaRelay (relayUrl : string) (excludePubkeys : list string)
  : M W (gmap string IlpPeerInfo) :=
  fun w =>
    let excludeSet : gset string := list_to_set (ownPubkey :: excludePubkeys) in
    match querySync relayUrl all_peer_infos w with
    | (w', Thrown _) =>
        (w', Thrown (BootstrapError ("Failed to discover peers from " ++ relayUrl)%string))
    | (w', Returned events) =>
        let eventsByPubkey := fold_left (relay_step excludeSet) events ∅ in
        (w', Returned (omap parseIlpPeerInfo eventsByPubkey))
    end.

End World.

End BootstrapRelay.

(** ** The SPSP server: [src/spsp/nostr-spsp-server.ts] *)

Module SpspServer.

Import Events.

(** [SpspResponse] of [src/events/types.ts], as the server builds it and the
    older client reads it; [result_type] is always ['spsp_setup']. *)
Record SetupResult : Type := mkSetupResult {
  destination_account : string;
  shared_secret : string;
  receipts_enabled : bool
}.

Record SetupError : Type := mkSetupError {
  code : string;
  message : string
}.

Record SpspResponse : Type := mkSpspResponse {
  result : option SetupResult;
  error : option SetupError
}.

(** The field [subscription] and the subscriptions made on the pool: each
    call of [subscribeMany] gives a new handle, numbered in order; [closed]
    lists the handles whose [close()] was called. *)
Record Listening : Type := mkListening {
  subscription : option nat;
  opened : nat;
  closed : list nat
}.

Definition idle : Listening := {| subscription := None; opened := 0; closed := [] |}.

(** [startListening()] *)
Definition startListening (st : Listening) : Listening :=
  match subscription st with
  | Some _ => st
  | None => {| subscription := Some (opened st); opened := S (opened st);
               closed := closed st |}
  end.

(** [stopListening()] *)
Definition stopListening (st : Listening) : Listening :=
  match subscription st with
  | Some h => {| subscription := None; opened := opened st; closed := closed st ++ [h] |}
  | None => st
  end.

(** [close()], as far as the subscriptions are concerned. *)
Definition close (st : Listening) : Listening := stopListening st.

Inductive Call : Type :=
| CallStartListening
| CallStopListening
| CallClose.

Definition call (st : Listening) (c : Call) : Listening :=
  match c with
  | CallStartListening => startListening st
  | CallStopListening => stopListening st
  | CallClose => close st
  end.

Definition calls (st : Listening) (cs : list Call) : Listening := fold_left call cs st.

(** What holds of the subscriptions after any sequence of calls. *)
Definition well_kept (st : Listening) : Prop :=
  (forall h, (h < opened st)%nat ->
             (In h (closed st) /\ subscription st <> Some h)
             \/ (subscription st = Some h /\ ~ In h (closed st)))
  /\ List.NoDup (closed st)
  /\ (forall h, In h (closed st) -> (h < opened st)%nat)
  /\ (forall h, subscription st = Some h -> (h < opened st)%nat).

(** What handling requests changes: the number of secrets generated, the
    events published and the lines written by [console.error]. *)
Record World : Type := mkWorld {
  generated : nat;
  published : list Event;
  logged : list string
}.

Section Server.

(** The configuration: [getPublicKey(secretKey)], [destinationAccount] and
    [receiptsEnabled]. *)
Variable serverPubkey : string.
Variable destinationAccount : string.
Variable receiptsEnabled : bool.

(** Reading a request (lines 151-155): [nip44.getConversationKey],
    [nip44.decrypt], [JSON.parse] and the access to [request.method]. The
    result is the value of [method] when it is a string ([None] otherwise), or
    the message the [catch] block reports when one of the four throws. *)
Variable decrypt_request : Event -> string + option string.

(** The [n]-th call of the secret generator: the secret, or the message of
    what a custom generator throws. *)
Variable secretGenerator : nat -> string + string.

(** [nip44.encrypt(JSON.stringify(response), conversationKey)] for the
    conversation with the given key. *)
Variable encrypt : string -> SpspResponse -> string.

(** The id and the signature [finalizeEvent] derives. *)
Variable event_hash : EventTemplate -> string.
Variable signature : EventTemplate -> string.

(** What [sendResponse] throws for a request and a payload, if anything: the
    conversation key cannot be derived, or the publication is rejected. *)
Variable send_error : Event -> SpspResponse -> option string.

(** The event [sendResponse] signs (lines 190-200). *)
Definition response_event (now : Z) (requestEvent : Event) (response : SpspResponse) : Event :=
  let eventTemplate :=
    {| t_kind := SPSP_RESPONSE_KIND; t_created_at := now;
       t_tags := [ ["p"; pubkey requestEvent]; ["e"; event_id requestEvent] ];
       t_content := encrypt (pubkey requestEvent) response |} in
  finalizeEvent eventTemplate serverPubkey (event_hash eventTemplate) (signature eventTemplate).

(** [sendResponse(requestEvent, response)]: the new world, and the message of
    the error when it throws. *)
Definition sendResponse (now : Z) (requestEvent : Event) (response : SpspResponse)
    (w : World) : World * option string :=
  match send_error requestEvent response with
  | Some msg => (w, Some msg)
  | None =>
      ({| generated := generated w;
          published := published w ++ [response_event now requestEvent response];
          logged := logged w |}, None)
  end.

(** [sendErrorResponse(requestEvent, code, message)] *)
Definition sendErrorResponse (now : Z) (requestEvent : Event) (c m : string)
    (w : World) : World * option string :=
  sendResponse now requestEvent
    {| result := None; error := Some {| code := c; message := m |} |} w.

(** The payload of a successful answer (lines 164-171). *)
Definition setup_response (sharedSecret : string) : SpspResponse :=
  {| result := Some {| destination_account := destinationAccount;
                       shared_secret := sharedSecret;
                       receipts_enabled := receiptsEnabled |};
     error := None |}.

(** The [try] block of [handleRequest] (lines 150-173): the new world, and
    the message of the error when the block throws. *)
Definition try_handle (now : Z) (event : Event) (w : World) : World * option string :=
  match decrypt_request event with
  | inl msg => (w, Some msg)
  | inr method =>
      if match method with Some m => String.eqb m "spsp_setup" | None => false end
      then
        let w1 := {| generated := S (generated w); published := published w;
                     logged := logged w |} in
        match secretGenerator (generated w) with
        | inl msg => (w1, Some msg)
        | inr sharedSecret => sendResponse now event (setup_response sharedSecret) w1
        end
      else sendErrorResponse now event "UNKNOWN_METHOD" "Unknown method" w
  end.

(** [handleRequest(event)]: what the [try] block throws is answered with an
    [INTERNAL_ERROR] response; the result carries the message of the error
    when that last attempt throws too. *)
Definition handleRequest (now : Z) (event : Event) (w : World) : World * option string :=
  match try_handle now event w with
  | (w1, None) => (w1, None)
  | (w1, Some msg) => sendErrorResponse now event "INTERNAL_ERROR" msg w1
  end.

(** The [onevent] callback of [startListening]: a rejection of
    [handleRequest] is written to the console. *)
Definition onevent (now : Z) (event : Event) (w : World) : World :=
  match handleRequest now event w with
  | (w1, None) => w1
  | (w1, Some err) =>
      {| generated := generated w1; published := published w1;
         logged := logged w1 ++ [err] |}
  end.

(** A request that reads as a call of ['spsp_setup']. *)
Definition is_setup (event : Event) : bool :=
  match decrypt_request event with
  | inr (Some m) => String.eqb m "spsp_setup"
  | _ => false
  end.

(** [publishStaticSpspInfo(sharedSecret)]: the event handed to
    [pool.publish]. *)
Definition static_info_event (now : Z) (sharedSecret : string) : Event :=
  let eventTemplate :=
    buildSpspInfoEvent now
      {| p_destinationAccount := destinationAccount;
         p_sharedSecret := sharedSecret;
         p_receiptsEnabled := Some receiptsEnabled |} in
  finalizeEvent eventTemplate serverPubkey (event_hash eventTemplate) (signature eventTemplate).

(** A response is addressed to the request it answers. *)
Definition addressed (now : Z) (ev r : Event) : Prop :=
  kind r = SPSP_RESPONSE_KIND /\ pubkey r = serverPubkey /\ created_at r = now
  /\ matchFilter (LegacyWait.filter serverPubkey (event_id ev)) r = true
  /\ has_tag_value "p" [pubkey ev] r = true.

(** The error payload the server sends for a request that does not read as
    ['spsp_setup']. *)
Definition refusal (ev : Event) : SpspResponse :=
  match decrypt_request ev with
  | inl msg => {| result := None;
                  error := Some {| code := "INTERNAL_ERROR"; message := msg |} |}
  | inr _ => {| result := None;
                error := Some {| code := "UNKNOWN_METHOD"; message := "Unknown method" |} |}
  end.

(** The record the older client parses from a published static record. *)
Definition static_info (now : Z) (sharedSecret : string) : SpspInfo :=
  {| si_pubkey := serverPubkey;
     si_destinationAccount := Some destinationAccount;
     si_sharedSecret := Some sharedSecret;
     si_receiptsEnabled := receiptsEnabled;
     si_createdAt := now |}.

End Server.

End SpspServer.

(** ** The older client's dynamic request: [requestSpspParams] *)

Module LegacyRequest.

(** [SpspParams] as [requestSpspParams] returns it. *)
Record SpspParams : Type := mkSpspParams {
  destinationAccount : string;
  sharedSecret : string;
  receiptsEnabled : bool
}.

(** The end of [requestSpspParams] (lines 158-170), for a payload of the
    declared type: an error takes precedence over a result. *)
Definition interpret (response : SpspServer.SpspResponse) : result JsError SpspParams :=
  match SpspServer.error response with
  | Some err =>
      Thrown (Error_ ("SPSP request failed: " ++ SpspServer.code err ++ " - "
                        ++ SpspServer.message err)%string)
  | None =>
      match SpspServer.result response with
      | None => Thrown (Error_ "SPSP response missing result")
      | Some r =>
          Returned {| destinationAccount := SpspServer.destination_account r;
                      sharedSecret := SpspServer.shared_secret r;
                      receiptsEnabled := SpspServer.receipts_enabled r |}
      end
  end.

(** What [requestSpspParams] returns or throws once the wait has settled. *)
Definition outcome (settle : LegacyWait.Settle SpspServer.SpspResponse)
  : result JsError SpspParams :=
  match settle with
  | LegacyWait.Resolve response => interpret response
  | LegacyWait.Reject e => Thrown e
  end.

(** The request event (lines 140-147), the encrypted content being given. *)
Definition request_template (now : Z) (receiverPubkey encryptedContent : string)
  : EventTemplate :=
  {| t_kind := SPSP_REQUEST_KIND; t_created_at := now;
     t_tags := [ ["p"; receiverPubkey] ]; t_content := encryptedContent |}.

(** The filter of the server's subscription (lines 117-120). *)
Definition server_filter (serverPubkey : string) : Filter :=
  {| kinds := Some [SPSP_REQUEST_KIND]; authors := None;
     tag_p := Some [serverPubkey]; tag_e := None |}.

End LegacyRequest.

(** ** Sample data for the dynamic exchange *)

Module ServerSamples.

Import SpspServer.

(** A request of [author]; the content stands for what it decrypts to. *)
Definition request (author text : string) : Event :=
  {| event_id := (author ++ "-request-" ++ text)%string; pubkey := author;
     kind := SPSP_REQUEST_KIND; created_at := 10;
     tags := [ ["p"; "server"] ]; content := text; event_sig := "" |}.

(** The content ["setup"] reads as a call of ['spsp_setup'], ["other"] as a
    call of another method, anything else fails to decrypt. *)
Definition read_request (e : Event) : string + option string :=
  if String.eqb (content e) "setup" then inr (Some "spsp_setup")
  else if String.eqb (content e) "other" then inr (Some "get_info")
  else inl "invalid MAC".

Definition fixed_secret (n : nat) : string + string := inr "c2VjcmV0".

(** An encryption that keeps the payload readable. *)
Definition seal (peer : string) (response : SpspResponse) : string :=
  match result response, error response with
  | Some r, _ => ("result " ++ shared_secret r)%string
  | None, Some err => ("error " ++ code err)%string
  | None, None => "empty"
  end.

(** The client's reading of a response to a ['spsp_setup'] request answered
    by a server for ["g.agent.receiver"] without receipts. *)
Definition open_response (e : Event) : string + SpspResponse :=
  if String.eqb (content e) "result c2VjcmV0"
  then inr {| result := Some {| destination_account := "g.agent.receiver";
                                shared_secret := "c2VjcmV0";
                                receipts_enabled := false |};
              error := None |}
  else if String.eqb (content e) "error UNKNOWN_METHOD"
  then inr {| result := None;
              error := Some {| code := "UNKNOWN_METHOD"; message := "Unknown method" |} |}
  else inl "invalid MAC".

Definition no_failure (e : Event) (response : SpspResponse) : option string := None.

Definition hash_of (t : EventTemplate) : string := ("id-" ++ t_content t)%string.
Definition sig_of (t : EventTemplate) : string := "sig".

Definition empty_world : World := {| generated := 0; published := []; logged := [] |}.

End ServerSamples.

(** ** JSON content: the builders and parsers of the core package

    [events/builders.ts], and [events/parsers.ts] and [types.ts], whose text
    follows the tests of [NostrSpspServer.test.ts] among the sources. *)

Module CoreEvents.

Import Resolver.

(** A number [JSON.parse] returns: its value when [Number.isInteger] holds of
    it, and nothing more otherwise. *)
Inductive JsonNumber : Type :=
| IntegerValue (z : Z)
| OtherNumber.

(** A value [JSON.parse] returns. The members of an object list each key
    once. *)
#[local] Unset Elimination Schemes.
Inductive Json : Type :=
| JNull
| JBool (b : bool)
| JNumber (n : JsonNumber)
| JString (s : string)
| JArray (items : list Json)
| JObject (members : list (string * Json)).
#[local] Set Elimination Schemes.

Fixpoint member (key : string) (members : list (string * Json)) : option Json :=
  match members with
  | [] => None
  | (k, v) :: rest => if String.eqb k key then Some v else member key rest
  end.

(** [parsed[key]] for one of the keys the parsers read: [undefined] on an
    array, which has none of them. *)
Definition get (key : string) (parsed : Json) : option Json :=
  match parsed with
  | JObject members => member key members
  | _ => None
  end.

(** [isObject(value)]: [typeof value === 'object' && value !== null]. *)
Definition isObject (value : Json) : bool :=
  match value with
  | JObject _ | JArray _ => true
  | _ => false
  end.

(** A field that passes [typeof x === 'string' && x.length !== 0]. *)
Definition nonempty_string (x : option Json) : option string :=
  match x with
  | Some (JString s) => if String.eqb s "" then None else Some s
  | _ => None
  end.

(** [InvalidEventError] of [errors.ts], with its message. *)
Inductive InvalidEventError : Type :=
| InvalidEvent (message : string).

(** The objects the builders serialise, with the keys of the interfaces. *)
Definition json_of_IlpPeerInfo (info : Bootstrap.IlpPeerInfo) : Json :=
  JObject ([ ("ilpAddress", JString (Bootstrap.ilpAddress info));
             ("btpEndpoint", JString (Bootstrap.btpEndpoint info)) ]
           ++ match Bootstrap.settlementEngine info with
              | Some s => [ ("settlementEngine", JString s) ]
              | None => []
              end
           ++ [ ("assetCode", JString (Bootstrap.assetCode info));
                ("assetScale", JNumber (IntegerValue (Bootstrap.assetScale info))) ]).

Definition json_of_SpspInfo (info : Correlator.SpspInfo) : Json :=
  JObject [ ("destinationAccount", JString (Correlator.destinationAccount info));
            ("sharedSecret", JString (Correlator.sharedSecret info)) ].

Section Json.

(** [JSON.parse], [None] standing for a thrown [SyntaxError], and
    [JSON.stringify]. *)
Variable JSON_parse : string -> option Json.
Variable JSON_stringify : Json -> string.

(** [parseIlpPeerInfo(event)] of [events/parsers.ts] *)
Definition parseIlpPeerInfo (event : Event) : result InvalidEventError Bootstrap.IlpPeerInfo :=
  if negb (kind event =? ILP_PEER_INFO_KIND)
  then Thrown (InvalidEvent ("Expected event kind 10032, got " ++ pretty (kind event))%string)
  else
    match JSON_parse (content event) with
    | None => Thrown (InvalidEvent "Failed to parse event content as JSON")
    | Some parsed =>
        if negb (isObject parsed)
        then Thrown (InvalidEvent "Event content must be a JSON object")
        else
          match nonempty_string (get "ilpAddress" parsed) with
          | None => Thrown (InvalidEvent "Missing or invalid required field: ilpAddress")
          | Some ilpAddress =>
          match nonempty_string (get "btpEndpoint" parsed) with
          | None => Thrown (InvalidEvent "Missing or invalid required field: btpEndpoint")
          | Some btpEndpoint =>
          match nonempty_string (get "assetCode" parsed) with
          | None => Thrown (InvalidEvent "Missing or invalid required field: assetCode")
          | Some assetCode =>
          match get "assetScale" parsed with
          | Some (JNumber (IntegerValue assetScale)) =>
              match get "settlementEngine" parsed with
              | None =>
                  Returned {| Bootstrap.ilpAddress := ilpAddress;
                              Bootstrap.btpEndpoint := btpEndpoint;
                              Bootstrap.settlementEngine := None;
                              Bootstrap.assetCode := assetCode;
                              Bootstrap.assetScale := assetScale |}
              | Some (JString settlementEngine) =>
                  Returned {| Bootstrap.ilpAddress := ilpAddress;
                              Bootstrap.btpEndpoint := btpEndpoint;
                              Bootstrap.settlementEngine := Some settlementEngine;
                              Bootstrap.assetCode := assetCode;
                              Bootstrap.assetScale := assetScale |}
              | Some _ =>
                  Thrown (InvalidEvent
                            "Invalid optional field: settlementEngine must be a string")
              end
          | _ => Thrown (InvalidEvent "Missing or invalid required field: assetScale")
          end end end end
    end.

(** [parseSpspInfo(event)] of [events/parsers.ts] *)
Definition parseSpspInfo (event : Event) : result InvalidEventError Correlator.SpspInfo :=
  if negb (kind event =? SPSP_INFO_KIND)
  then Thrown (InvalidEvent ("Expected event kind 10047, got " ++ pretty (kind event))%string)
  else
    match JSON_parse (content event) with
    | None => Thrown (InvalidEvent "Failed to parse event content as JSON")
    | Some parsed =>
        if negb (isObject parsed)
        then Thrown (InvalidEvent "Event content must be a JSON object")
        else
          match nonempty_string (get "destinationAccount" parsed) with
          | None =>
              Thrown (InvalidEvent "Missing or invalid required field: destinationAccount")
          | Some destinationAccount =>
          match nonempty_string (get "sharedSecret" parsed) with
          | None => Thrown (InvalidEvent "Missing or invalid required field: sharedSecret")
          | Some sharedSecret =>
              Returned {| Correlator.destinationAccount := destinationAccount;
                          Correlator.sharedSecret := sharedSecret |}
          end end
    end.

(** [buildIlpPeerInfoEvent(info, secretKey)] and
    [buildSpspInfoEvent(info, secretKey)] of [events/builders.ts]; [now] is
    [Math.floor(Date.now() / 1000)], and the three strings are what
    [finalizeEvent] derives from the key. *)
Definition buildIlpPeerInfoEvent (now : Z) (info : Bootstrap.IlpPeerInfo)
    (author eid sg : string) : Event :=
  finalizeEvent {| t_kind := ILP_PEER_INFO_KIND;
                   t_created_at := now; t_tags := [];
                   t_content := JSON_stringify (json_of_IlpPeerInfo info) |}
                author eid sg.

Definition buildSpspInfoEvent (now : Z) (info : Correlator.SpspInfo)
    (author eid sg : string) : Event :=
  finalizeEvent {| t_kind := SPSP_INFO_KIND;
                   t_created_at := now; t_tags := [];
                   t_content := JSON_stringify (json_of_SpspInfo info) |}
                author eid sg.

(** The filter of [getSpspInfo]. *)
Definition spsp_info_of (pk : string) : Filter :=
  {| kinds := Some [SPSP_INFO_KIND]; authors := Some [pk];
     tag_p := None; tag_e := None |}.

(** [NostrSpspClient.getSpspInfo(pubkey)] of the core package; [None] is
    [null]. A failed query of the relays is thrown again as an [SpspError];
    the parser throws nothing but an [InvalidEventError], which the last
    [catch] turns into [null]. *)
Definition getSpspInfo (pool : CoreDiscovery.Pool) (pk : string)
  : result JsError (option Correlator.SpspInfo) :=
  if negb (PUBKEY_REGEX_test pk)
  then Thrown (SpspError "Invalid pubkey format: must be 64-character lowercase hex string")
  else
    match pool (spsp_info_of pk) with
    | Thrown _ => Thrown (SpspError "Failed to query relays for SPSP info")
    | Returned events =>
        match most_recent events with
        | None => Returned None
        | Some mostRecent =>
            match parseSpspInfo mostRecent with
            | Returned info => Returned (Some info)
            | Thrown (InvalidEvent _) => Returned None
            end
        end
    end.

End Json.

(** A parser with the interface the discovery and bootstrap classes are
    stated for: [None] for a thrown error. *)
Definition returned {E A : Type} (r : result E A) : option A :=
  match r with
  | Returned a => Some a
  | Thrown _ => None
  end.

End CoreEvents.

(** ** Sample data for the JSON content *)

Module CoreSamples.

Import CoreEvents.

Definition info_alice : Bootstrap.IlpPeerInfo :=
  {| Bootstrap.ilpAddress := "g.alice"; Bootstrap.btpEndpoint := "wss://alice.example/btp";
     Bootstrap.settlementEngine := None;
     Bootstrap.assetCode := "USD"; Bootstrap.assetScale := 6 |}.

Definition spsp_alice : Correlator.SpspInfo :=
  {| Correlator.destinationAccount := "g.alice.receiver";
     Correlator.sharedSecret := "c2VjcmV0" |}.

(** A serialisation that knows two texts. *)
Definition stringify (v : Json) : string :=
  match v with
  | JObject (("ilpAddress", _) :: _) => "peer"
  | JObject (("destinationAccount", _) :: _) => "spsp"
  | _ => "null"
  end.

Definition parse (s : string) : option Json :=
  if String.eqb s "peer" then Some (json_of_IlpPeerInfo info_alice)
  else if String.eqb s "spsp" then Some (json_of_SpspInfo spsp_alice)
  else if String.eqb s "null" then Some JNull
  else if String.eqb s "[]" then Some (JArray [])
  else None.

(** A static record of [author] with the given content. *)
Definition spsp_record (author : string) (ts : Z) (text : string) : Event :=
  {| event_id := (author ++ "-" ++ pretty ts)%string; pubkey := author;
     kind := SPSP_INFO_KIND; created_at := ts; tags := []; content := text;
     event_sig := "" |}.

End CoreSamples.

(** * Properties *)

(** ** The credit arithmetic *)

Module TrustFacts.

Import Events Resolver Trust.

Lemma cappedBonus_min (cfg : TrustConfig) (m : nat) :
  cappedBonus cfg m = Z.min (Z.of_nat m * mutualFollowerBonus cfg) (maxMutualBonus cfg).
Proof.
  unfold cappedBonus; cbv zeta.
  destruct (Z.gtb_spec (Z.of_nat m * mutualFollowerBonus cfg) (maxMutualBonus cfg)); lia.
Qed.

Lemma computeCreditLimit_min (cfg : TrustConfig) (isF fu : bool) (m : nat) :
  computeCreditLimit cfg isF fu m =
  Z.min ((if isF then baseCreditForFollowed cfg else baseCreditForUnfollowed cfg)
         + cappedBonus cfg m
         + (if fu && isF then Z.quot (baseCreditForFollowed cfg) 2 else 0))
        (maxCreditLimit cfg).
Proof.
  unfold computeCreditLimit; cbv zeta.
  destruct (fu && isF); rewrite ?Z.add_0_r;
    match goal with |- context [?a >? ?b] => destruct (Z.gtb_spec a b) end; lia.
Qed.

Lemma Number_of_small (q : Z) : Z.abs q < 2 ^ 53 -> Number_of_BigInt q = Finite q.
Proof.
  intros Hq. unfold Number_of_BigInt; cbv zeta.
  destruct (Z.ltb_spec (Z.abs q) (2 ^ 53)); [reflexivity | lia].
Qed.

(** The score of a credit between zero and a positive maximum is the floor of
    the percentage, and lies between 0 and 100. *)
Lemma computeScore_floor (cfg : TrustConfig) (c : Z) :
  0 < maxCreditLimit cfg -> 0 <= c <= maxCreditLimit cfg ->
  computeScore cfg c = Returned (Finite (c * 100 / maxCreditLimit cfg))
  /\ 0 <= c * 100 / maxCreditLimit cfg <= 100.
Proof.
  intros Hmax Hc.
  assert (Hq : 0 <= c * 100 / maxCreditLimit cfg <= 100).
  { split.
    - apply Z.div_pos; lia.
    - apply Z.div_le_upper_bound; lia. }
  split; [| exact Hq].
  unfold computeScore, bigint_div.
  destruct (Z.eqb_spec (maxCreditLimit cfg) 0) as [E | _]; [lia |].
  rewrite Z.quot_div_nonneg by lia.
  rewrite Number_of_small; [reflexivity |].
  rewrite Z.abs_eq by lia.
  assert (100 < 2 ^ 53) by reflexivity. lia.
Qed.




End TrustFacts.

(** ** The caches *)

Module CacheFacts.

Import Events Resolver.

Lemma getFollows_keeps (st : Trust.Manager) (store : list Event) (pk k : string)
    (v : gset (option string)) :
  Trust.followGraphCache st !! k = Some v ->
  Trust.followGraphCache (fst (Trust.getFollows st store pk)) !! k = Some v.
Proof.
  intros Hk. unfold Trust.getFollows.
  destruct (Trust.followGraphCache st !! pk) eqn:Hpk; [exact Hk |].
  assert (pk <> k) by congruence.
  destruct (reduce_latest _); cbn; rewrite lookup_insert_ne; auto.
Qed.

Lemma getFollows_hit (st : Trust.Manager) (store : list Event) (k : string)
    (v : gset (option string)) :
  Trust.followGraphCache st !! k = Some v -> Trust.getFollows st store k = (st, v).
Proof. intros Hk. unfold Trust.getFollows. rewrite Hk. reflexivity. Qed.

Lemma loadMyFollows_keeps (st : Trust.Manager) (store : list Event) (k : string)
    (v : gset (option string)) :
  Trust.followGraphCache st !! k = Some v ->
  Trust.followGraphCache (Trust.loadMyFollows st store) !! k = Some v.
Proof.
  intros Hk. unfold Trust.loadMyFollows.
  pose proof (getFollows_keeps st store (Trust.myPubkey st) k v Hk) as H.
  destruct (Trust.getFollows st store (Trust.myPubkey st)) as [st1 f]. exact H.
Qed.

Lemma computeTrust_keeps (st : Trust.Manager) (store : list Event) (peer k : string)
    (v : gset (option string)) :
  Trust.followGraphCache st !! k = Some v ->
  Trust.followGraphCache (fst (Trust.computeTrust st store peer)) !! k = Some v.
Proof.
  intros Hk. unfold Trust.computeTrust.
  set (st1 := if (size (Trust.myFollows st) =? 0)%nat
              then Trust.loadMyFollows st store else st).
  assert (H1 : Trust.followGraphCache st1 !! k = Some v).
  { subst st1. destruct (size (Trust.myFollows st) =? 0)%nat; [| exact Hk].
    apply loadMyFollows_keeps, Hk. }
  pose proof (getFollows_keeps st1 store peer k v H1) as H2.
  destruct (Trust.getFollows st1 store peer) as [st2 pf]. cbn [fst] in H2.
  destruct (Trust.computeScore _ _); exact H2.
Qed.

Lemma call_keeps (st : Trust.Manager) (c : Trust.Call) (k : string)
    (v : gset (option string)) :
  Trust.is_clear c = false ->
  Trust.followGraphCache st !! k = Some v ->
  Trust.followGraphCache (Trust.call st c) !! k = Some v.
Proof.
  destruct c as [store | store peer | pk isF |]; cbn; intros Hc Hk.
  - unfold Trust.initialize, Trust.loadMyFollowers. cbn.
    apply loadMyFollows_keeps, Hk.
  - apply computeTrust_keeps, Hk.
  - exact Hk.
  - discriminate.
Qed.

Lemma calls_keep (cs : list Trust.Call) : forall (st : Trust.Manager) (k : string)
    (v : gset (option string)),
  forallb (fun c => negb (Trust.is_clear c)) cs = true ->
  Trust.followGraphCache st !! k = Some v ->
  Trust.followGraphCache (Trust.calls st cs) !! k = Some v.
Proof.
  induction cs as [| c cs IH]; intros st k v Hcs Hk; [exact Hk |].
  cbn in Hcs. apply andb_true_iff in Hcs as [Hc Hcs].
  apply negb_true_iff in Hc.
  unfold Trust.calls. cbn [fold_left]. apply IH; [exact Hcs |].
  apply call_keeps; assumption.
Qed.

Lemma static_call_keeps (m : gmap string SpspInfo) (c : StaticSpsp.Call) (k : string)
    (v : SpspInfo) :
  StaticSpsp.is_clear c = false ->
  m !! k = Some v -> StaticSpsp.call m c !! k = Some v.
Proof.
  destruct c as [store r | r | |]; cbn; intros Hc Hk; try exact Hk; try discriminate.
  unfold StaticSpsp.getStaticSpspParams.
  destruct (m !! r) eqn:Hr; [exact Hk |].
  assert (r <> k) by congruence.
  destruct (reduce_latest _) as [latest |]; [| exact Hk].
  destruct (parseSpspInfo latest); [| exact Hk].
  cbn. rewrite lookup_insert_ne; auto.
Qed.

Lemma static_calls_keep (cs : list StaticSpsp.Call) : forall (m : gmap string SpspInfo)
    (k : string) (v : SpspInfo),
  forallb (fun c => negb (StaticSpsp.is_clear c)) cs = true ->
  m !! k = Some v -> StaticSpsp.calls m cs !! k = Some v.
Proof.
  induction cs as [| c cs IH]; intros m k v Hcs Hk; [exact Hk |].
  cbn in Hcs. apply andb_true_iff in Hcs as [Hc Hcs].
  apply negb_true_iff in Hc.
  unfold StaticSpsp.calls. cbn [fold_left]. apply IH; [exact Hcs |].
  apply static_call_keeps; assumption.
Qed.


(** *** Scores are stable between invalidations *)

Lemma getFollows_post (st st' : Trust.Manager) (store : list Event) (pk : string)
    (f : gset (option string)) :
  Trust.getFollows st store pk = (st', f) ->
  Trust.followGraphCache st' !! pk = Some f
  /\ Trust.view st' = Trust.view st
  /\ (forall k v, Trust.followGraphCache st !! k = Some v ->
                  Trust.followGraphCache st' !! k = Some v).
Proof.
  intros Hg.
  assert (Hkeep : forall k v, Trust.followGraphCache st !! k = Some v ->
                              Trust.followGraphCache st' !! k = Some v).
  { intros k v Hk. pose proof (getFollows_keeps st store pk k v Hk) as H.
    rewrite Hg in H. exact H. }
  revert Hg. unfold Trust.getFollows.
  destruct (Trust.followGraphCache st !! pk) as [cached |] eqn:Hpk.
  - intros [= <- <-]. auto.
  - destruct (reduce_latest _); intros [= <- <-]; cbn; rewrite lookup_insert_eq; auto.
Qed.

(** Before the flags are read, a loaded manager is left as it is. *)
Lemma ensure_loaded (st : Trust.Manager) (store : list Event) :
  Trust.loaded st ->
  let st1 := if (size (Trust.myFollows st) =? 0)%nat
             then Trust.loadMyFollows st store else st in
  Trust.view st1 = Trust.view st
  /\ Trust.followGraphCache st1 = Trust.followGraphCache st.
Proof.
  intros Hl. cbv zeta.
  destruct (Nat.eqb_spec (size (Trust.myFollows st)) 0) as [H0 | _]; [| auto].
  unfold Trust.loadMyFollows. rewrite (getFollows_hit _ _ _ _ (Hl H0)). auto.
Qed.

(** After the flags are read, the manager is loaded. *)
Lemma ensure_loaded_post (st : Trust.Manager) (store : list Event) :
  Trust.loaded (if (size (Trust.myFollows st) =? 0)%nat
                then Trust.loadMyFollows st store else st).
Proof.
  destruct (Nat.eqb_spec (size (Trust.myFollows st)) 0) as [H0 | Hn].
  - unfold Trust.loadMyFollows.
    destruct (Trust.getFollows st store (Trust.myPubkey st)) as [sx f] eqn:Hg.
    destruct (getFollows_post _ _ _ _ _ Hg) as (Hc & Hv & _).
    intros _. cbn. injection Hv as Hpk _ _ _. rewrite Hpk. exact Hc.
  - intros H. contradiction.
Qed.

Lemma getFollows_loaded (st st' : Trust.Manager) (store : list Event) (pk : string)
    (f : gset (option string)) :
  Trust.loaded st -> Trust.getFollows st store pk = (st', f) -> Trust.loaded st'.
Proof.
  intros Hl Hg. destruct (getFollows_post _ _ _ _ _ Hg) as (_ & Hv & Hkeep).
  injection Hv as Hpk _ Hf _. unfold Trust.loaded. rewrite Hpk, Hf.
  intros H0. apply Hkeep, Hl, H0.
Qed.

(** [computeTrust] in two halves: the state is the one [getFollows] leaves,
    the score is built from the view and the follow set it returns. *)
Lemma computeTrust_split (st : Trust.Manager) (store : list Event) (peer : string) :
  let st1 := if (size (Trust.myFollows st) =? 0)%nat
             then Trust.loadMyFollows st store else st in
  fst (Trust.computeTrust st store peer) = fst (Trust.getFollows st1 store peer)
  /\ snd (Trust.computeTrust st store peer)
     = Trust.scoreFrom (Trust.view st1) (snd (Trust.getFollows st1 store peer)) peer.
Proof.
  cbv zeta. unfold Trust.computeTrust.
  set (st1 := if (size (Trust.myFollows st) =? 0)%nat
              then Trust.loadMyFollows st store else st).
  destruct (Trust.getFollows st1 store peer) as [st2 pf] eqn:Hg.
  destruct (getFollows_post _ _ _ _ _ Hg) as (_ & Hv & _).
  injection Hv as _ Hcfg Hf _.
  unfold Trust.scoreFrom, Trust.view, Trust.countMutualFollowers. cbn [fst snd].
  rewrite Hcfg, Hf. destruct (Trust.computeScore _ _); split; reflexivity.
Qed.

(** On a loaded manager that has the peer's follow set in its cache, the
    score is computed from the view and that set alone. *)
Lemma computeTrust_from_cache (st : Trust.Manager) (store : list Event)
    (peer : string) (pf : gset (option string)) :
  Trust.loaded st ->
  Trust.followGraphCache st !! peer = Some pf ->
  snd (Trust.computeTrust st store peer) = Trust.scoreFrom (Trust.view st) pf peer.
Proof.
  intros Hl Hp. destruct (computeTrust_split st store peer) as [_ ->].
  destruct (ensure_loaded st store Hl) as [Hv1 Hc1].
  rewrite getFollows_hit with (v := pf) by (rewrite Hc1; exact Hp).
  rewrite Hv1. reflexivity.
Qed.

(** What [computeTrust] leaves behind. *)
Lemma computeTrust_post (st : Trust.Manager) (store : list Event) (peer : string) :
  let s1 := fst (Trust.computeTrust st store peer) in
  Trust.loaded s1
  /\ (Trust.loaded st -> Trust.view s1 = Trust.view st)
  /\ (exists pf, Trust.followGraphCache s1 !! peer = Some pf
                 /\ snd (Trust.computeTrust st store peer)
                    = Trust.scoreFrom (Trust.view s1) pf peer).
Proof.
  cbv zeta. destruct (computeTrust_split st store peer) as [-> ->].
  pose proof (ensure_loaded_post st store) as Hl1.
  pose proof (ensure_loaded st store) as Hpre. cbv zeta in Hpre.
  set (st1 := if (size (Trust.myFollows st) =? 0)%nat
              then Trust.loadMyFollows st store else st) in *.
  destruct (Trust.getFollows st1 store peer) as [st2 pf] eqn:Hg. cbn [fst snd].
  destruct (getFollows_post _ _ _ _ _ Hg) as (Hc & Hv & _).
  split; [exact (getFollows_loaded _ _ _ _ _ Hl1 Hg) |].
  split; [intros Hl; destruct (Hpre Hl) as [Hv1 _]; congruence |].
  exists pf. split; [exact Hc | rewrite Hv; reflexivity].
Qed.

(** Lookups keep a loaded manager loaded and leave its view alone. *)
Lemma lookups_keep_view (cs : list Trust.Call) : forall st : Trust.Manager,
  forallb Trust.is_lookup cs = true ->
  Trust.loaded st ->
  Trust.loaded (Trust.calls st cs) /\ Trust.view (Trust.calls st cs) = Trust.view st.
Proof.
  induction cs as [| c cs IH]; intros st Hcs Hl; [split; [exact Hl | reflexivity] |].
  cbn in Hcs. apply andb_true_iff in Hcs as [Hc Hcs].
  unfold Trust.calls. cbn [fold_left]. fold (Trust.calls (Trust.call st c) cs).
  destruct c as [store | store peer | pk isF |]; try discriminate Hc; cbn [Trust.call].
  - destruct (computeTrust_post st store peer) as (Hl1 & Hv1 & _).
    destruct (IH _ Hcs Hl1) as [Hl2 Hv2]. split; [exact Hl2 |].
    rewrite Hv2. apply Hv1, Hl.
  - apply IH; assumption.
Qed.

(** A score computed once is the score every later [computeTrust] for the
    same peer returns, whatever the relays hold by then, as long as only
    lookups are made in between. *)
Lemma computeTrust_stable (st : Trust.Manager) (store store' : list Event)
    (peer : string) (lookups : list Trust.Call) :
  forallb Trust.is_lookup lookups = true ->
  snd (Trust.computeTrust
         (Trust.calls (fst (Trust.computeTrust st store peer)) lookups) store' peer)
  = snd (Trust.computeTrust st store peer).
Proof.
  intros Hls.
  destruct (computeTrust_post st store peer) as (Hl1 & _ & pf & Hpf & ->).
  set (s1 := fst (Trust.computeTrust st store peer)) in *.
  destruct (lookups_keep_view lookups s1 Hls Hl1) as [Hl2 Hv2].
  assert (Hnc : forallb (fun c => negb (Trust.is_clear c)) lookups = true).
  { clear -Hls. induction lookups as [| c cs IH]; [reflexivity |].
    cbn in *. apply andb_true_iff in Hls as [Hc Hcs]. rewrite (IH Hcs), andb_true_r.
    destruct c; (reflexivity || discriminate Hc). }
  rewrite (computeTrust_from_cache _ store' peer pf Hl2 (calls_keep lookups s1 peer pf Hnc Hpf)).
  rewrite Hv2. reflexivity.
Qed.


End CacheFacts.

(** ** The correlated exchange *)

Module CorrelatorFacts.

Import Correlator.

Section Exchange.

Variable parseSpspResponse : Event -> option SpspResponse.
Variable reqId : string.
Variable recipientPubkey : string.
Variable timeout : Z.

Local Abbreviation deliver := (deliver parseSpspResponse reqId recipientPubkey timeout).
Local Abbreviation run := (run parseSpspResponse reqId recipientPubkey timeout).
Local Abbreviation decisive := (decisive parseSpspResponse reqId).
Local Abbreviation matching := (matching parseSpspResponse reqId).
Local Abbreviation outcome_of := (outcome_of parseSpspResponse reqId recipientPubkey timeout).
Local Abbreviation onevent := (onevent parseSpspResponse reqId).

(** A candidate that does not match leaves every variable as it was. *)
Lemma onevent_discards (t : Z) (st : Pending) (ev : Event) :
  matching ev = false -> onevent t st ev = st.
Proof.
  unfold Correlator.matching, Correlator.onevent. intros Hm.
  destruct (resolved st); [reflexivity |].
  destruct (parseSpspResponse ev) as [response |]; [| reflexivity].
  rewrite Hm. reflexivity.
Qed.

Lemma deliver_undecisive (st : Pending) (i : Input) :
  decisive i = false -> deliver st i = st.
Proof.
  destruct i as [t ev | t]; cbn; [apply onevent_discards | discriminate].
Qed.

Lemma run_undecisive (ins : list Input) : forall st : Pending,
  forallb (fun i => negb (decisive i)) ins = true -> run st ins = st.
Proof.
  induction ins as [| i ins IH]; intros st H; [reflexivity |].
  cbn in H. apply andb_true_iff in H as [Hi H]. apply negb_true_iff in Hi.
  unfold Correlator.run. cbn [fold_left].
  rewrite deliver_undecisive by exact Hi. apply IH, H.
Qed.

(** Once the flag is set and the timer is gone, nothing changes any more. *)
Lemma deliver_settled (st : Pending) (i : Input) :
  resolved st = true -> timerPending st = false -> deliver st i = st.
Proof.
  intros Hr Ht. destruct i as [t ev | t]; cbn.
  - unfold Correlator.onevent. rewrite Hr. reflexivity.
  - rewrite Ht. reflexivity.
Qed.

Lemma run_settled (ins : list Input) : forall st : Pending,
  resolved st = true -> timerPending st = false -> run st ins = st.
Proof.
  induction ins as [| i ins IH]; intros st Hr Ht; [reflexivity |].
  unfold Correlator.run. cbn [fold_left].
  rewrite deliver_settled by assumption. apply IH; assumption.
Qed.

(** The first decisive input settles a waiting promise. *)
Lemma deliver_decisive (d : Input) :
  decisive d = true ->
  exists o, outcome_of d = Some o
            /\ deliver start d
               = {| resolved := true; timerPending := false; subOpen := false;
                    settled := [o] |}.
Proof.
  destruct d as [t ev | t]; cbn.
  - unfold Correlator.matching, Correlator.onevent. cbn.
    destruct (parseSpspResponse ev) as [response |]; [| discriminate].
    intros ->. cbn. eexists. split; reflexivity.
  - intros _. eexists. split; reflexivity.
Qed.

End Exchange.


End CorrelatorFacts.

(** ** The older client's wait *)

Module LegacyWaitFacts.

Import LegacyWait.

Section Wait.

Variable Response : Type.
Variable decrypt_parse : Event -> string + Response.
Variable fromPubkey : string.
Variable requestId : string.

Local Abbreviation receive := (receive Response decrypt_parse fromPubkey requestId).
Local Abbreviation filter := (filter fromPubkey requestId).

Lemma receive_unmatched (st : Waiting Response) (ev : Event) :
  matchFilter filter ev = false -> receive st ev = st.
Proof. intros H. unfold LegacyWait.receive. rewrite H, andb_false_r. reflexivity. Qed.

Lemma receive_all_unmatched (evs : list Event) : forall st : Waiting Response,
  forallb (fun e => negb (matchFilter filter e)) evs = true ->
  fold_left receive evs st = st.
Proof.
  induction evs as [| e evs IH]; intros st H; [reflexivity |].
  cbn in H. apply andb_true_iff in H as [He H]. apply negb_true_iff in He.
  cbn [fold_left]. rewrite receive_unmatched by exact He. apply IH, H.
Qed.

Lemma receive_closed (evs : list Event) : forall st : Waiting Response,
  subOpen Response st = false -> fold_left receive evs st = st.
Proof.
  induction evs as [| e evs IH]; intros st H; [reflexivity |].
  cbn [fold_left]. unfold LegacyWait.receive at 2. rewrite H. cbn. apply IH, H.
Qed.

End Wait.

(** The candidates of C3, on both clients. For [requestSpspInfo]: responses
    that fail to parse or carry another request id leave the promise, the timer
    and the subscription untouched, however many they are, and a matching one
    arriving after them resolves the promise with its payload. For
    [waitForResponse]: events that do not pass the subscription's filter
    (author and ["e"] tag) are not seen at all; the first event that passes
    ends the wait whether it decrypts or not, resolving with the payload or
    rejecting with "Failed to decrypt SPSP response", the timer cleared and the
    subscription closed, and later events change nothing. *)
Theorem candidates_while_waiting
    (parseSpspResponse : Event -> option Correlator.SpspResponse)
    (reqId recipientPubkey : string) (timeout : Z)
    (noise : list Correlator.Input) (t : Z) (ev : Event)
    (Response : Type) (decrypt_parse : Event -> string + Response)
    (fromPubkey requestId : string)
    (unmatched later : list Event) (first : Event) :
  forallb (fun i => negb (Correlator.decisive parseSpspResponse reqId i)) noise = true ->
  Correlator.matching parseSpspResponse reqId ev = true ->
  forallb (fun e => negb (matchFilter (filter fromPubkey requestId) e)) unmatched = true ->
  matchFilter (filter fromPubkey requestId) first = true ->
  (Correlator.run parseSpspResponse reqId recipientPubkey timeout Correlator.start noise
   = Correlator.start
   /\ exists response,
       parseSpspResponse ev = Some response
       /\ Correlator.run parseSpspResponse reqId recipientPubkey timeout Correlator.start
            (noise ++ [Correlator.Incoming t ev])
          = {| Correlator.resolved := true; Correlator.timerPending := false;
               Correlator.subOpen := false;
               Correlator.settled :=
                 [(t, Correlator.Resolve
                        {| Correlator.destinationAccount :=
                             Correlator.r_destinationAccount response;
                           Correlator.sharedSecret :=
                             Correlator.r_sharedSecret response |})] |})
  /\ (fold_left (receive Response decrypt_parse fromPubkey requestId) unmatched
        (start Response) = start Response
      /\ fold_left (receive Response decrypt_parse fromPubkey requestId)
           (unmatched ++ first :: later) (start Response)
         = {| timerPending := false; subOpen := false;
              settled :=
                [match decrypt_parse first with
                 | inr response => Resolve response
                 | inl err => Reject (Error_ ("Failed to decrypt SPSP response: " ++ err)%string)
                 end] |}).
Proof.
  intros Hnoise Hev Hunmatched Hfirst. split; [split | split].
  - apply CorrelatorFacts.run_undecisive. exact Hnoise.
  - unfold Correlator.run. rewrite fold_left_app. cbn [fold_left].
    fold (Correlator.run parseSpspResponse reqId recipientPubkey timeout
            Correlator.start noise).
    rewrite CorrelatorFacts.run_undecisive by exact Hnoise.
    unfold Correlator.matching in Hev. cbn. unfold Correlator.onevent. cbn.
    destruct (parseSpspResponse ev) as [response |]; [| discriminate].
    exists response. rewrite Hev. split; reflexivity.
  - apply receive_all_unmatched. exact Hunmatched.
  - rewrite fold_left_app. cbn [fold_left].
    rewrite (receive_all_unmatched _ _ _ _ unmatched) by exact Hunmatched.
    unfold receive at 2. cbn [subOpen start]. rewrite Hfirst. cbn [andb].
    rewrite receive_closed by reflexivity. reflexivity.
Qed.

End LegacyWaitFacts.

(** ** Tag-based events *)

Module EventsFacts.

Import Events.

(** *** Printing and reading a scale *)

Lemma digit_of_pretty_char (d : N) :
  (d < 10)%N -> digit_of (pretty_N_char d) = Some (Z.of_N d).
Proof.
  intros Hd.
  assert (d = 0 \/ d = 1 \/ d = 2 \/ d = 3 \/ d = 4 \/ d = 5 \/ d = 6 \/ d = 7
          \/ d = 8 \/ d = 9)%N as H by lia.
  repeat (destruct H as [-> | H]; [reflexivity |]). subst d. reflexivity.
Qed.

(** Reading the digits printed for [x] appends them to what was read. *)
Lemma digits_prefix_pretty_go (x : N) :
  (0 < x)%N ->
  exists m : Z, forall (acc : option Z) (s : string),
    digits_prefix acc (pretty_N_go x s)
    = digits_prefix (Some (default 0 acc * m + Z.of_N x)) s.
Proof.
  induction (N.lt_wf_0 x) as [x _ IH]. intros Hx.
  assert (Hstep : forall acc s,
             digits_prefix acc (String (pretty_N_char (x `mod` 10)%N) s)
             = digits_prefix (Some (10 * default 0 acc + Z.of_N (x `mod` 10)%N)) s).
  { intros acc s. cbn [digits_prefix].
    rewrite digit_of_pretty_char by (apply N.mod_lt; discriminate). reflexivity. }
  destruct (N.eq_dec (x `div` 10)%N 0%N) as [Hz | Hnz].
  - exists 10. intros acc s. rewrite pretty_N_go_step by exact Hx.
    rewrite Hz, pretty_N_go_0, Hstep. do 2 f_equal.
    pose proof (N.div_mod x 10%N ltac:(discriminate)) as Hdm. rewrite Hz in Hdm.
    clear -Hdm. set (r := (x `mod` 10)%N) in *. clearbody r. lia.
  - destruct (IH (x `div` 10)%N) as [m Hm];
      [apply N.div_lt; [exact Hx | reflexivity] | apply N.neq_0_lt_0; exact Hnz |].
    exists (10 * m). intros acc s. rewrite pretty_N_go_step by exact Hx.
    rewrite Hm, Hstep. cbn [default]. do 2 f_equal.
    pose proof (N.div_mod x 10%N ltac:(discriminate)) as Hdm.
    clear -Hdm. set (q := (x `div` 10)%N) in *. set (r := (x `mod` 10)%N) in *.
    clearbody q r. unfold id. lia.
Qed.

(** What is printed for a positive number starts with a digit. *)
Lemma pretty_go_head (x : N) : forall s : string,
  (0 < x)%N -> exists d rest, (d < 10)%N /\ pretty_N_go x s = String (pretty_N_char d) rest.
Proof.
  induction (N.lt_wf_0 x) as [x _ IH]. intros s Hx.
  rewrite pretty_N_go_step by exact Hx.
  destruct (N.eq_dec (x `div` 10)%N 0%N) as [Hz | Hnz].
  - rewrite Hz, pretty_N_go_0. exists (x `mod` 10)%N, s.
    split; [apply N.mod_lt; discriminate | reflexivity].
  - apply IH; [apply N.div_lt; [exact Hx | reflexivity] | apply N.neq_0_lt_0; exact Hnz].
Qed.

Lemma parseInt10_digit_head (d : N) (rest : string) :
  (d < 10)%N ->
  parseInt10 (String (pretty_N_char d) rest)
  = digits_prefix None (String (pretty_N_char d) rest).
Proof.
  intros Hd.
  assert (d = 0 \/ d = 1 \/ d = 2 \/ d = 3 \/ d = 4 \/ d = 5 \/ d = 6 \/ d = 7
          \/ d = 8 \/ d = 9)%N as H by lia.
  repeat (destruct H as [-> | H]; [reflexivity |]). subst d. reflexivity.
Qed.

Lemma digits_prefix_pretty_pos (p : positive) :
  digits_prefix None (pretty (Npos p)) = Some (Zpos p).
Proof.
  unfold pretty, pretty_N. destruct (decide (Npos p = 0%N)) as [E | _]; [discriminate E |].
  destruct (digits_prefix_pretty_go (Npos p) ltac:(lia)) as [m Hm].
  rewrite Hm. cbn. reflexivity.
Qed.

Lemma parseInt10_minus (s : string) :
  parseInt10 (String "-" s) = Z.opp <$> digits_prefix None s.
Proof. reflexivity. Qed.

(** [parseInt(n.toString(), 10)] is [n]. *)
Lemma parseInt10_toString (n : Z) : parseInt10 (Number_toString n) = Some n.
Proof.
  unfold Number_toString, pretty, pretty_Z. destruct n as [| p | p].
  - reflexivity.
  - change (pretty p) with (pretty (Npos p)).
    pose proof (digits_prefix_pretty_pos p) as Hp.
    unfold pretty, pretty_N in *.
    destruct (decide (Npos p = 0%N)) as [E | _]; [discriminate E |].
    destruct (pretty_go_head (Npos p) "" ltac:(lia)) as (d & rest & Hd & Hhead).
    rewrite Hhead in *. rewrite parseInt10_digit_head by exact Hd. exact Hp.
  - change ("-" +:+ pretty p) with (String "-" (pretty (Npos p))).
    rewrite parseInt10_minus, digits_prefix_pretty_pos. reflexivity.
Qed.

Lemma parseInt10_or_0_toString (n : Z) :
  Z.abs n < 2 ^ 53 -> parseInt10_or_0 (Some (Number_toString n)) = Finite n.
Proof.
  intros Hn.
  change (parseInt10_or_0 (Some (Number_toString n)))
    with (match parseInt10 (Number_toString n) with
          | Some k => Number_of_BigInt k
          | None => Finite 0
          end).
  rewrite parseInt10_toString.
  unfold Number_of_BigInt; cbv zeta.
  destruct (Z.ltb_spec (Z.abs n) (2 ^ 53)); [reflexivity | lia].
Qed.

(** *** The tags of a peer advertisement *)

Lemma filter_map_all {A : Type} (f : A -> list string) (name : string) (l : list A) :
  (forall a, at_is (f a) 0 name = true) ->
  List.filter (fun t => at_is t 0 name) (List.map f l) = List.map f l.
Proof.
  intros H. induction l as [| a l IH]; [reflexivity |].
  cbn [List.map List.filter]. rewrite H, IH. reflexivity.
Qed.

Lemma filter_map_none {A : Type} (f : A -> list string) (name : string) (l : list A) :
  (forall a, at_is (f a) 0 name = false) ->
  List.filter (fun t => at_is t 0 name) (List.map f l) = [].
Proof.
  intros H. induction l as [| a l IH]; [reflexivity |].
  cbn [List.map List.filter]. rewrite H, IH. reflexivity.
Qed.

Lemma buildIlpPeerInfoEvent_tags (now : Z) (params : IlpPeerInfoParams) :
  t_tags (buildIlpPeerInfoEvent now params)
  = [ ["ilp"; pp_ilpAddress params]; ["btp"; pp_btpEndpoint params] ]
    ++ List.map (fun a => ["asset"; a_code a; Number_toString (a_scale a)])
                (default [] (pp_assets params))
    ++ List.map (fun s => "settlement" :: sp_type s :: sp_details s)
                (default [] (pp_settlement params))
    ++ List.map (fun r => ["relay"; r]) (default [] (pp_relays params)).
Proof.
  unfold buildIlpPeerInfoEvent.
  destruct (pp_assets params), (pp_settlement params), (pp_relays params);
    cbn [t_tags default from_option id List.map];
    rewrite ?app_nil_r, <- ?app_assoc; reflexivity.
Qed.

Lemma find_cons_true {A : Type} (p : A -> bool) (x : A) (l : list A) :
  p x = true -> List.find p (x :: l) = Some x.
Proof. intros H. cbn. rewrite H. reflexivity. Qed.

Lemma find_cons_false {A : Type} (p : A -> bool) (x : A) (l : list A) :
  p x = false -> List.find p (x :: l) = List.find p l.
Proof. intros H. cbn. rewrite H. reflexivity. Qed.

Lemma filter_cons_false {A : Type} (p : A -> bool) (x : A) (l : list A) :
  p x = false -> List.filter p (x :: l) = List.filter p l.
Proof. intros H. cbn. rewrite H. reflexivity. Qed.

(** Parsing what [buildIlpPeerInfoEvent] built. *)
Lemma roundtrip_peer_info (now : Z) (author eid sg : string) (params : IlpPeerInfoParams) :
  Forall (fun a => Z.abs (a_scale a) < 2 ^ 53) (default [] (pp_assets params)) ->
  parseIlpPeerInfo (finalizeEvent (buildIlpPeerInfoEvent now params) author eid sg)
  = Some {| pi_pubkey := author;
            ilpAddress := Some (pp_ilpAddress params);
            btpEndpoint := Some (pp_btpEndpoint params);
            assets := List.map (fun a => {| code := Some (a_code a);
                                            scale := Finite (a_scale a) |})
                               (default [] (pp_assets params));
            settlement := List.map (fun s => {| s_type := Some (sp_type s);
                                                details := sp_details s |})
                                   (default [] (pp_settlement params));
            relays := List.map Some (default [] (pp_relays params));
            pi_createdAt := now |}.
Proof.
  intros Hsafe. unfold parseIlpPeerInfo, find_tag, filter_tags.
  cbn [finalizeEvent kind tags pubkey created_at].
  rewrite buildIlpPeerInfoEvent_tags.
  change (t_kind (buildIlpPeerInfoEvent now params)) with ILP_PEER_INFO_KIND.
  change (t_created_at (buildIlpPeerInfoEvent now params)) with now.
  rewrite Z.eqb_refl. cbn [negb app].
  set (A := default [] (pp_assets params)) in *.
  set (S := default [] (pp_settlement params)).
  set (R := default [] (pp_relays params)).
  rewrite (find_cons_true (fun t => at_is t 0 "ilp")) by reflexivity.
  rewrite (find_cons_false (fun t => at_is t 0 "btp")) by reflexivity.
  rewrite (find_cons_true (fun t => at_is t 0 "btp")) by reflexivity.
  rewrite !filter_cons_false by reflexivity.
  rewrite !List.filter_app.
  rewrite (filter_map_all _ "asset" A), (filter_map_none _ "asset" S),
    (filter_map_none _ "asset" R) by reflexivity.
  rewrite (filter_map_none _ "settlement" A), (filter_map_all _ "settlement" S),
    (filter_map_none _ "settlement" R) by reflexivity.
  rewrite (filter_map_none _ "relay" A), (filter_map_none _ "relay" S),
    (filter_map_all _ "relay" R) by reflexivity.
  rewrite !app_nil_r. cbn [app]. rewrite !List.map_map.
  f_equal. f_equal.
  induction Hsafe as [| a l Ha _ IH]; [reflexivity |].
  cbn [List.map]. rewrite IH. f_equal. f_equal.
  apply parseInt10_or_0_toString, Ha.
Qed.



End EventsFacts.

(** ** Latest-record resolution *)

Module ResolverFacts.

Import Resolver.

Lemma newer_or_right_cases (a b : Event) :
  (newer_or_right a b = a /\ created_at b < created_at a)
  \/ (newer_or_right a b = b /\ created_at a <= created_at b).
Proof.
  unfold newer_or_right. destruct (Z.gtb_spec (created_at a) (created_at b)); [left | right];
    split; (reflexivity || lia).
Qed.

(** The reduction keeps the last of the records with the greatest time
    stamp. *)
Lemma fold_newer_last_max (rest : list Event) : forall e0 : Event,
  exists l1 l2,
    e0 :: rest = l1 ++ fold_left newer_or_right rest e0 :: l2
    /\ (forall x, In x l1 -> created_at x <= created_at (fold_left newer_or_right rest e0))
    /\ (forall x, In x l2 -> created_at x < created_at (fold_left newer_or_right rest e0)).
Proof.
  induction rest as [| b rest IH] using rev_ind; intros e0.
  - exists [], []. cbn. repeat split; intros x [].
  - rewrite fold_left_app. cbn [fold_left].
    destruct (IH e0) as (l1 & l2 & E & H1 & H2).
    set (acc := fold_left newer_or_right rest e0) in *.
    destruct (newer_or_right_cases acc b) as [[-> Hlt] | [-> Hle]].
    + exists l1, (l2 ++ [b]). repeat split.
      * rewrite app_comm_cons, E, <- app_assoc. reflexivity.
      * exact H1.
      * intros x Hx. apply in_app_or in Hx as [Hx | [<- | []]]; [apply H2, Hx | exact Hlt].
    + exists (e0 :: rest), []. repeat split.
      * intros x Hx. rewrite E in Hx.
        apply in_app_or in Hx as [Hx | [<- | Hx]].
        -- specialize (H1 x Hx). lia.
        -- exact Hle.
        -- specialize (H2 x Hx). lia.
      * intros x [].
Qed.

Lemma reduce_latest_last_max (l : list Event) (r : Event) :
  reduce_latest l = Some r ->
  exists l1 l2,
    l = l1 ++ r :: l2
    /\ (forall x, In x l1 -> created_at x <= created_at r)
    /\ (forall x, In x l2 -> created_at x < created_at r).
Proof.
  destruct l as [| e0 rest]; cbn; [discriminate |].
  intros [= <-]. apply fold_newer_last_max.
Qed.

Lemma reduce_latest_max (l : list Event) (r : Event) :
  reduce_latest l = Some r ->
  In r l /\ forall x, In x l -> created_at x <= created_at r.
Proof.
  intros H. destruct (reduce_latest_last_max l r H) as (l1 & l2 & -> & H1 & H2).
  split; [apply in_elt |].
  intros x Hx. apply in_app_or in Hx as [Hx | [<- | Hx]].
  - apply H1, Hx.
  - lia.
  - specialize (H2 x Hx). lia.
Qed.

Lemma reduce_latest_some (l : list Event) : l <> [] -> exists r, reduce_latest l = Some r.
Proof. destruct l; [congruence | intros _; eexists; reflexivity]. Qed.

(** The head of the stable descending sort, computed from the right. *)
Lemma head_insert_desc (e : Event) (l : list Event) :
  head (insert_desc e l)
  = Some match head l with
         | Some h => if created_at e >=? created_at h then e else h
         | None => e
         end.
Proof.
  destruct l as [| h l]; cbn; [reflexivity |].
  destruct (created_at e >=? created_at h); reflexivity.
Qed.

Lemma most_recent_max (l : list Event) (r : Event) :
  most_recent l = Some r ->
  In r l /\ forall x, In x l -> created_at x <= created_at r.
Proof.
  unfold most_recent. revert r.
  induction l as [| e l IH]; intros r; cbn [sort_desc fold_right]; [discriminate |].
  fold (sort_desc l). rewrite head_insert_desc.
  destruct (head (sort_desc l)) as [h |] eqn:Hh.
  - destruct (IH h eq_refl) as [Hin Hmax].
    destruct (Z.geb_spec (created_at e) (created_at h)); intros [= <-].
    + split; [left; reflexivity |]. intros x [<- | Hx]; [lia |]. specialize (Hmax x Hx). lia.
    + split; [right; exact Hin |]. intros x [<- | Hx]; [lia | apply Hmax, Hx].
  - intros [= <-]. split; [left; reflexivity |].
    assert (sort_desc l = []) as Hnil by (destruct (sort_desc l); [reflexivity | discriminate]).
    destruct l as [| y l]; [intros x [<- | []]; lia |].
    cbn in Hnil. fold (sort_desc l) in Hnil.
    destruct (sort_desc l); cbn in Hnil; [discriminate |].
    destruct (created_at y >=? created_at e0); discriminate.
Qed.

Lemma most_recent_some (l : list Event) : l <> [] -> exists r, most_recent l = Some r.
Proof.
  destruct l as [| e l]; [congruence | intros _].
  unfold most_recent. cbn [sort_desc fold_right]. rewrite head_insert_desc. eexists; reflexivity.
Qed.

(** The grouping loop keeps, for each author, a record of that author with
    the greatest time stamp among the author's records. *)
Lemma group_latest_spec (l : list Event) (a : string) :
  match group_latest l !! a with
  | Some x =>
      In x l /\ pubkey x = a
      /\ forall y, In y l -> pubkey y = a -> created_at y <= created_at x
  | None => forall y, In y l -> pubkey y <> a
  end.
Proof.
  induction l as [| e l IH] using rev_ind.
  - cbn. rewrite lookup_empty. intros y [].
  - unfold group_latest in *. rewrite fold_left_app. cbn [fold_left].
    set (m := fold_left group_step l ∅) in *.
    unfold group_step.
    destruct (decide (pubkey e = a)) as [Ha | Ha].
    + rewrite Ha. destruct (m !! a) as [x |] eqn:Hx.
      * destruct IH as (Hin & Hpk & Hmax).
        destruct (Z.gtb_spec (created_at e) (created_at x)).
        -- rewrite lookup_insert_eq. split; [apply in_or_app; right; left; reflexivity |].
           split; [exact Ha |]. intros y Hy Hya.
           apply in_app_or in Hy as [Hy | [<- | []]]; [| lia].
           specialize (Hmax y Hy Hya). lia.
        -- rewrite Hx. split; [apply in_or_app; left; exact Hin |].
           split; [exact Hpk |]. intros y Hy Hya.
           apply in_app_or in Hy as [Hy | [<- | []]]; [apply Hmax; assumption | lia].
      * rewrite lookup_insert_eq. split; [apply in_or_app; right; left; reflexivity |].
        split; [exact Ha |]. intros y Hy Hya.
        apply in_app_or in Hy as [Hy | [<- | []]]; [| lia].
        exfalso. exact (IH y Hy Hya).
    + assert (Hsame : match m !! pubkey e with
                      | Some existing =>
                          if created_at e >? created_at existing
                          then <[pubkey e := e]> m else m
                      | None => <[pubkey e := e]> m
                      end !! a = m !! a).
      { destruct (m !! pubkey e) as [x |];
          [destruct (created_at e >? created_at x) |];
          rewrite ?lookup_insert_ne by exact Ha; reflexivity. }
      rewrite Hsame. destruct (m !! a) as [x |].
      * destruct IH as (Hin & Hpk & Hmax).
        split; [apply in_or_app; left; exact Hin |]. split; [exact Hpk |].
        intros y Hy Hya. apply in_app_or in Hy as [Hy | [<- | []]];
          [apply Hmax; assumption | contradiction].
      * intros y Hy. apply in_app_or in Hy as [Hy | [<- | []]]; [apply IH, Hy | exact Ha].
Qed.

(** C4. The reduction returns a record of the list whose time stamp is the
    greatest, the last such record in the order of presentation. When that
    record is the only one with the greatest time stamp, every presentation of
    the same records (any permutation, the reverse order in particular) yields
    it, and so do the sort-based selection and the grouping loop. *)
Theorem latest_is_maximal_and_stable_when_unique (l l' : list Event) (r : Event) :
  reduce_latest l = Some r ->
  Permutation l l' ->
  (In r l /\ forall x, In x l -> created_at x <= created_at r)
  /\ (exists l1 l2, l = l1 ++ r :: l2 /\ forall x, In x l2 -> created_at x < created_at r)
  /\ ((forall x, In x l -> created_at x = created_at r -> x = r) ->
      reduce_latest l' = Some r
      /\ reduce_latest (rev l) = Some r
      /\ most_recent l' = Some r
      /\ group_latest l' !! pubkey r = Some r).
Proof.
  intros Hr Hperm.
  destruct (reduce_latest_max l r Hr) as [Hin Hmax].
  split; [split; assumption |]. split.
  { destruct (reduce_latest_last_max l r Hr) as (l1 & l2 & E & _ & H2). eauto. }
  intros Huniq.
  assert (Hdet : forall l'' x, Permutation l l'' -> In x l'' ->
                   (forall y, In y l'' -> pubkey y = pubkey x ->
                              created_at y <= created_at x) ->
                   pubkey x = pubkey r -> x = r).
  { intros l'' x Hp Hx Hxmax Hpk.
    assert (In x l) by (eapply Permutation_in; [symmetry; exact Hp | exact Hx]).
    assert (In r l'') by (eapply Permutation_in; [exact Hp | exact Hin]).
    apply Huniq; [assumption |].
    specialize (Hmax x ltac:(assumption)).
    specialize (Hxmax r ltac:(assumption) ltac:(congruence)). lia. }
  assert (Hdet' : forall l'' x, Permutation l l'' -> In x l'' ->
                   (forall y, In y l'' -> created_at y <= created_at x) -> x = r).
  { intros l'' x Hp Hx Hxmax.
    assert (In x l) by (eapply Permutation_in; [symmetry; exact Hp | exact Hx]).
    assert (In r l'') by (eapply Permutation_in; [exact Hp | exact Hin]).
    apply Huniq; [assumption |].
    specialize (Hmax x ltac:(assumption)). specialize (Hxmax r ltac:(assumption)). lia. }
  assert (Hne : forall l'', Permutation l l'' -> l'' <> []).
  { intros l'' Hp ->. apply Permutation_sym, Permutation_nil in Hp. subst l. destruct Hin. }
  repeat split.
  - destruct (reduce_latest_some l' (Hne _ Hperm)) as [x Hx]. rewrite Hx. f_equal.
    destruct (reduce_latest_max l' x Hx) as [Hxin Hxmax].
    exact (Hdet' l' x Hperm Hxin Hxmax).
  - destruct (reduce_latest_some (rev l) (Hne _ (Permutation_rev l))) as [x Hx].
    rewrite Hx. f_equal.
    destruct (reduce_latest_max (rev l) x Hx) as [Hxin Hxmax].
    exact (Hdet' (rev l) x (Permutation_rev l) Hxin Hxmax).
  - destruct (most_recent_some l' (Hne _ Hperm)) as [x Hx]. rewrite Hx. f_equal.
    destruct (most_recent_max l' x Hx) as [Hxin Hxmax].
    exact (Hdet' l' x Hperm Hxin Hxmax).
  - pose proof (group_latest_spec l' (pubkey r)) as Hg.
    destruct (group_latest l' !! pubkey r) as [x |].
    + destruct Hg as (Hx & Hpk & Hxmax). f_equal.
      apply (Hdet l' x Hperm Hx); [| exact Hpk].
      intros y Hy Hyx. apply Hxmax; [exact Hy | congruence].
    + exfalso. apply (Hg r); [eapply Permutation_in; eauto | reflexivity].
Qed.

End ResolverFacts.

(** ** Live updates and discovery *)

Module DiscoveryFacts.

Import Resolver.

Section Core.

Variable IlpPeerInfo : Type.
Variable parseIlpPeerInfo : Event -> option IlpPeerInfo.

Local Abbreviation onevent := (CoreDiscovery.onevent IlpPeerInfo parseIlpPeerInfo).
Local Abbreviation feed := (CoreDiscovery.feed IlpPeerInfo parseIlpPeerInfo).
Local Abbreviation deliveries := (CoreDiscovery.deliveries IlpPeerInfo parseIlpPeerInfo).

Lemma onevent_keeps_flag (sub : CoreDiscovery.Subscription) (e : Event) :
  CoreDiscovery.isUnsubscribed (fst (onevent sub e)) = CoreDiscovery.isUnsubscribed sub.
Proof.
  unfold CoreDiscovery.onevent.
  destruct (CoreDiscovery.isUnsubscribed sub) eqn:Hu; [cbn; exact Hu |].
  destruct (created_at e <=? _); [cbn; exact Hu |].
  destruct (parseIlpPeerInfo e); reflexivity.
Qed.

(** One subscription refines the live filter of the specification, its
    [peerTimestamps] being the last-seen state. *)
Lemma feed_refines_filter (stream : list Event) : forall sub : CoreDiscovery.Subscription,
  CoreDiscovery.isUnsubscribed sub = false ->
  snd (feed sub stream)
  = omap (fun e => pair (pubkey e) <$> parseIlpPeerInfo e)
         (spec_live_filter (CoreDiscovery.peerTimestamps sub) stream).
Proof.
  induction stream as [| e rest IH]; intros sub Hu; [reflexivity |].
  cbn [CoreDiscovery.feed spec_live_filter].
  pose proof (onevent_keeps_flag sub e) as Hflag.
  unfold CoreDiscovery.onevent in *. rewrite Hu in *. unfold isNewer.
  set (lastSeen := default 0 (CoreDiscovery.peerTimestamps sub !! pubkey e)) in *.
  destruct (Z.leb_spec (created_at e) lastSeen) as [Hle | Hgt].
  - destruct (Z.gtb_spec (created_at e) lastSeen); [lia |].
    specialize (IH sub Hu). destruct (feed sub rest) as [sub2 cs]. exact IH.
  - destruct (Z.gtb_spec (created_at e) lastSeen); [| lia].
    cbn [omap list_omap].
    destruct (parseIlpPeerInfo e) as [i |]; cbn [fst] in Hflag;
      match goal with
      | |- context [feed ?s rest] =>
          specialize (IH s Hflag); destruct (feed s rest) as [sub2 cs]
      end; cbn in *; rewrite IH; reflexivity.
Qed.

(** What reaches one subscription, and what it reports, depends on its own
    stream only. *)
Lemma deliveries_project (ds : list (nat * Event)) :
  forall (subs : list CoreDiscovery.Subscription) (i : nat) (sub : CoreDiscovery.Subscription),
    subs !! i = Some sub ->
    fst (deliveries subs ds) !! i = Some (fst (feed sub (CoreDiscovery.stream_of i ds)))
    /\ CoreDiscovery.stream_of i (snd (deliveries subs ds))
       = snd (feed sub (CoreDiscovery.stream_of i ds)).
Proof.
  induction ds as [| [j e] rest IH]; intros subs i sub Hi; [split; [exact Hi | reflexivity] |].
  cbn [CoreDiscovery.deliveries].
  unfold CoreDiscovery.stream_of at 1 3. cbn [omap list_omap fst snd].
  fold (CoreDiscovery.stream_of i rest).
  destruct (subs !! j) as [subj |] eqn:Hj.
  - destruct (onevent subj e) as [sub1 c] eqn:Hev.
    destruct (Nat.eqb_spec j i) as [-> | Hji].
    + assert (subj = sub) by congruence. subst subj.
      assert (Hi1 : <[i := sub1]> subs !! i = Some sub1).
      { apply list_lookup_insert_eq. apply lookup_lt_is_Some. eauto. }
      specialize (IH _ i sub1 Hi1).
      destruct (deliveries (<[i := sub1]> subs) rest) as [subs2 cs].
      cbn [CoreDiscovery.feed]. rewrite Hev.
      destruct (feed sub1 (CoreDiscovery.stream_of i rest)) as [sub2 cs'].
      cbn [fst snd] in *. destruct IH as [IH1 IH2]. split; [exact IH1 |].
      unfold CoreDiscovery.stream_of. rewrite omap_app.
      fold (CoreDiscovery.stream_of i cs). rewrite IH2. f_equal.
      destruct c; cbn; rewrite ?Nat.eqb_refl; reflexivity.
    + assert (Hi1 : <[j := sub1]> subs !! i = Some sub).
      { rewrite list_lookup_insert_ne by exact Hji. exact Hi. }
      specialize (IH _ i sub Hi1).
      destruct (deliveries (<[j := sub1]> subs) rest) as [subs2 cs].
      cbn [fst snd] in *. destruct IH as [IH1 IH2]. split; [exact IH1 |].
      unfold CoreDiscovery.stream_of. rewrite omap_app.
      fold (CoreDiscovery.stream_of i cs). rewrite IH2.
      destruct c; cbn; [| reflexivity].
      destruct (Nat.eqb_spec j i); [contradiction | reflexivity].
  - destruct (Nat.eqb_spec j i) as [-> | Hji]; [congruence |].
    apply IH, Hi.
Qed.

(** When the relays answer, [discoverPeers] of the core package returns for
    a well-formed key, and its map holds, for an author, the parsed form of a
    record of that author with the greatest time stamp among the records
    received; an empty follow list gives the empty map. *)
Lemma core_discoverPeers_latest_per_author (store : list Event) (pk : string) :
  PUBKEY_REGEX_test pk = true ->
  exists (follows : list string) (m : gmap string IlpPeerInfo),
    CoreDiscovery.getFollows (CoreDiscovery.answering store) pk = Returned follows
    /\ CoreDiscovery.discoverPeers IlpPeerInfo parseIlpPeerInfo
         (CoreDiscovery.answering store) pk = Returned m
    /\ (follows = [] -> m = ∅)
    /\ forall (a : string) (i : IlpPeerInfo),
         m !! a = Some i ->
         exists e,
           In e store /\ pubkey e = a /\ kind e = ILP_PEER_INFO_KIND
           /\ parseIlpPeerInfo e = Some i
           /\ forall y, In y store -> kind y = ILP_PEER_INFO_KIND ->
                        pubkey y = a -> created_at y <= created_at e.
Proof.
  intros Hpk. unfold CoreDiscovery.discoverPeers.
  assert (Hf : exists follows,
             CoreDiscovery.getFollows (CoreDiscovery.answering store) pk = Returned follows).
  { unfold CoreDiscovery.getFollows, CoreDiscovery.answering. rewrite Hpk. cbn [negb].
    destruct (most_recent _); eexists; reflexivity. }
  destruct Hf as [follows Hf]. rewrite Hpk, Hf. cbn [negb].
  destruct follows as [| f0 follows].
  - exists [], ∅. repeat split; try reflexivity.
    intros a i Hi. rewrite lookup_empty in Hi. discriminate.
  - unfold CoreDiscovery.answering at 1.
    eexists _, _. split; [reflexivity |]. split; [reflexivity |].
    split; [discriminate |].
    intros a i Hi. rewrite lookup_omap in Hi.
    set (events := querySync store _) in *.
    pose proof (ResolverFacts.group_latest_spec events a) as Hg.
    destruct (group_latest events !! a) as [e |]; [| discriminate].
    cbn in Hi. destruct Hg as (Hin & Ha & Hmax).
    apply filter_In in Hin as [Hin Hmatch].
    exists e. split; [exact Hin |]. split; [exact Ha |].
    assert (Hkinds : forall y, matchFilter (CoreDiscovery.peer_infos_of (f0 :: follows)) y
                               = true ->
                     kind y = ILP_PEER_INFO_KIND /\ str_mem (pubkey y) (f0 :: follows) = true).
    { intros y Hy. unfold matchFilter, CoreDiscovery.peer_infos_of in Hy. cbn in Hy.
      rewrite !andb_true_r in Hy. apply andb_true_iff in Hy as [Hk Hauth].
      rewrite orb_false_r in Hk. apply Z.eqb_eq in Hk. split; assumption. }
    destruct (Hkinds e Hmatch) as [Hk Hauth].
    split; [exact Hk |]. split; [exact Hi |].
    intros y Hy Hyk Hya. apply Hmax; [| exact Hya].
    apply filter_In. split; [exact Hy |].
    unfold matchFilter, CoreDiscovery.peer_infos_of. cbn. rewrite Hyk, Hya, <- Ha.
    rewrite !andb_true_r. apply andb_true_iff. split; [reflexivity | exact Hauth].
Qed.

End Core.

(** The service reports a record and remembers it in its cache. *)
Lemma service_onevent_remembers (cache : gmap string Events.IlpPeerInfo) (e : Event)
    (i : Events.IlpPeerInfo) :
  Events.parseIlpPeerInfo e = Some i ->
  exists y, fst (ServiceDiscovery.onevent cache e) !! Events.pi_pubkey i = Some y
            /\ Events.pi_createdAt i <= Events.pi_createdAt y.
Proof.
  intros Hp. unfold ServiceDiscovery.onevent. rewrite Hp.
  destruct (cache !! Events.pi_pubkey i) as [x |] eqn:Hx.
  - destruct (Z.gtb_spec (Events.pi_createdAt i) (Events.pi_createdAt x)); cbn.
    + exists i. rewrite lookup_insert_eq. split; [reflexivity | lia].
    + exists x. split; [exact Hx | lia].
  - cbn. exists i. rewrite lookup_insert_eq. split; [reflexivity | lia].
Qed.

(** Whatever the subscription, a record of an author is only reported when it
    is strictly newer than the cache entry of that author. *)
Lemma service_reports_strictly_newer (ds : list (nat * Event)) :
  forall (cache : gmap string Events.IlpPeerInfo) (a : string) (x : Events.IlpPeerInfo),
    cache !! a = Some x ->
    forall (k : nat) (i' : Events.IlpPeerInfo),
      In (k, i') (snd (ServiceDiscovery.deliveries cache ds)) ->
      Events.pi_pubkey i' = a ->
      Events.pi_createdAt x < Events.pi_createdAt i'.
Proof.
  induction ds as [| [j e] rest IH]; intros cache a x Hx k i' Hin Ha; [destruct Hin |].
  cbn [ServiceDiscovery.deliveries] in Hin.
  unfold ServiceDiscovery.onevent in Hin.
  destruct (Events.parseIlpPeerInfo e) as [pi |].
  - destruct (decide (Events.pi_pubkey pi = a)) as [Hpa | Hpa].
    + rewrite Hpa, Hx in Hin.
      destruct (Z.gtb_spec (Events.pi_createdAt pi) (Events.pi_createdAt x)) as [Hgt | Hle].
      * assert (Hpi : <[a := pi]> cache !! a = Some pi) by apply lookup_insert_eq.
        specialize (IH _ a pi Hpi k i').
        destruct (ServiceDiscovery.deliveries (<[a := pi]> cache) rest) as [c2 cs].
        cbn in Hin. destruct Hin as [[= <- <-] | Hin]; [lia |].
        specialize (IH Hin Ha). lia.
      * specialize (IH _ a x Hx k i').
        destruct (ServiceDiscovery.deliveries cache rest) as [c2 cs].
        cbn in Hin. exact (IH Hin Ha).
    + assert (Hkeep : <[Events.pi_pubkey pi := pi]> cache !! a = Some x)
        by (rewrite lookup_insert_ne by exact Hpa; exact Hx).
      destruct (cache !! Events.pi_pubkey pi) as [existing |].
      * destruct (Events.pi_createdAt pi >? Events.pi_createdAt existing).
        -- specialize (IH _ a x Hkeep k i').
           destruct (ServiceDiscovery.deliveries _ rest) as [c2 cs].
           cbn in Hin. destruct Hin as [[= <- <-] | Hin]; [contradiction |].
           exact (IH Hin Ha).
        -- specialize (IH _ a x Hx k i').
           destruct (ServiceDiscovery.deliveries cache rest) as [c2 cs].
           cbn in Hin. exact (IH Hin Ha).
      * specialize (IH _ a x Hkeep k i').
        destruct (ServiceDiscovery.deliveries _ rest) as [c2 cs].
        cbn in Hin. destruct Hin as [[= <- <-] | Hin]; [contradiction |].
        exact (IH Hin Ha).
  - specialize (IH _ a x Hx k i').
    destruct (ServiceDiscovery.deliveries cache rest) as [c2 cs].
    cbn in Hin. exact (IH Hin Ha).
Qed.

(** C6. In the core package, the callback of a subscription is called for
    exactly the parsable records of its own stream that are strictly newer
    than its last-seen time stamp of their author, which each such record then
    replaces, and the last-seen state belongs to the subscription: deliveries
    to other subscriptions of the process change neither its state nor its
    calls. In the discovery service the last-seen state is the cache of the
    service: once a record has been handled for one subscription, every
    subscription of that service reports the author again only for a strictly
    newer record. *)
Theorem live_updates_pass_strictly_newer
    (IlpPeerInfo : Type) (parseIlpPeerInfo : Event -> option IlpPeerInfo)
    (subs : list CoreDiscovery.Subscription) (ds : list (nat * Event))
    (i : nat) (sub : CoreDiscovery.Subscription)
    (cache : gmap string Events.IlpPeerInfo) (e : Event) (info : Events.IlpPeerInfo)
    (later : list (nat * Event)) :
  subs !! i = Some sub ->
  CoreDiscovery.isUnsubscribed sub = false ->
  Events.parseIlpPeerInfo e = Some info ->
  (fst (CoreDiscovery.deliveries IlpPeerInfo parseIlpPeerInfo subs ds) !! i
   = Some (fst (CoreDiscovery.feed IlpPeerInfo parseIlpPeerInfo sub
                  (CoreDiscovery.stream_of i ds)))
   /\ CoreDiscovery.stream_of i
        (snd (CoreDiscovery.deliveries IlpPeerInfo parseIlpPeerInfo subs ds))
      = omap (fun e => pair (pubkey e) <$> parseIlpPeerInfo e)
             (spec_live_filter (CoreDiscovery.peerTimestamps sub)
                               (CoreDiscovery.stream_of i ds)))
  /\ (forall (k : nat) (info' : Events.IlpPeerInfo),
        In (k, info')
           (snd (ServiceDiscovery.deliveries (fst (ServiceDiscovery.onevent cache e)) later)) ->
        Events.pi_pubkey info' = Events.pi_pubkey info ->
        Events.pi_createdAt info < Events.pi_createdAt info').
Proof.
  intros Hi Hu Hp. split.
  - destruct (deliveries_project IlpPeerInfo parseIlpPeerInfo ds subs i sub Hi) as [H1 H2].
    split; [exact H1 |]. rewrite H2. apply feed_refines_filter, Hu.
  - intros k info' Hin Hpk.
    destruct (service_onevent_remembers cache e info Hp) as (y & Hy & Hle).
    pose proof (service_reports_strictly_newer later _ _ y Hy k info' Hin Hpk). lia.
Qed.

End DiscoveryFacts.

(** ** Bootstrap *)

Module BootstrapFacts.

Import Bootstrap.

Section World.

Context (W : Type)
        (querySync : string -> Filter -> M W (list Event))
        (requestSpspInfo : string -> string -> Z -> M W Correlator.SpspInfo)
        (addPeer : string -> string -> string -> M W unit)
        (addRoute : string -> string -> M W unit)
        (publish : string -> Event -> M W unit)
        (parseIlpPeerInfo : Event -> option IlpPeerInfo)
        (ownInfoEvent : Event)
        (spspTimeout : Z)
        (hasConnectorAdmin : bool).

Local Abbreviation bootstrapWithPeer :=
  (bootstrapWithPeer W querySync requestSpspInfo addPeer addRoute publish
     parseIlpPeerInfo ownInfoEvent spspTimeout hasConnectorAdmin).
Local Abbreviation bootstrap_step :=
  (bootstrap_step W querySync requestSpspInfo addPeer addRoute publish
     parseIlpPeerInfo ownInfoEvent spspTimeout hasConnectorAdmin).
Local Abbreviation bootstrap :=
  (bootstrap W querySync requestSpspInfo addPeer addRoute publish
     parseIlpPeerInfo ownInfoEvent spspTimeout hasConnectorAdmin).

Ltac split_steps :=
  repeat match goal with
         | |- context [match ?x with _ => _ end] => destruct x
         | |- context [if ?b then _ else _] => destruct b
         end.

(** A seed whose key is malformed fails before anything is asked of the
    world. *)
Lemma bootstrapWithPeer_invalid (kp : KnownPeer) (w : W) :
  PUBKEY_REGEX_test (kp_pubkey kp) = false ->
  bootstrapWithPeer kp w
  = (w, Thrown (BootstrapError
                  ("Invalid pubkey format for known peer: " ++ kp_pubkey kp)%string)).
Proof. intros H. unfold Bootstrap.bootstrapWithPeer. rewrite H. reflexivity. Qed.

(** A result names the seed it was obtained from, whose key is well
    formed. *)
Lemma bootstrapWithPeer_result (kp : KnownPeer) (w w' : W) (r : BootstrapResult) :
  bootstrapWithPeer kp w = (w', Returned r) ->
  knownPeer r = kp /\ PUBKEY_REGEX_test (kp_pubkey kp) = true.
Proof.
  unfold Bootstrap.bootstrapWithPeer.
  destruct (PUBKEY_REGEX_test (kp_pubkey kp)); cbn [negb]; [| discriminate].
  unfold bind, ret, queryPeerInfo, directSpspHandshake, publishOurInfo,
    addPeerToConnector, rethrow_as, bind.
  split_steps; intros [= <- <-] || discriminate; split; reflexivity.
Qed.

(** The loop's accumulator only grows at its end. *)
Lemma fold_step_acc (l : list KnownPeer) : forall (w : W) (acc : list BootstrapResult),
  fold_left bootstrap_step l (w, acc)
  = (fst (bootstrap l w), acc ++ snd (bootstrap l w)).
Proof.
  unfold Bootstrap.bootstrap.
  induction l as [| kp rest IH]; intros w acc; cbn [fold_left fst snd].
  - rewrite app_nil_r. reflexivity.
  - unfold Bootstrap.bootstrap_step at 2 4 6. cbn [fst snd].
    destruct (bootstrapWithPeer kp w) as [w' [r | err]].
    + rewrite (IH w' (acc ++ [r])), (IH w' ([] ++ [r])). cbn [fst snd].
      rewrite <- app_assoc. reflexivity.
    + rewrite (IH w' acc). reflexivity.
Qed.

Lemma bootstrap_cons (kp : KnownPeer) (rest : list KnownPeer) (w : W) :
  bootstrap (kp :: rest) w
  = match bootstrapWithPeer kp w with
    | (w', Returned r) => (fst (bootstrap rest w'), r :: snd (bootstrap rest w'))
    | (w', Thrown _) => bootstrap rest w'
    end.
Proof.
  unfold Bootstrap.bootstrap at 1. cbn [fold_left].
  unfold Bootstrap.bootstrap_step at 2. cbn [fst snd].
  destruct (bootstrapWithPeer kp w) as [w' [r | err]].
  - rewrite fold_step_acc. reflexivity.
  - reflexivity.
Qed.

Lemma bootstrap_app (l1 l2 : list KnownPeer) (w : W) :
  bootstrap (l1 ++ l2) w
  = (fst (bootstrap l2 (fst (bootstrap l1 w))),
     snd (bootstrap l1 w) ++ snd (bootstrap l2 (fst (bootstrap l1 w)))).
Proof.
  unfold Bootstrap.bootstrap at 1. rewrite fold_left_app.
  fold (bootstrap l1 w). destruct (bootstrap l1 w) as [w1 r1].
  apply fold_step_acc.
Qed.

Lemma bootstrap_results_in_order (l : list KnownPeer) : forall w : W,
  List.map knownPeer (snd (bootstrap l w)) `sublist_of` l
  /\ Forall (fun r => PUBKEY_REGEX_test (kp_pubkey (knownPeer r)) = true)
            (snd (bootstrap l w)).
Proof.
  induction l as [| kp rest IH]; intros w.
  - split; [constructor | constructor].
  - rewrite bootstrap_cons.
    destruct (bootstrapWithPeer kp w) as [w' [r | err]] eqn:Hb.
    + destruct (bootstrapWithPeer_result kp w w' r Hb) as [Hk Hv].
      destruct (IH w') as [IH1 IH2]. cbn [snd List.map]. rewrite Hk. split.
      * apply sublist_skip, IH1.
      * constructor; [rewrite Hk; exact Hv | exact IH2].
    + destruct (IH w') as [IH1 IH2]. split; [apply sublist_cons, IH1 | exact IH2].
Qed.


End World.

End BootstrapFacts.

(** ** Scenarios *)

Module Scenarios.

Import Samples.

(** The example of the specification on a manager: a followed peer with ten
    mutual followers who does not follow back. *)
Example computeTrust_ten_mutuals :
  snd (Trust.computeTrust (Trust.new_Manager "me" Trust.DEFAULT_CONFIG)
         store_ten_mutuals "peer")
  = Returned {| Trust.ts_pubkey := "peer"; Trust.isFollowed := true;
                Trust.followsUs := false; Trust.mutualFollowers := 10;
                Trust.creditLimit := 1500; Trust.score := Finite 15 |}.
Proof. vm_compute. reflexivity. Qed.

(** For a peer that is not followed but shares three follows with the owner,
    [computeTrust] grants the bonus and the calculator does not. *)
Example unfollowed_peer_with_mutuals :
  let store := [ follow_list "me" 1 ["a"; "b"; "c"];
                 follow_list "stranger" 1 ["a"; "b"; "c"] ] in
  let '(st, r) := Trust.computeTrust (Trust.new_Manager "me" Trust.DEFAULT_CONFIG)
                    store "stranger" in
  Trust.creditLimit <$> (match r with Returned ts => Some ts | Thrown _ => None end)
  = Some 300
  /\ Trust.trustCalculator st "stranger" false = 0.
Proof. vm_compute. split; reflexivity. Qed.

(** A matching response before the deadline: the promise is resolved once;
    the duplicate and the timer that follow do nothing. *)
Example exchange_resolves_once :
  Correlator.run parse_response "req-1" "peer" 10000 Correlator.start
    [ Correlator.Incoming 1 (response "peer" "req-1" "garbage");
      Correlator.Incoming 2 (response "peer" "req-1" "ok");
      Correlator.Incoming 3 (response "peer" "req-1" "ok");
      Correlator.TimerDue 10000 ]
  = {| Correlator.resolved := true; Correlator.timerPending := false;
       Correlator.subOpen := false;
       Correlator.settled :=
         [(2, Correlator.Resolve
                {| Correlator.destinationAccount := "g.agent.receiver.1";
                   Correlator.sharedSecret := "c2VjcmV0" |})] |}.
Proof. vm_compute. reflexivity. Qed.



(** The same noise on both clients: the core client goes on waiting and is
    resolved by the matching response; the older client does not see the event
    tagged with another request, and its wait is ended by the first event that
    passes its filter, here one that fails decryption. *)
Lemma candidates_on_both_clients :
  Correlator.run parse_response "req-1" "peer" 10000 Correlator.start
    [ Correlator.Incoming 1 (response "peer" "req-1" "garbage");
      Correlator.Incoming 2 (response "peer" "req-2" "other") ]
  = Correlator.start
  /\ LegacyWait.promise string
       (fold_left (LegacyWait.receive string decrypt "peer" "req-1")
          [ response "peer" "req-2" "ok"; response "peer" "req-1" "garbage";
            response "peer" "req-1" "ok" ]
          (LegacyWait.start string))
     = Some (LegacyWait.Reject
               (Error_ "Failed to decrypt SPSP response: invalid MAC")).
Proof.
  destruct (LegacyWaitFacts.candidates_while_waiting
              parse_response "req-1" "peer" 10000
              [ Correlator.Incoming 1 (response "peer" "req-1" "garbage");
                Correlator.Incoming 2 (response "peer" "req-2" "other") ]
              3 (response "peer" "req-1" "ok")
              string decrypt "peer" "req-1"
              [ response "peer" "req-2" "ok" ] [ response "peer" "req-1" "ok" ]
              (response "peer" "req-1" "garbage")
              eq_refl eq_refl eq_refl eq_refl)
    as [[Hcore _] [_ Hlegacy]].
  split; [exact Hcore |].
  cbn [app] in Hlegacy. rewrite Hlegacy. reflexivity.
Defined.

(** On the older client an undecryptable candidate is not discarded: it
    rejects the promise. *)
Lemma waitForResponse_rejects_undecryptable : ~ LegacyWait.discards_undecryptable.
Proof.
  intros H.
  specialize (H string decrypt "peer" "req-1" (LegacyWait.start string)
                (response "peer" "req-1" "garbage") "invalid MAC" eq_refl eq_refl).
  vm_compute in H. discriminate H.
Qed.

(** Three records with distinct time stamps, presented in reverse. *)
Lemma latest_of_three :
  let l := [ peer_info "alice" 1 "g.alice.1"; peer_info "alice" 3 "g.alice.3";
             peer_info "alice" 2 "g.alice.2" ] in
  Resolver.reduce_latest l = Some (peer_info "alice" 3 "g.alice.3")
  /\ Permutation l (rev l)
  /\ Resolver.reduce_latest (rev l) = Some (peer_info "alice" 3 "g.alice.3")
  /\ Resolver.most_recent (rev l) = Some (peer_info "alice" 3 "g.alice.3")
  /\ Resolver.group_latest (rev l) !! "alice" = Some (peer_info "alice" 3 "g.alice.3").
Proof.
  intros l.
  destruct (ResolverFacts.latest_is_maximal_and_stable_when_unique
              l (rev l) (peer_info "alice" 3 "g.alice.3") eq_refl (Permutation_rev l))
    as (_ & _ & H).
  destruct H as (H1 & _ & H3 & H4).
  { intros x [<- | [<- | [<- | []]]]; vm_compute; intros E; (reflexivity || discriminate E). }
  split; [reflexivity |]. split; [apply Permutation_rev |].
  split; [exact H1 |]. split; [exact H3 | exact H4].
Defined.

(** With two records sharing the greatest time stamp, the order decides. *)
Lemma tie_depends_on_order : ~ Resolver.resolution_ignores_order.
Proof.
  intros H.
  specialize (H [tied_1; tied_2] [tied_2; tied_1]).
  assert (Hp : Resolver.same_partition [tied_1; tied_2]).
  { intros x y [<- | [<- | []]] [<- | [<- | []]]; split; reflexivity. }
  specialize (H Hp (perm_swap tied_2 tied_1 [])).
  vm_compute in H. discriminate H.
Qed.

(** Two subscriptions of the core package each report the record they are
    given; in one discovery service, the record handled for the first
    subscription keeps an older one from being reported to the second. *)
Lemma two_subscriptions :
  let e := peer_info "alice" 5 "g.alice" in
  let ds := [ (0%nat, e); (1%nat, e) ] in
  CoreDiscovery.stream_of 1
    (snd (CoreDiscovery.deliveries _ Events.parseIlpPeerInfo
            [CoreDiscovery.fresh; CoreDiscovery.fresh] ds))
  = omap (fun e => pair (pubkey e) <$> Events.parseIlpPeerInfo e) [e]
  /\ forall k info',
       In (k, info')
          (snd (ServiceDiscovery.deliveries (fst (ServiceDiscovery.onevent ∅ e))
                  [ (1%nat, peer_info "alice" 4 "g.alice.older") ])) ->
       Events.pi_pubkey info' = "alice" -> 5 < Events.pi_createdAt info'.
Proof.
  intros e ds.
  destruct (DiscoveryFacts.live_updates_pass_strictly_newer
              _ Events.parseIlpPeerInfo
              [CoreDiscovery.fresh; CoreDiscovery.fresh] ds 1 CoreDiscovery.fresh
              ∅ e {| Events.pi_pubkey := "alice"; Events.ilpAddress := Some "g.alice";
                     Events.btpEndpoint := Some "wss://btp.example";
                     Events.assets := []; Events.settlement := []; Events.relays := [];
                     Events.pi_createdAt := 5 |}
              [ (1%nat, peer_info "alice" 4 "g.alice.older") ]
              eq_refl eq_refl eq_refl)
    as [[_ Hcore] Hservice].
  split; [exact Hcore | exact Hservice].
Defined.

(** In the discovery service the last-seen state is not the subscription's:
    a record already handled for one subscription is not reported to
    another. *)
Lemma service_state_is_shared : ~ ServiceDiscovery.last_seen_is_per_subscription.
Proof.
  intros H.
  specialize (H [ (0%nat, peer_info "alice" 5 "g.alice");
                  (1%nat, peer_info "alice" 5 "g.alice") ] 1%nat).
  vm_compute in H. discriminate H.
Qed.

(** C7, at the input that fails: the owner follows alice and the relays
    return two of her advertisements; [discoverPeers] of the discovery service
    returns an entry for each, and the cache ends with whichever came last,
    here the older one when the relays answer in the other order. *)
Theorem service_discoverPeers_repeats_author :
  List.map (fun p => (Events.pi_pubkey (ServiceDiscovery.info p),
                      Events.pi_createdAt (ServiceDiscovery.info p)))
           (snd (ServiceDiscovery.discoverPeers
                   (ServiceDiscovery.new_Service "me") store_two_versions))
  = [ ("alice", 1); ("alice", 2) ]
  /\ Events.pi_createdAt
       <$> ServiceDiscovery.peerInfoCache
             (fst (ServiceDiscovery.discoverPeers
                     (ServiceDiscovery.new_Service "me") (rev store_two_versions)))
           !! "alice"
     = Some 1.
Proof. split; vm_compute; reflexivity. Qed.




End Scenarios.

(** * Further properties *)

(** ** Filters *)

Module FilterFacts.

(** A filter on one kind and one author passes exactly the events of that
    kind and author. *)
Lemma matchFilter_kind_author (k : Z) (pk : string) (e : Event) :
  matchFilter {| kinds := Some [k]; authors := Some [pk]; tag_p := None; tag_e := None |} e
  = true
  <-> kind e = k /\ pubkey e = pk.
Proof.
  unfold matchFilter, opt_all, Z_mem, str_mem. cbn.
  rewrite !andb_true_r, !orb_false_r, andb_true_iff, Z.eqb_eq, String.eqb_eq. tauto.
Qed.

Lemma str_mem_In (s : string) (l : list string) : str_mem s l = true <-> In s l.
Proof.
  unfold str_mem. rewrite existsb_exists. split.
  - intros (y & Hy & Heq). apply String.eqb_eq in Heq. subst. exact Hy.
  - intros H. exists s. split; [exact H | apply String.eqb_refl].
Qed.

(** A filter on one kind and a list of authors. *)
Lemma matchFilter_kind_authors (k : Z) (pks : list string) (e : Event) :
  matchFilter {| kinds := Some [k]; authors := Some pks; tag_p := None; tag_e := None |} e
  = true
  <-> kind e = k /\ In (pubkey e) pks.
Proof.
  unfold matchFilter, opt_all, Z_mem.
  cbn [kinds authors tag_p tag_e existsb].
  rewrite !andb_true_r, orb_false_r, andb_true_iff, Z.eqb_eq, str_mem_In. tauto.
Qed.

Lemma In_querySync (store : list Event) (f : Filter) (e : Event) :
  In e (querySync store f) <-> In e store /\ matchFilter f e = true.
Proof. apply filter_In. Qed.

Lemma querySync_nil_iff (store : list Event) (f : Filter) :
  querySync store f = [] <-> forall e, In e store -> matchFilter f e = false.
Proof.
  unfold querySync. induction store as [| x l IH]; cbn.
  - split; [intros _ e [] | reflexivity].
  - destruct (matchFilter f x) eqn:Hx.
    + split; [discriminate |]. intros H. specialize (H x (or_introl eq_refl)). congruence.
    + rewrite IH. split.
      * intros H e [<- | He]; [exact Hx | apply H, He].
      * intros H e He. apply H. right. exact He.
Qed.

End FilterFacts.

(** ** Social trust *)

Module TrustExtras.

Import Events Resolver Trust.

(** The lists of the two kinds of [filter] agree. *)
Lemma List_filter_bool_decide {A : Type} (P : A -> Prop) {Hdec : forall x, Decision (P x)}
    (l : list A) :
  List.filter (fun x => bool_decide (P x)) l = base.filter P l.
Proof.
  induction l as [| x l IH]; [reflexivity |].
  cbn [List.filter]. rewrite filter_cons, IH.
  unfold bool_decide, decide. destruct (Hdec x); reflexivity.
Qed.

(** X4. [countMutualFollowers] counts the keys that the peer's follow set and
    the manager's own follow set have in common. *)
Theorem countMutualFollowers_is_intersection (st : Manager)
    (peerFollows : gset (option string)) :
  countMutualFollowers st peerFollows = size (peerFollows ∩ myFollows st)
  /\ (countMutualFollowers st peerFollows <= size peerFollows)%nat
  /\ (countMutualFollowers st peerFollows <= size (myFollows st))%nat.
Proof.
  assert (E : countMutualFollowers st peerFollows = size (peerFollows ∩ myFollows st)).
  { unfold countMutualFollowers. rewrite List_filter_bool_decide.
    assert (Hset : peerFollows ∩ myFollows st
                   = base.filter (fun x => x ∈ myFollows st) peerFollows).
    { apply set_eq. intros x. rewrite elem_of_intersection, elem_of_filter. tauto. }
    rewrite Hset. unfold base.filter at 2, set_filter.
    rewrite size_list_to_set by (apply NoDup_filter, NoDup_elements). reflexivity. }
  rewrite E. split; [reflexivity |]. split.
  - apply subseteq_size, intersection_subseteq_l.
  - apply subseteq_size, intersection_subseteq_r.
Qed.

(** The calculator's answer for a followed peer is capped. *)
Lemma calculator_followed_le_max (st : Manager) (pk : string) :
  trustCalculator st pk true <= maxCreditLimit (config st).
Proof.
  unfold trustCalculator; cbv zeta. cbn [negb].
  match goal with |- context [?a >? ?b] => destruct (Z.gtb_spec a b) end; lia.
Qed.

(** X1. The credit limit [computeTrust] computes never exceeds
    [maxCreditLimit], whatever the configuration, and neither does the
    calculator's answer for a followed peer. *)
Theorem credit_never_exceeds_maximum (cfg : TrustConfig) (isF fu : bool) (m : nat)
    (st : Manager) (store : list Event) (peer : string) :
  computeCreditLimit cfg isF fu m <= maxCreditLimit cfg
  /\ trustCalculator st peer true <= maxCreditLimit (config st)
  /\ match snd (computeTrust st store peer) with
     | Returned ts => creditLimit ts <= maxCreditLimit (config st)
     | Thrown _ => True
     end.
Proof.
  assert (Hc : forall c a b k, computeCreditLimit c a b k <= maxCreditLimit c).
  { intros c a b k. rewrite TrustFacts.computeCreditLimit_min. lia. }
  split; [apply Hc |]. split.
  - apply calculator_followed_le_max.
  - destruct (CacheFacts.computeTrust_split st store peer) as [_ ->].
    set (st1 := if (size (myFollows st) =? 0)%nat then loadMyFollows st store else st).
    assert (Hcfg : config st1 = config st).
    { subst st1. destruct (size (myFollows st) =? 0)%nat; [| reflexivity].
      unfold loadMyFollows.
      destruct (getFollows st store (myPubkey st)) as [sx f] eqn:Hg.
      destruct (CacheFacts.getFollows_post _ _ _ _ _ Hg) as (_ & Hv & _).
      injection Hv as _ Hcfg _ _. exact Hcfg. }
    unfold scoreFrom, view. rewrite Hcfg.
    destruct (computeScore _ _); [cbn; apply Hc | exact I].
Qed.

(** X6. With a non-negative bonus per mutual follower, more mutual followers
    never lower the credit limit; with a non-negative base, being followed back
    never lowers it either. *)
Theorem credit_limit_monotone (cfg : TrustConfig) (isF fu : bool) (m m' : nat) :
  0 <= mutualFollowerBonus cfg ->
  0 <= baseCreditForFollowed cfg ->
  (m <= m')%nat ->
  computeCreditLimit cfg isF fu m <= computeCreditLimit cfg isF fu m'
  /\ computeCreditLimit cfg isF false m <= computeCreditLimit cfg isF true m.
Proof.
  intros Hb Hbase Hm.
  rewrite !TrustFacts.computeCreditLimit_min, !TrustFacts.cappedBonus_min.
  assert (Z.of_nat m * mutualFollowerBonus cfg <= Z.of_nat m' * mutualFollowerBonus cfg)
    by (apply Z.mul_le_mono_nonneg_r; lia).
  assert (0 <= Z.quot (baseCreditForFollowed cfg) 2)
    by (apply Z.quot_pos; lia).
  split.
  - destruct (fu && isF); lia.
  - destruct isF; cbn [andb]; lia.
Qed.

Lemma credit_limit_monotone_default :
  computeCreditLimit DEFAULT_CONFIG true false 2 <= computeCreditLimit DEFAULT_CONFIG true false 7
  /\ computeCreditLimit DEFAULT_CONFIG true false 2 <= computeCreditLimit DEFAULT_CONFIG true true 2.
Proof.
  apply (credit_limit_monotone DEFAULT_CONFIG true false 2 7); cbn; lia.
Defined.

(** X2. With [maxCreditLimit] zero, [computeTrust] throws a [RangeError] (the
    bigint division by zero) for every peer, whereas the calculator, which
    computes no score, still answers: at most zero for a followed peer, and
    [baseCreditForUnfollowed], which it does not cap, for an unfollowed one. *)
Theorem zero_maximum_throws (me : string) (cfg : TrustConfig)
    (follows : gset (option string)) (followers : gset string)
    (cache : gmap string (gset (option string))) (store : list Event) (peer : string) :
  maxCreditLimit cfg = 0 ->
  snd (computeTrust (mkManager me cfg follows followers cache) store peer)
  = Thrown RangeError
  /\ trustCalculator (mkManager me cfg follows followers cache) peer true <= 0
  /\ trustCalculator (mkManager me cfg follows followers cache) peer false
     = baseCreditForUnfollowed cfg.
Proof.
  intros Hz. split; [| split].
  - destruct (CacheFacts.computeTrust_split (mkManager me cfg follows followers cache)
                store peer) as [_ ->].
    set (st := mkManager me cfg follows followers cache).
    set (st1 := if (size (myFollows st) =? 0)%nat then loadMyFollows st store else st).
    assert (Hcfg : config st1 = cfg).
    { subst st1. destruct (size (myFollows st) =? 0)%nat; [| reflexivity].
      unfold loadMyFollows.
      destruct (getFollows st store (myPubkey st)) as [sx f] eqn:Hg.
      destruct (CacheFacts.getFollows_post _ _ _ _ _ Hg) as (_ & Hv & _).
      injection Hv as _ Hcfg _ _. exact Hcfg. }
    unfold scoreFrom, view. rewrite Hcfg.
    unfold computeScore, bigint_div. rewrite Hz. reflexivity.
  - pose proof (calculator_followed_le_max (mkManager me cfg follows followers cache) peer)
      as H. cbn [config] in H. lia.
  - reflexivity.
Qed.

Lemma zero_maximum_throws_example :
  maxCreditLimit (mkTrustConfig 1000 100 500 10 0) = 0
  /\ snd (computeTrust
            (mkManager "me" (mkTrustConfig 1000 100 500 10 0) ∅ ∅ ∅) [] "peer")
     = Thrown RangeError
  /\ trustCalculator (mkManager "me" (mkTrustConfig 1000 100 500 10 0) ∅ ∅ ∅) "peer" true
     <= 0
  /\ trustCalculator (mkManager "me" (mkTrustConfig 1000 100 500 10 0) ∅ ∅ ∅) "peer" false
     = 10.
Proof.
  split; [reflexivity |].
  apply (zero_maximum_throws "me" (mkTrustConfig 1000 100 500 10 0) ∅ ∅ ∅ [] "peer").
  reflexivity.
Defined.

(** [getFollows] and [loadMyFollows] leave the followers alone. *)
Lemma getFollows_followers (st : Manager) (store : list Event) (pk : string) :
  myFollowers (fst (getFollows st store pk)) = myFollowers st
  /\ config (fst (getFollows st store pk)) = config st.
Proof.
  destruct (getFollows st store pk) as [st' f] eqn:Hg.
  destruct (CacheFacts.getFollows_post _ _ _ _ _ Hg) as (_ & Hv & _).
  injection Hv as _ Hcfg _ Hfs. auto.
Qed.

Lemma loadMyFollows_followers (st : Manager) (store : list Event) :
  myFollowers (loadMyFollows st store) = myFollowers st
  /\ config (loadMyFollows st store) = config st.
Proof.
  unfold loadMyFollows.
  pose proof (getFollows_followers st store (myPubkey st)) as H.
  destruct (getFollows st store (myPubkey st)) as [st' f]. exact H.
Qed.

Lemma computeTrust_followers (st : Manager) (store : list Event) (peer : string) :
  myFollowers (fst (computeTrust st store peer)) = myFollowers st
  /\ match snd (computeTrust st store peer) with
     | Returned ts => followsUs ts = bool_decide (peer ∈ myFollowers st)
     | Thrown _ => True
     end.
Proof.
  destruct (CacheFacts.computeTrust_split st store peer) as [-> ->].
  set (st1 := if (size (myFollows st) =? 0)%nat then loadMyFollows st store else st).
  assert (H1 : myFollowers st1 = myFollowers st).
  { subst st1. destruct (size (myFollows st) =? 0)%nat; [| reflexivity].
    apply loadMyFollows_followers. }
  split.
  - rewrite <- H1. apply getFollows_followers.
  - unfold scoreFrom, view. rewrite H1.
    destruct (computeScore _ _); [reflexivity | exact I].
Qed.

(** X3. Once [computeTrust] has answered for a peer the owner follows, the
    calculator gives that peer the same credit limit. *)
Theorem calculator_agrees_after_computeTrust (st st' : Manager) (store : list Event)
    (peer : string) (ts : TrustScore) :
  computeTrust st store peer = (st', Returned ts) ->
  isFollowed ts = true ->
  trustCalculator st' peer true = creditLimit ts.
Proof.
  intros Hc HisF.
  destruct (CacheFacts.computeTrust_split st store peer) as [Hfst Hsnd].
  rewrite Hc in Hfst, Hsnd. cbn [fst snd] in Hfst, Hsnd.
  set (st1 := if (size (myFollows st) =? 0)%nat then loadMyFollows st store else st) in *.
  destruct (getFollows st1 store peer) as [st2 pf] eqn:Hg.
  cbn [fst snd] in Hfst, Hsnd. subst st'.
  destruct (CacheFacts.getFollows_post _ _ _ _ _ Hg) as (Hcache & Hv & _).
  injection Hv as _ Hcfg Hf Hfs.
  symmetry in Hsnd. unfold scoreFrom, view in Hsnd.
  destruct (computeScore _ _); [| discriminate].
  injection Hsnd as <-. cbn [isFollowed creditLimit] in *.
  unfold trustCalculator. cbv zeta. cbn [negb].
  rewrite Hcache, Hcfg, Hfs. unfold countMutualFollowers. rewrite Hf, HisF.
  rewrite TrustFacts.computeCreditLimit_min.
  destruct (bool_decide (peer ∈ myFollowers st1)); cbn [andb];
    match goal with |- context [?a >? ?b] => destruct (Z.gtb_spec a b) end; lia.
Qed.

Lemma calculator_agrees_after_computeTrust_example :
  trustCalculator
    (fst (computeTrust (new_Manager "me" DEFAULT_CONFIG) Samples.store_ten_mutuals "peer"))
    "peer" true
  = 1500.
Proof.
  pose proof (calculator_agrees_after_computeTrust
                (new_Manager "me" DEFAULT_CONFIG) _ Samples.store_ten_mutuals "peer" _
                ltac:(vm_compute; reflexivity) ltac:(vm_compute; reflexivity)) as H.
  vm_compute in H |- *. exact H.
Defined.

(** X5. On a cache miss [getFollows] stores what it returns under the key it
    was asked for: the empty set when the relays hold no follow list of that
    author, and otherwise the second entries of the [p] tags of one of the
    author's follow lists with the greatest time stamp. *)
Theorem getFollows_on_a_miss (st : Manager) (store : list Event) (pk : string) :
  followGraphCache st !! pk = None ->
  let '(st', f) := getFollows st store pk in
  followGraphCache st' = <[pk := f]> (followGraphCache st)
  /\ ((f = ∅
       /\ forall e, In e store -> kind e = FOLLOW_LIST_KIND -> pubkey e <> pk)
      \/ exists latest,
           In latest store /\ kind latest = FOLLOW_LIST_KIND /\ pubkey latest = pk
           /\ (forall e, In e store -> kind e = FOLLOW_LIST_KIND -> pubkey e = pk ->
                         created_at e <= created_at latest)
           /\ f = list_to_set (List.map (fun t => at_ t 1) (filter_tags "p" latest))).
Proof.
  intros Hmiss. unfold getFollows. rewrite Hmiss.
  fold (TrustCalls.follow_lists_of pk).
  destruct (reduce_latest (querySync store (TrustCalls.follow_lists_of pk)))
    as [latest |] eqn:Hr.
  - split; [reflexivity |]. right. exists latest.
    apply ResolverFacts.reduce_latest_max in Hr as [Hin Hmax].
    apply FilterFacts.In_querySync in Hin as [Hin Hm].
    apply FilterFacts.matchFilter_kind_author in Hm as [Hk Hp].
    repeat split; try assumption.
    + intros e He Hek Hep. apply Hmax, FilterFacts.In_querySync.
      split; [exact He |]. apply FilterFacts.matchFilter_kind_author. auto.
    + unfold extractFollowedPubkeys. rewrite Hk. reflexivity.
  - split; [reflexivity |]. left. split; [reflexivity |].
    intros e He Hek Hep.
    destruct (querySync store (TrustCalls.follow_lists_of pk)) as [| x l] eqn:Hq;
      [| discriminate].
    pose proof (proj1 (FilterFacts.querySync_nil_iff _ _) Hq e He) as Hno.
    assert (Hyes : matchFilter (TrustCalls.follow_lists_of pk) e = true)
      by (apply FilterFacts.matchFilter_kind_author; auto).
    congruence.
Qed.

Lemma getFollows_on_a_miss_example :
  let '(st', f) := getFollows (new_Manager "me" DEFAULT_CONFIG) Samples.store_new "peer" in
  followGraphCache st' = <["peer" := f]> ∅ /\ f = {[ Some "c" ]}.
Proof.
  pose proof (getFollows_on_a_miss (new_Manager "me" DEFAULT_CONFIG) Samples.store_new
                "peer" ltac:(reflexivity)) as H.
  destruct (getFollows (new_Manager "me" DEFAULT_CONFIG) Samples.store_new "peer")
    as [st' f] eqn:Hg.
  destruct H as [Hc _]. split; [exact Hc |].
  vm_compute in Hg. injection Hg as _ <-. vm_compute. reflexivity.
Defined.

(** X7. The relays' answer for an author without a follow list is cached like
    any other: until [clearCache], a follow list published later is not seen. *)
Theorem empty_follow_list_is_cached (st : Manager) (store store' : list Event)
    (pk : string) :
  followGraphCache st !! pk = None ->
  (forall e, In e store -> kind e = FOLLOW_LIST_KIND -> pubkey e <> pk) ->
  snd (getFollows st store pk) = ∅
  /\ snd (getFollows (fst (getFollows st store pk)) store' pk) = ∅
  /\ snd (getFollows (clearCache (fst (getFollows st store pk))) store' pk)
     = snd (getFollows st store' pk).
Proof.
  intros Hmiss Hnone.
  assert (Hq : querySync store (TrustCalls.follow_lists_of pk) = []).
  { apply FilterFacts.querySync_nil_iff. intros e He.
    destruct (matchFilter (TrustCalls.follow_lists_of pk) e) eqn:Hm; [| reflexivity].
    apply FilterFacts.matchFilter_kind_author in Hm as [Hk Hp].
    exfalso. exact (Hnone e He Hk Hp). }
  assert (Hg : getFollows st store pk = (set_cache st pk ∅, ∅)).
  { unfold getFollows. rewrite Hmiss. fold (TrustCalls.follow_lists_of pk).
    rewrite Hq. reflexivity. }
  rewrite Hg. cbn [fst snd]. split; [reflexivity |]. split.
  - rewrite (CacheFacts.getFollows_hit _ _ _ ∅); [reflexivity |].
    cbn. apply lookup_insert_eq.
  - unfold getFollows at 1 2. cbn [clearCache followGraphCache].
    rewrite lookup_empty, Hmiss.
    destruct (reduce_latest _); reflexivity.
Qed.

Lemma empty_follow_list_is_cached_example :
  snd (getFollows (fst (getFollows (new_Manager "me" DEFAULT_CONFIG) [] "peer"))
         Samples.store_old "peer") = ∅
  /\ snd (getFollows
            (clearCache (fst (getFollows (new_Manager "me" DEFAULT_CONFIG) [] "peer")))
            Samples.store_old "peer")
     = {[ Some "a"; Some "b" ]}.
Proof.
  destruct (empty_follow_list_is_cached (new_Manager "me" DEFAULT_CONFIG) []
              Samples.store_old "peer" ltac:(reflexivity) ltac:(intros e []))
    as (_ & H2 & H3).
  split; [exact H2 |]. rewrite H3. vm_compute. reflexivity.
Defined.

(** X8. Only [initialize] loads the followers of the owner: on a manager that
    has none, no other sequence of calls finds any, and [computeTrust] then
    reports [followsUs = false] for every peer. *)
Theorem followers_need_initialize (st : Manager) (cs : list Call)
    (store : list Event) (peer : string) :
  myFollowers st = ∅ ->
  forallb (fun c => negb (TrustCalls.is_initialize c)) cs = true ->
  myFollowers (calls st cs) = ∅
  /\ match snd (computeTrust (calls st cs) store peer) with
     | Returned ts => followsUs ts = false
     | Thrown _ => True
     end.
Proof.
  intros H0 Hcs.
  assert (Hinv : myFollowers (calls st cs) = ∅).
  { revert st H0. unfold calls.
    induction cs as [| c cs IH]; intros st H0; [exact H0 |].
    cbn [forallb] in Hcs. apply andb_true_iff in Hcs as [Hc Hcs].
    cbn [fold_left]. apply (IH Hcs).
    destruct c as [s | s p | p b |]; cbn [call]; try discriminate.
    - rewrite (proj1 (computeTrust_followers st s p)). exact H0.
    - exact H0.
    - reflexivity. }
  split; [exact Hinv |].
  pose proof (proj2 (computeTrust_followers (calls st cs) store peer)) as H.
  destruct (snd (computeTrust (calls st cs) store peer)) as [ts | err]; [| exact I].
  rewrite H, Hinv. reflexivity.
Qed.

Lemma followers_need_initialize_example :
  followsUs
    <$> match snd (computeTrust
                     (calls (new_Manager "me" DEFAULT_CONFIG)
                        [CallComputeTrust Samples.store_old "a"; CallClearCache])
                     [Samples.follow_list "me" 1 ["peer"];
                      Samples.follow_list "peer" 1 ["me"]] "peer")
        with Returned ts => Some ts | Thrown _ => None end
  = Some false.
Proof.
  pose proof (followers_need_initialize (new_Manager "me" DEFAULT_CONFIG)
                [CallComputeTrust Samples.store_old "a"; CallClearCache]
                [Samples.follow_list "me" 1 ["peer"]; Samples.follow_list "peer" 1 ["me"]]
                "peer" ltac:(reflexivity) ltac:(reflexivity)) as [_ H].
  destruct (snd (computeTrust _ _ _)) as [ts | err] eqn:Hc.
  - cbn. rewrite H. reflexivity.
  - vm_compute in Hc. discriminate.
Defined.

End TrustExtras.

(** ** The static SPSP lookup *)

Module StaticExtras.

Import Events Resolver StaticSpsp.

(** X9. [getStaticSpspParams] changes the cache only by adding the record it
    returns, under the receiver's key, and then answers from it; a [null]
    answer leaves the cache as it was, so that the next call asks the relays
    again. *)
Theorem static_lookup_caches_only_answers (cache : gmap string SpspInfo)
    (store : list Event) (r : string) :
  match getStaticSpspParams cache store r with
  | (cache', None) => cache' = cache /\ cache !! r = None
  | (cache', Some p) =>
      exists i, cache' !! r = Some i /\ params_of i = p
                /\ (forall k, k <> r -> cache' !! k = cache !! k)
                /\ (forall store', getStaticSpspParams cache' store' r = (cache', Some p))
  end.
Proof.
  unfold getStaticSpspParams at 1.
  destruct (cache !! r) as [cached |] eqn:Hr.
  - exists cached. repeat split; try assumption; try reflexivity.
    intros store'. unfold getStaticSpspParams. rewrite Hr. reflexivity.
  - destruct (reduce_latest _) as [latest |]; [| auto].
    destruct (parseSpspInfo latest) as [i |]; [| auto].
    exists i. split; [apply lookup_insert_eq |]. split; [reflexivity |]. split.
    + intros k Hk. apply lookup_insert_ne. congruence.
    + intros store'. unfold getStaticSpspParams. rewrite lookup_insert_eq. reflexivity.
Qed.

End StaticExtras.

(** ** Ties between records *)

Module ResolverExtras.

Import Resolver.

Lemma most_recent_cons (e : Event) (l : list Event) :
  most_recent (e :: l)
  = Some match most_recent l with
         | Some h => if created_at e >=? created_at h then e else h
         | None => e
         end.
Proof. unfold most_recent, sort_desc. cbn [fold_right]. apply ResolverFacts.head_insert_desc. Qed.

(** The sort keeps the first of the records with the greatest time stamp. *)
Lemma most_recent_first_max (l : list Event) : forall r : Event,
  most_recent l = Some r ->
  exists l1 l2,
    l = l1 ++ r :: l2
    /\ (forall x, In x l1 -> created_at x < created_at r)
    /\ (forall x, In x l2 -> created_at x <= created_at r).
Proof.
  induction l as [| e l IH]; intros r Hr; [discriminate |].
  rewrite most_recent_cons in Hr.
  destruct (most_recent l) as [h |] eqn:Hh.
  - destruct (Z.geb_spec (created_at e) (created_at h)) as [Hge | Hlt];
      injection Hr as <-.
    + exists [], l. split; [reflexivity |]. split; [intros x [] |].
      intros x Hx. apply ResolverFacts.most_recent_max in Hh as [_ Hmax].
      specialize (Hmax x Hx). lia.
    + destruct (IH h eq_refl) as (l1 & l2 & -> & H1 & H2).
      exists (e :: l1), l2. split; [reflexivity |]. split; [| exact H2].
      intros x [<- | Hx]; [lia | apply H1, Hx].
  - injection Hr as <-. destruct l as [| x l'].
    + exists [], []. split; [reflexivity |]. split; intros x [].
    + destruct (ResolverFacts.most_recent_some (x :: l') ltac:(discriminate)) as [r Hr'].
      congruence.
Qed.

Lemma group_latest_snoc (l : list Event) (e : Event) :
  group_latest (l ++ [e]) = group_step (group_latest l) e.
Proof. unfold group_latest. rewrite fold_left_app. reflexivity. Qed.

(** The grouping loop keeps, for an author, the first of the author's
    records with the greatest time stamp. *)
Lemma group_latest_first_max (l : list Event) : forall (a : string) (r : Event),
  group_latest l !! a = Some r ->
  exists l1 l2,
    l = l1 ++ r :: l2
    /\ (forall x, In x l1 -> pubkey x = a -> created_at x < created_at r)
    /\ (forall x, In x l2 -> pubkey x = a -> created_at x <= created_at r).
Proof.
  induction l as [| e l IH] using rev_ind; intros a r Hr.
  - unfold group_latest in Hr. cbn in Hr. rewrite lookup_empty in Hr. discriminate.
  - rewrite group_latest_snoc in Hr. unfold group_step in Hr.
    pose proof (ResolverFacts.group_latest_spec l (pubkey e)) as Hspec.
    assert (Hold : group_latest l !! a = Some r ->
                   created_at e <= created_at r \/ pubkey e <> a ->
                   exists l1 l2,
                     l ++ [e] = l1 ++ r :: l2
                     /\ (forall x, In x l1 -> pubkey x = a -> created_at x < created_at r)
                     /\ (forall x, In x l2 -> pubkey x = a -> created_at x <= created_at r)).
    { intros Hl He. destruct (IH a r Hl) as (l1 & l2 & -> & H1 & H2).
      exists l1, (l2 ++ [e]). split; [rewrite <- app_assoc; reflexivity |].
      split; [exact H1 |]. intros x Hx Hxa.
      apply in_app_or in Hx as [Hx | [<- | []]]; [apply H2; assumption |].
      destruct He as [He | He]; [exact He | contradiction]. }
    assert (Hnew : pubkey e = a -> r = e ->
                   (forall y, In y l -> pubkey y = a -> created_at y < created_at e) ->
                   exists l1 l2,
                     l ++ [e] = l1 ++ r :: l2
                     /\ (forall x, In x l1 -> pubkey x = a -> created_at x < created_at r)
                     /\ (forall x, In x l2 -> pubkey x = a -> created_at x <= created_at r)).
    { intros Ha -> Hlt. exists l, []. split; [reflexivity |].
      split; [exact Hlt | intros x []]. }
    destruct (group_latest l !! pubkey e) as [existing |] eqn:Hex.
    + destruct Hspec as (_ & _ & Hmax).
      destruct (Z.gtb_spec (created_at e) (created_at existing)) as [Hgt | Hle].
      * destruct (decide (pubkey e = a)) as [Ha | Hna].
        -- rewrite Ha, lookup_insert_eq in Hr. injection Hr as <-.
           apply Hnew; [exact Ha | reflexivity |].
           intros y Hy Hya. rewrite <- Ha in Hya. specialize (Hmax y Hy Hya). lia.
        -- rewrite lookup_insert_ne in Hr by exact Hna. apply Hold; auto.
      * destruct (decide (pubkey e = a)) as [Ha | Hna].
        -- apply Hold; [exact Hr |]. left.
           rewrite Ha in Hex. assert (existing = r) by congruence. subst. exact Hle.
        -- apply Hold; auto.
    + destruct (decide (pubkey e = a)) as [Ha | Hna].
      * rewrite Ha, lookup_insert_eq in Hr. injection Hr as <-.
        apply Hnew; [exact Ha | reflexivity |].
        intros y Hy Hya. rewrite <- Ha in Hya. exfalso. exact (Hspec y Hy Hya).
      * rewrite lookup_insert_ne in Hr by exact Hna. apply Hold; auto.
Qed.

(** Two decompositions of one list at a first greatest record of one author
    name the same record. *)
Lemma first_max_unique (p : string) (b g : Event) : forall b1 b2 g1 g2 : list Event,
  b1 ++ b :: b2 = g1 ++ g :: g2 ->
  pubkey b = p -> pubkey g = p ->
  (forall x, In x b1 -> pubkey x = p -> created_at x < created_at b) ->
  (forall x, In x g1 -> pubkey x = p -> created_at x < created_at g) ->
  created_at b = created_at g ->
  g = b.
Proof.
  induction b1 as [| y b1 IH]; intros b2 g1 g2 Hl Hpb Hpg Hb1 Hg1 Heq.
  - destruct g1 as [| z g1]; cbn in Hl; [congruence |].
    injection Hl as <- _. specialize (Hg1 b (or_introl eq_refl) Hpb). lia.
  - destruct g1 as [| z g1]; cbn in Hl.
    + injection Hl as -> _. specialize (Hb1 g (or_introl eq_refl) Hpg). lia.
    + injection Hl as _ Hl. apply (IH b2 g1 g2 Hl Hpb Hpg).
      * intros x Hx. apply Hb1. right. exact Hx.
      * intros x Hx. apply Hg1. right. exact Hx.
      * exact Heq.
Qed.

(** The grouping loop selects the first greatest record of each author. *)
Lemma group_latest_selects (l l1 l2 : list Event) (e : Event) :
  l = l1 ++ e :: l2 ->
  (forall x, In x l1 -> pubkey x = pubkey e -> created_at x < created_at e) ->
  (forall x, In x l2 -> pubkey x = pubkey e -> created_at x <= created_at e) ->
  group_latest l !! pubkey e = Some e.
Proof.
  intros Hl H1 H2.
  pose proof (ResolverFacts.group_latest_spec l (pubkey e)) as Hspec.
  assert (Hin : In e l) by (rewrite Hl; apply in_elt).
  destruct (group_latest l !! pubkey e) as [g |] eqn:Hg.
  - destruct (group_latest_first_max l _ _ Hg) as (g1 & g2 & Hgl & Hg1 & _).
    destruct Hspec as (Hing & Hgp & Hgmax).
    f_equal. apply (first_max_unique (pubkey e) e g l1 l2 g1 g2); auto.
    + rewrite <- Hl. exact Hgl.
    + assert (created_at e <= created_at g) by (apply Hgmax; auto).
      assert (created_at g <= created_at e).
      { rewrite Hl in Hing. apply in_app_or in Hing as [Hx | [<- | Hx]].
        - specialize (H1 g Hx Hgp). lia.
        - lia.
        - apply H2; assumption. }
      lia.
  - exfalso. exact (Hspec e Hin eq_refl).
Qed.

(** X10. Among records with the same greatest time stamp, the reduce-based
    selection returns the one received last, whereas the sort-based selection
    returns the one received first, which is also the one the grouping loop
    keeps for its author. *)
Theorem ties_last_for_reduce_first_for_sort (l : list Event) :
  l <> [] ->
  exists a b : Event,
    (reduce_latest l = Some a
     /\ exists l1 l2, l = l1 ++ a :: l2
          /\ (forall x, In x l1 -> created_at x <= created_at a)
          /\ (forall x, In x l2 -> created_at x < created_at a))
    /\ (most_recent l = Some b
        /\ exists l1 l2, l = l1 ++ b :: l2
             /\ (forall x, In x l1 -> created_at x < created_at b)
             /\ (forall x, In x l2 -> created_at x <= created_at b))
    /\ created_at a = created_at b
    /\ group_latest l !! pubkey b = Some b.
Proof.
  intros Hl.
  destruct (ResolverFacts.reduce_latest_some l Hl) as [a Ha].
  destruct (ResolverFacts.most_recent_some l Hl) as [b Hb].
  exists a, b.
  pose proof (ResolverFacts.reduce_latest_max l a Ha) as [Hina Hmaxa].
  pose proof (ResolverFacts.most_recent_max l b Hb) as [Hinb Hmaxb].
  split; [split; [exact Ha | apply ResolverFacts.reduce_latest_last_max, Ha] |].
  split; [split; [exact Hb | apply most_recent_first_max, Hb] |].
  split; [specialize (Hmaxa b Hinb); specialize (Hmaxb a Hina); lia |].
  destruct (most_recent_first_max l b Hb) as (b1 & b2 & Hbl & Hb1 & Hb2).
  apply (group_latest_selects l b1 b2 b Hbl).
  - intros x Hx _. apply Hb1, Hx.
  - intros x Hx _. apply Hb2, Hx.
Qed.

Lemma ties_last_for_reduce_first_for_sort_example :
  reduce_latest [Samples.tied_1; Samples.tied_2] = Some Samples.tied_2
  /\ most_recent [Samples.tied_1; Samples.tied_2] = Some Samples.tied_1
  /\ group_latest [Samples.tied_1; Samples.tied_2] !! "alice" = Some Samples.tied_1.
Proof.
  destruct (ties_last_for_reduce_first_for_sort [Samples.tied_1; Samples.tied_2]
              ltac:(discriminate)) as (a & b & (Ha & _) & (Hb & _) & _ & Hg).
  vm_compute in Ha. vm_compute in Hb.
  injection Ha as <-. injection Hb as <-.
  split; [vm_compute; reflexivity |]. split; [vm_compute; reflexivity |].
  exact Hg.
Defined.

End ResolverExtras.

(** ** Follow lists and unknown tags *)

Module FollowListFacts.

Import Events FollowList.

Lemma follow_tag_shape (f : FollowParams) :
  exists rest, follow_tag f = "p" :: f_pubkey f :: rest
               /\ if_truthy (nth_error rest 0) = if_truthy (f_relayHint f)
               /\ if_truthy (nth_error rest 1) = if_truthy (f_petname f).
Proof.
  unfold follow_tag, if_truthy.
  destruct (f_relayHint f) as [h |]; destruct (f_petname f) as [n |];
    try destruct (String.eqb h "") eqn:Eh; try destruct (String.eqb n "") eqn:En;
    cbn; eexists; (split; [reflexivity |]); cbn; rewrite ?Eh, ?En; auto.
Qed.

(** X11. Parsing the signed event built from a follow list gives one
    relationship per follow, in order, from the signer to the followed key; a
    relay hint or pet name that is empty comes back absent, and
    [extractFollowedPubkeys] gives the followed keys in order. *)
Theorem follow_list_round_trip (now : Z) (author eid sg : string)
    (follows : list FollowParams) :
  parseFollowList (finalizeEvent (buildFollowListEvent now follows) author eid sg)
  = List.map (fun f => {| r_from := author; r_to := Some (f_pubkey f);
                          r_relayHint := if_truthy (f_relayHint f);
                          r_petname := if_truthy (f_petname f) |}) follows
  /\ extractFollowedPubkeys (finalizeEvent (buildFollowListEvent now follows) author eid sg)
     = List.map (fun f => Some (f_pubkey f)) follows.
Proof.
  unfold parseFollowList, extractFollowedPubkeys, filter_tags. cbn.
  assert (Hall : List.filter (fun t => at_is t 0 "p") (List.map follow_tag follows)
                 = List.map follow_tag follows).
  { apply EventsFacts.filter_map_all. intros f.
    destruct (follow_tag_shape f) as (rest & -> & _). reflexivity. }
  rewrite Hall, !List.map_map. split; apply List.map_ext; intros f;
    destruct (follow_tag_shape f) as (rest & -> & Hr & Hp).
  - unfold at_.
    change (nth_error ("p" :: f_pubkey f :: rest) 1) with (Some (f_pubkey f)).
    change (nth_error ("p" :: f_pubkey f :: rest) 2) with (nth_error rest 0).
    change (nth_error ("p" :: f_pubkey f :: rest) 3) with (nth_error rest 1).
    f_equal; [exact Hr | exact Hp].
  - reflexivity.
Qed.

(** X12. The three readers of a follow list agree: [extractFollowedPubkeys]
    is the [to] column of [parseFollowList], and the tag values the core
    package's [getFollows] keeps are its defined entries. *)
Theorem follow_list_readers_agree (e : Event) :
  extractFollowedPubkeys e = List.map r_to (parseFollowList e)
  /\ omap id (extractFollowedPubkeys e)
     = if kind e =? FOLLOW_LIST_KIND then CoreDiscovery.p_tag_values e else [].
Proof.
  unfold extractFollowedPubkeys, parseFollowList, CoreDiscovery.p_tag_values, filter_tags.
  destruct (kind e =? FOLLOW_LIST_KIND); cbn [negb]; [| split; reflexivity].
  split; [rewrite List.map_map; reflexivity |].
  induction (tags e) as [| t l IH]; [reflexivity |].
  cbn [List.filter List.map omap list_omap].
  destruct (at_is t 0 "p"); cbn [List.map omap list_omap id].
  - unfold id at 1. destruct (at_ t 1); [f_equal |]; exact IH.
  - exact IH.
Qed.

Lemma find_filter {A : Type} (p q : A -> bool) (l : list A) :
  (forall x, p x = true -> q x = true) ->
  List.find p (List.filter q l) = List.find p l.
Proof.
  intros Hpq. induction l as [| x l IH]; [reflexivity |]. cbn.
  destruct (q x) eqn:Hq; cbn.
  - destruct (p x); [reflexivity | exact IH].
  - destruct (p x) eqn:Hp; [| exact IH]. apply Hpq in Hp. congruence.
Qed.

Lemma filter_filter_sub {A : Type} (p q : A -> bool) (l : list A) :
  (forall x, p x = true -> q x = true) ->
  List.filter p (List.filter q l) = List.filter p l.
Proof.
  intros Hpq. induction l as [| x l IH]; [reflexivity |]. cbn.
  destruct (q x) eqn:Hq; cbn.
  - destruct (p x); [f_equal |]; exact IH.
  - destruct (p x) eqn:Hp; [| exact IH]. apply Hpq in Hp. congruence.
Qed.

(** X13. The tag parsers read only the tags they name: removing every other
    tag from an event, wherever it stands, changes neither the result of
    [parseSpspInfo] nor that of [parseIlpPeerInfo]. *)
Theorem parsers_ignore_unknown_tags (e : Event) :
  parseSpspInfo (with_tags e (List.filter spsp_tag (tags e))) = parseSpspInfo e
  /\ parseIlpPeerInfo (with_tags e (List.filter peer_tag (tags e))) = parseIlpPeerInfo e.
Proof.
  split.
  - unfold parseSpspInfo, find_tag. cbn [kind tags pubkey created_at with_tags].
    rewrite !find_filter; [reflexivity | | |];
      intros t Ht; unfold spsp_tag; rewrite Ht, ?orb_true_r; reflexivity.
  - unfold parseIlpPeerInfo, find_tag, filter_tags.
    cbn [kind tags pubkey created_at with_tags].
    rewrite !find_filter, !filter_filter_sub; [reflexivity | | | | |];
      intros t Ht; unfold peer_tag; rewrite Ht, ?orb_true_r; reflexivity.
Qed.

End FollowListFacts.

(** ** Peer discovery of the core package *)

Module CoreDiscoveryExtras.

Import Resolver CoreDiscovery.

Lemma unique_In (l : list string) (x : string) : In x (unique l) <-> In x l.
Proof.
  induction l as [| y l IH]; [reflexivity |]. cbn [unique].
  split.
  - intros [<- | Hx]; [left; reflexivity |].
    apply filter_In in Hx as [Hx _]. right. apply IH, Hx.
  - intros [<- | Hx]; [left; reflexivity |].
    destruct (String.eqb_spec x y) as [-> | Hne]; [left; reflexivity |].
    right. apply filter_In. split; [apply IH, Hx |].
    apply negb_true_iff, String.eqb_neq, Hne.
Qed.

Lemma unique_NoDup (l : list string) : List.NoDup (unique l).
Proof.
  induction l as [| y l IH]; [constructor |]. cbn [unique]. constructor.
  - intros Hin. apply filter_In in Hin as [_ Hne].
    rewrite String.eqb_refl in Hne. discriminate.
  - apply List.NoDup_filter, IH.
Qed.

(** X14. [getFollows] of the core package throws a [PeerDiscoveryError] in
    two cases: for a malformed key, before any query, and when the query of
    the relays fails, whatever the cause. Otherwise it returns, without
    duplicates, the values of the [p] tags of one of the received events with
    the greatest time stamp, or the empty list when none was received. *)
Theorem core_getFollows_outcomes (pool : Pool) (pk : string) :
  match getFollows pool pk with
  | Thrown err =>
      (PUBKEY_REGEX_test pk = false /\ err = invalid_pubkey)
      \/ (PUBKEY_REGEX_test pk = true /\ err = query_failed
          /\ exists cause, pool (follow_lists_of pk) = Thrown cause)
  | Returned follows =>
      PUBKEY_REGEX_test pk = true
      /\ List.NoDup follows
      /\ exists events,
           pool (follow_lists_of pk) = Returned events
           /\ ((events = [] /\ follows = [])
               \/ exists mostRecent,
                    In mostRecent events
                    /\ (forall e, In e events -> created_at e <= created_at mostRecent)
                    /\ forall x, In x follows <-> In x (p_tag_values mostRecent))
  end.
Proof.
  unfold getFollows.
  destruct (PUBKEY_REGEX_test pk); cbn [negb]; [| left; split; reflexivity].
  destruct (pool (follow_lists_of pk)) as [events | cause] eqn:Hq;
    [| right; split; [reflexivity |]; split; [reflexivity | eauto]].
  destruct (most_recent events) as [mostRecent |] eqn:Hm.
  - split; [reflexivity |]. split; [apply unique_NoDup |].
    exists events. split; [reflexivity |]. right. exists mostRecent.
    apply ResolverFacts.most_recent_max in Hm as [Hin Hmax].
    split; [exact Hin |]. split; [exact Hmax |]. intros x. apply unique_In.
  - split; [reflexivity |]. split; [constructor |].
    exists events. split; [reflexivity |]. left. split; [| reflexivity].
    destruct events as [| x l]; [reflexivity |].
    destruct (ResolverFacts.most_recent_some (x :: l) ltac:(discriminate)) as [r Hr].
    congruence.
Qed.

Section Core.

Variable IlpPeerInfo : Type.
Variable parseIlpPeerInfo : Event -> option IlpPeerInfo.

Local Abbreviation onevent := (onevent IlpPeerInfo parseIlpPeerInfo).
Local Abbreviation feed := (feed IlpPeerInfo parseIlpPeerInfo).
Local Abbreviation discoverPeers := (discoverPeers IlpPeerInfo parseIlpPeerInfo).

(** What [discoverPeers] returns: the parsed latest records of what the
    second query received. *)
Lemma discoverPeers_returned (pool : Pool) (pk : string) (m : gmap string IlpPeerInfo) :
  discoverPeers pool pk = Returned m ->
  exists follows,
    getFollows pool pk = Returned follows
    /\ ((follows = [] /\ m = ∅)
        \/ exists events,
             pool (peer_infos_of follows) = Returned events
             /\ m = omap parseIlpPeerInfo (group_latest events)).
Proof.
  unfold CoreDiscovery.discoverPeers.
  destruct (PUBKEY_REGEX_test pk); cbn [negb]; [| discriminate].
  destruct (getFollows pool pk) as [follows | err]; [| discriminate].
  destruct follows as [| f0 follows].
  - intros [= <-]. exists []. split; [reflexivity |]. left. auto.
  - destruct (pool (peer_infos_of (f0 :: follows))) as [events | err] eqn:Hq;
      [| discriminate].
    intros [= <-]. exists (f0 :: follows). split; [reflexivity |]. right.
    exists events. auto.
Qed.

(** X15. [discoverPeers] of the core package throws what [getFollows] throws,
    and, the second query standing outside any [try], whatever that query
    throws, unwrapped. When it returns, an empty follow list gives the empty
    map; otherwise every entry is the parsed form of a received record of
    that author (a followed author, when the relay honoured the filter), and
    the entry of an author is decided by the first received record among the
    author's records with the greatest time stamp: the parsed record, or no
    entry when that record is malformed, whatever older records say. *)
Theorem core_discoverPeers_outcomes (pool : Pool) (pk : string) :
  match discoverPeers pool pk with
  | Thrown err =>
      getFollows pool pk = Thrown err
      \/ exists follows,
           getFollows pool pk = Returned follows /\ follows <> []
           /\ pool (peer_infos_of follows) = Thrown err
  | Returned m =>
      exists follows,
        getFollows pool pk = Returned follows
        /\ ((follows = [] /\ m = ∅)
            \/ exists events,
                 pool (peer_infos_of follows) = Returned events
                 /\ (forall (a : string) (i : IlpPeerInfo),
                       m !! a = Some i ->
                       exists e, In e events /\ pubkey e = a
                                 /\ parseIlpPeerInfo e = Some i
                                 /\ (matchFilter (peer_infos_of follows) e = true ->
                                     In a follows /\ kind e = ILP_PEER_INFO_KIND))
                 /\ (forall (e : Event) (l1 l2 : list Event),
                       events = l1 ++ e :: l2 ->
                       (forall x, In x l1 -> pubkey x = pubkey e ->
                                  created_at x < created_at e) ->
                       (forall x, In x l2 -> pubkey x = pubkey e ->
                                  created_at x <= created_at e) ->
                       m !! pubkey e = parseIlpPeerInfo e))
  end.
Proof.
  destruct (discoverPeers pool pk) as [m | err] eqn:Hd.
  - destruct (discoverPeers_returned pool pk m Hd) as (follows & Hf & Hcases).
    exists follows. split; [exact Hf |].
    destruct Hcases as [Hnil | (events & Hq & ->)]; [left; exact Hnil |].
    right. exists events. split; [exact Hq |]. split.
    + intros a i Hi. rewrite lookup_omap in Hi.
      pose proof (ResolverFacts.group_latest_spec events a) as Hg.
      destruct (group_latest events !! a) as [e |]; [| discriminate].
      cbn in Hi. destruct Hg as (Hin & Ha & _).
      exists e. repeat split; try assumption;
        apply FilterFacts.matchFilter_kind_authors in H as [Hk Hauth];
        [rewrite <- Ha; exact Hauth | exact Hk].
    + intros e l1 l2 Hl H1 H2. rewrite lookup_omap.
      rewrite (ResolverExtras.group_latest_selects _ l1 l2 e Hl H1 H2). reflexivity.
  - unfold CoreDiscovery.discoverPeers in Hd.
    destruct (PUBKEY_REGEX_test pk) eqn:Hpk; cbn [negb] in Hd.
    + destruct (getFollows pool pk) as [follows | err0];
        [| left; injection Hd as <-; reflexivity].
      destruct follows as [| f0 follows]; [discriminate |].
      destruct (pool (peer_infos_of (f0 :: follows))) as [events | err0] eqn:Hq;
        [discriminate |].
      injection Hd as <-. right. exists (f0 :: follows).
      split; [reflexivity |]. split; [discriminate | exact Hq].
    + left. unfold getFollows. rewrite Hpk. injection Hd as <-. reflexivity.
Qed.

Lemma onevent_unsubscribed (sub : Subscription) (e : Event) :
  isUnsubscribed sub = true -> onevent sub e = (sub, None).
Proof. intros H. unfold CoreDiscovery.onevent. rewrite H. reflexivity. Qed.

Lemma feed_unsubscribed (l : list Event) : forall sub : Subscription,
  isUnsubscribed sub = true -> feed sub l = (sub, []).
Proof.
  induction l as [| e l IH]; intros sub H; [reflexivity |].
  cbn [CoreDiscovery.feed]. rewrite (onevent_unsubscribed sub e H), (IH sub H). reflexivity.
Qed.

Lemma feed_app (l1 l2 : list Event) : forall sub : Subscription,
  feed sub (l1 ++ l2)
  = (fst (feed (fst (feed sub l1)) l2),
     snd (feed sub l1) ++ snd (feed (fst (feed sub l1)) l2)).
Proof.
  induction l1 as [| e l1 IH]; intros sub.
  - cbn. destruct (feed sub l2); reflexivity.
  - cbn [app CoreDiscovery.feed]. destruct (onevent sub e) as [sub1 c].
    rewrite (IH sub1). destruct (feed sub1 l1) as [sub2 cs]. cbn [fst snd].
    destruct (feed sub2 l2) as [sub3 cs']. cbn [fst snd].
    rewrite app_assoc. reflexivity.
Qed.

(** X16. After [unsubscribe] the callback of that subscription is never
    called again, whatever events still arrive, while the other subscriptions
    of the process receive exactly what they would have received. *)
Theorem unsubscribe_is_local (subs : list Subscription) (ds : list (nat * Event))
    (i j : nat) (sub other : Subscription) :
  subs !! i = Some sub ->
  subs !! j = Some other ->
  i <> j ->
  let after := CoreDiscovery.deliveries IlpPeerInfo parseIlpPeerInfo
                 (<[i := unsubscribe sub]> subs) ds in
  stream_of i (snd after) = []
  /\ fst after !! i = Some (unsubscribe sub)
  /\ stream_of j (snd after)
     = stream_of j (snd (CoreDiscovery.deliveries IlpPeerInfo parseIlpPeerInfo subs ds)).
Proof.
  intros Hi Hj Hij. cbv zeta.
  assert (Hi' : <[i := unsubscribe sub]> subs !! i = Some (unsubscribe sub)).
  { apply list_lookup_insert_eq. apply lookup_lt_is_Some. eauto. }
  assert (Hj' : <[i := unsubscribe sub]> subs !! j = Some other).
  { rewrite list_lookup_insert_ne by exact Hij. exact Hj. }
  destruct (DiscoveryFacts.deliveries_project IlpPeerInfo parseIlpPeerInfo ds _ i _ Hi')
    as [Hst Hcalls].
  rewrite (feed_unsubscribed (stream_of i ds) (unsubscribe sub) eq_refl) in Hst, Hcalls.
  split; [exact Hcalls |]. split; [exact Hst |].
  destruct (DiscoveryFacts.deliveries_project IlpPeerInfo parseIlpPeerInfo ds _ j _ Hj')
    as [_ ->].
  destruct (DiscoveryFacts.deliveries_project IlpPeerInfo parseIlpPeerInfo ds _ j _ Hj)
    as [_ ->].
  reflexivity.
Qed.

(** The last-seen time stamp of an author never decreases, and it is at least
    the time stamp of every event of the author handled so far. *)
Lemma onevent_lastSeen (sub : Subscription) (e : Event) (a : string) :
  isUnsubscribed sub = false ->
  default 0 (peerTimestamps sub !! a)
  <= default 0 (peerTimestamps (fst (onevent sub e)) !! a)
  /\ (pubkey e = a ->
      created_at e <= default 0 (peerTimestamps (fst (onevent sub e)) !! a)).
Proof.
  intros Hs. unfold CoreDiscovery.onevent. rewrite Hs.
  destruct (Z.leb_spec (created_at e) (default 0 (peerTimestamps sub !! pubkey e)))
    as [Hle | Hgt].
  - cbn [fst]. split; [lia |]. intros <-. exact Hle.
  - destruct (parseIlpPeerInfo e); cbn [fst peerTimestamps];
      (destruct (decide (pubkey e = a)) as [<- | Hne];
       [rewrite lookup_insert_eq; cbn; split; [lia | intros _; lia]
       | rewrite lookup_insert_ne by exact Hne; split; [lia | contradiction]]).
Qed.

Lemma feed_lastSeen (l : list Event) : forall (sub : Subscription) (a : string),
  isUnsubscribed sub = false ->
  isUnsubscribed (fst (feed sub l)) = false
  /\ default 0 (peerTimestamps sub !! a)
     <= default 0 (peerTimestamps (fst (feed sub l)) !! a)
  /\ forall e, In e l -> pubkey e = a ->
               created_at e <= default 0 (peerTimestamps (fst (feed sub l)) !! a).
Proof.
  induction l as [| x l IH]; intros sub a Hs.
  - cbn. split; [exact Hs |]. split; [lia | intros e []].
  - cbn [CoreDiscovery.feed].
    pose proof (onevent_lastSeen sub x a Hs) as [Hmono Hx].
    pose proof (DiscoveryFacts.onevent_keeps_flag IlpPeerInfo parseIlpPeerInfo sub x) as Hflag.
    destruct (onevent sub x) as [sub1 c]. cbn [fst] in *.
    rewrite Hs in Hflag.
    destruct (IH sub1 a Hflag) as (Hs2 & Hmono2 & Hall).
    destruct (feed sub1 l) as [sub2 cs]. cbn [fst] in *.
    split; [exact Hs2 |]. split; [lia |].
    intros e [<- | He] Hea; [specialize (Hx Hea); lia | apply Hall; assumption].
Qed.

(** X17. A record is dropped, and leaves the subscription as it was, when a
    record of the same author with an equal or greater time stamp came earlier
    in the stream of that subscription, even one that failed to parse. *)
Theorem stale_record_is_dropped (sub : Subscription)
    (before after : list Event) (e1 e2 : Event) :
  isUnsubscribed sub = false ->
  In e1 before ->
  pubkey e1 = pubkey e2 ->
  created_at e2 <= created_at e1 ->
  feed sub (before ++ e2 :: after) = feed sub (before ++ after).
Proof.
  intros Hs Hin Hp Hle.
  rewrite !feed_app.
  destruct (feed_lastSeen before sub (pubkey e2) Hs) as (Hs1 & _ & Hall).
  specialize (Hall e1 Hin Hp).
  set (sub1 := fst (feed sub before)) in *.
  assert (Hdrop : onevent sub1 e2 = (sub1, None)).
  { unfold CoreDiscovery.onevent. rewrite Hs1.
    destruct (Z.leb_spec (created_at e2) (default 0 (peerTimestamps sub1 !! pubkey e2)));
      [reflexivity | lia]. }
  cbn [CoreDiscovery.feed]. rewrite Hdrop.
  destruct (feed sub1 after) as [sub2 cs]. reflexivity.
Qed.

End Core.

Lemma stale_record_is_dropped_example :
  let bad := Samples.peer_info "alice" 5 "" in
  let good := Samples.peer_info "alice" 5 "g.alice" in
  Samples.parse_core bad = None
  /\ snd (CoreDiscovery.feed _ Samples.parse_core fresh [good])
     = [("alice", {| Bootstrap.ilpAddress := "g.alice";
                     Bootstrap.btpEndpoint := "wss://btp.example";
                     Bootstrap.settlementEngine := None;
                     Bootstrap.assetCode := "USD"; Bootstrap.assetScale := 6 |})]
  /\ CoreDiscovery.feed _ Samples.parse_core fresh ([bad] ++ good :: [])
     = CoreDiscovery.feed _ Samples.parse_core fresh ([bad] ++ []).
Proof.
  cbv zeta. split; [reflexivity |]. split; [reflexivity |].
  apply (stale_record_is_dropped _ Samples.parse_core fresh
           [Samples.peer_info "alice" 5 ""] []
           (Samples.peer_info "alice" 5 "") (Samples.peer_info "alice" 5 "g.alice")).
  - reflexivity.
  - left. reflexivity.
  - reflexivity.
  - vm_compute. discriminate.
Defined.

Lemma unsubscribe_is_local_example :
  let e := Samples.peer_info "alice" 5 "g.alice" in
  let after := CoreDiscovery.deliveries _ Samples.parse_core
                 [unsubscribe fresh; fresh] [(0%nat, e); (1%nat, e)] in
  stream_of 0 (snd after) = [] /\ List.length (stream_of 1 (snd after)) = 1%nat.
Proof.
  cbv zeta.
  destruct (unsubscribe_is_local _ Samples.parse_core [fresh; fresh]
              [(0%nat, Samples.peer_info "alice" 5 "g.alice");
               (1%nat, Samples.peer_info "alice" 5 "g.alice")]
              0%nat 1%nat fresh fresh ltac:(reflexivity) ltac:(reflexivity)
              ltac:(discriminate)) as (H0 & _ & H1).
  split; [exact H0 |].
  change (<[0%nat := unsubscribe fresh]> [fresh; fresh]) with [unsubscribe fresh; fresh] in H1.
  rewrite H1. reflexivity.
Defined.

Lemma core_discoverPeers_outcomes_example :
  let follow := Samples.follow_list Samples.key_a 1 [Samples.key_b] in
  let bad := Samples.peer_info Samples.key_b 5 "" in
  let good := Samples.peer_info Samples.key_b 5 "g.b" in
  match CoreDiscovery.discoverPeers _ Samples.parse_core
          (answering [follow; bad; good]) Samples.key_a with
  | Returned m => m !! Samples.key_b = None
  | Thrown _ => False
  end
  /\ match CoreDiscovery.discoverPeers _ Samples.parse_core
            (answering [follow; good; bad]) Samples.key_a with
     | Returned m => Bootstrap.ilpAddress <$> m !! Samples.key_b = Some "g.b"
     | Thrown _ => False
     end
  /\ CoreDiscovery.discoverPeers _ Samples.parse_core
       (fun f => Thrown (Error_ "connection refused")) Samples.key_a
     = Thrown query_failed.
Proof.
  cbv zeta. split; [| split; [| reflexivity]].
  - pose proof (core_discoverPeers_outcomes _ Samples.parse_core
                  (answering [ Samples.follow_list Samples.key_a 1 [Samples.key_b];
                               Samples.peer_info Samples.key_b 5 "";
                               Samples.peer_info Samples.key_b 5 "g.b" ])
                  Samples.key_a) as H.
    destruct (CoreDiscovery.discoverPeers _ _ _ _) as [m | err] eqn:Hd;
      [| vm_compute in Hd; discriminate].
    destruct H as (follows & Hf & [[Hnil _] | (events & Hev & _ & Hdec)]).
    + subst follows. vm_compute in Hf. discriminate.
    + unfold answering in Hev. injection Hev as <-.
      assert (Hfollows : follows = [Samples.key_b]).
      { vm_compute in Hf. injection Hf as <-. reflexivity. }
      subst follows.
      apply (Hdec (Samples.peer_info Samples.key_b 5 "") []
                  [Samples.peer_info Samples.key_b 5 "g.b"]).
      * vm_compute. reflexivity.
      * intros x [].
      * intros x [<- | []] _. vm_compute. discriminate.
  - pose proof (core_discoverPeers_outcomes _ Samples.parse_core
                  (answering [ Samples.follow_list Samples.key_a 1 [Samples.key_b];
                               Samples.peer_info Samples.key_b 5 "g.b";
                               Samples.peer_info Samples.key_b 5 "" ])
                  Samples.key_a) as H.
    destruct (CoreDiscovery.discoverPeers _ _ _ _) as [m | err] eqn:Hd;
      [| vm_compute in Hd; discriminate].
    destruct H as (follows & Hf & [[Hnil _] | (events & Hev & _ & Hdec)]).
    + subst follows. vm_compute in Hf. discriminate.
    + unfold answering in Hev. injection Hev as <-.
      assert (Hfollows : follows = [Samples.key_b]).
      { vm_compute in Hf. injection Hf as <-. reflexivity. }
      subst follows.
      assert (Hm : m !! Samples.key_b
                   = Samples.parse_core (Samples.peer_info Samples.key_b 5 "g.b")).
      { apply (Hdec (Samples.peer_info Samples.key_b 5 "g.b") []
                    [Samples.peer_info Samples.key_b 5 ""]).
        - vm_compute. reflexivity.
        - intros x [].
        - intros x [<- | []] _. vm_compute. discriminate. }
      rewrite Hm. reflexivity.
Defined.

End CoreDiscoveryExtras.

(** ** The discovery service *)

Module ServiceExtras.

Import Events Resolver ServiceDiscovery PeerConfigs.

(** What a successful parse says about the event. *)
Lemma parseIlpPeerInfo_event (e : Event) (i : IlpPeerInfo) :
  parseIlpPeerInfo e = Some i ->
  kind e = ILP_PEER_INFO_KIND /\ pi_pubkey i = pubkey e /\ pi_createdAt i = created_at e.
Proof.
  unfold parseIlpPeerInfo.
  destruct (Z.eqb_spec (kind e) ILP_PEER_INFO_KIND) as [Hk | _]; [| discriminate].
  cbn [negb]. destruct (find_tag "ilp" e); [| discriminate].
  destruct (find_tag "btp" e); [| discriminate].
  intros [= <-]. auto.
Qed.

Lemma keyed_insert (cache : gmap string IlpPeerInfo) (i : IlpPeerInfo) :
  keyed cache -> keyed (<[pi_pubkey i := i]> cache).
Proof.
  intros Hk k x. destruct (decide (pi_pubkey i = k)) as [<- | Hne].
  - rewrite lookup_insert_eq. intros [= <-]. reflexivity.
  - rewrite lookup_insert_ne by exact Hne. apply Hk.
Qed.

(** The loop of [discoverPeers]: one peer per event that parses, in order,
    each of them then in the cache. *)
Lemma collect_spec (events : list Event) : forall cache : gmap string IlpPeerInfo,
  snd (collect cache events)
  = List.map (fun i => {| info := i; isFollowed := true |}) (omap parseIlpPeerInfo events)
  /\ (keyed cache -> keyed (fst (collect cache events)))
  /\ (forall k, is_Some (cache !! k) -> is_Some (fst (collect cache events) !! k))
  /\ Forall (fun p => is_Some (fst (collect cache events) !! pi_pubkey (info p)))
            (snd (collect cache events)).
Proof.
  induction events as [| e events IH]; intros cache.
  - cbn. repeat split; auto.
  - cbn [collect omap list_omap]. destruct (parseIlpPeerInfo e) as [i |]; [| apply IH].
    destruct (IH (<[pi_pubkey i := i]> cache)) as (Hpeers & Hkeyed & Hmono & Hall).
    destruct (collect (<[pi_pubkey i := i]> cache) events) as [cache' peers].
    cbn [fst snd] in *. split; [cbn; f_equal; exact Hpeers |].
    split; [intros Hk; apply Hkeyed, keyed_insert, Hk |].
    split.
    + intros k Hk. apply Hmono. destruct (decide (pi_pubkey i = k)) as [<- | Hne].
      * rewrite lookup_insert_eq. eauto.
      * rewrite lookup_insert_ne by exact Hne. exact Hk.
    + constructor; [| exact Hall]. cbn. apply Hmono. rewrite lookup_insert_eq. eauto.
Qed.

Lemma refreshFollowList_keeps (sv : Service) (store : list Event) :
  self (fst (refreshFollowList sv store)) = self sv
  /\ peerInfoCache (fst (refreshFollowList sv store)) = peerInfoCache sv.
Proof. unfold refreshFollowList. destruct (reduce_latest _); split; reflexivity. Qed.

(** X18. Every peer [discoverPeers] of the service returns is marked as
    followed, its author is in the follow set the call has just refreshed,
    it is the parsed form of a kind-10032 event the relays hold, and the cache
    has an entry for its author afterwards. *)
Theorem service_discoverPeers_sound (sv : Service) (store : list Event) :
  let '(sv1, peers) := discoverPeers sv store in
  self sv1 = self sv
  /\ Forall (fun p =>
               isFollowed p = true
               /\ isFollowing sv1 (pi_pubkey (info p)) = true
               /\ is_Some (peerInfoCache sv1 !! pi_pubkey (info p))
               /\ exists e, In e store /\ kind e = ILP_PEER_INFO_KIND
                            /\ parseIlpPeerInfo e = Some (info p))
            peers.
Proof.
  unfold discoverPeers.
  pose proof (refreshFollowList_keeps sv store) as [Hself _].
  destruct (refreshFollowList sv store) as [sv1 pks]. cbn [fst] in Hself.
  destruct (size (followedPubkeys sv1) =? 0)%nat; [split; [exact Hself | constructor] |].
  set (events := queryEvents store _).
  pose proof (collect_spec events (peerInfoCache sv1)) as (Hpeers & _ & _ & Hcached).
  destruct (collect (peerInfoCache sv1) events) as [cache' peers]. cbn [fst snd] in *.
  split; [exact Hself |].
  apply List.Forall_forall. intros p Hp.
  pose proof (proj1 (List.Forall_forall _ _) Hcached p Hp) as Hc.
  rewrite Hpeers in Hp. apply in_map_iff in Hp as (i & <- & Hi).
  apply list_elem_of_In, list_elem_of_omap in Hi as (e & He & Hparse).
  apply list_elem_of_In, FilterFacts.In_querySync in He as [Hin Hmatch].
  apply FilterFacts.matchFilter_kind_authors in Hmatch as [Hk Hauth].
  destruct (parseIlpPeerInfo_event e i Hparse) as (_ & Hpk & _).
  cbn [info isFollowed]. split; [reflexivity |]. split.
  - unfold isFollowing. cbn [followedPubkeys]. apply bool_decide_eq_true.
    apply list_elem_of_In, list_elem_of_omap in Hauth as (o & Ho & Hid).
    unfold id in Hid. subst o. apply elem_of_elements in Ho. rewrite Hpk. exact Ho.
  - split; [exact Hc |]. exists e. auto.
Qed.

(** X19. [getPeerConfigs] always asks for the credit of a followed peer: each
    configuration carries the calculator's answer for [isFollowed = true] and
    names an author of the refreshed follow set; without a calculator every
    credit limit is 1000, and with the calculator of a trust manager none
    exceeds that manager's [maxCreditLimit]. *)
Theorem peer_configs_use_followed_rate (sv : Service) (store : list Event)
    (calc : option (string -> bool -> Z)) (st : Trust.Manager) :
  Forall (fun c =>
            pc_creditLimit c = default defaultTrust calc (pc_pubkey c) true
            /\ isFollowing (fst (getPeerConfigs sv store calc)) (pc_pubkey c) = true)
         (snd (getPeerConfigs sv store calc))
  /\ Forall (fun c => pc_creditLimit c = 1000) (snd (getPeerConfigs sv store None))
  /\ Forall (fun c => pc_creditLimit c <= Trust.maxCreditLimit (Trust.config st))
            (snd (getPeerConfigs sv store (Some (Trust.trustCalculator st))))
  /\ List.map pc_pubkey (snd (getPeerConfigs sv store calc))
     = List.map (fun p => pi_pubkey (info p)) (snd (discoverPeers sv store)).
Proof.
  assert (Hgen : forall calc',
             Forall (fun c =>
                       pc_creditLimit c = default defaultTrust calc' (pc_pubkey c) true
                       /\ isFollowing (fst (getPeerConfigs sv store calc')) (pc_pubkey c) = true)
                    (snd (getPeerConfigs sv store calc'))).
  { intros calc'. unfold getPeerConfigs.
    pose proof (service_discoverPeers_sound sv store) as Hs.
    destruct (discoverPeers sv store) as [sv1 peers]. destruct Hs as [_ Hs].
    cbn [fst snd]. apply List.Forall_forall. intros c Hc.
    apply in_map_iff in Hc as (p & <- & Hp).
    destruct (proj1 (List.Forall_forall _ _) Hs p Hp) as (Hf & Hfol & _).
    cbn. rewrite Hf. auto. }
  split; [apply Hgen |]. split; [| split].
  - eapply List.Forall_impl; [| apply (Hgen None)]. intros c [Hc _]. exact Hc.
  - eapply List.Forall_impl; [| apply (Hgen (Some (Trust.trustCalculator st)))].
    intros c [Hc _]. rewrite Hc. apply TrustExtras.calculator_followed_le_max.
  - unfold getPeerConfigs. destruct (discoverPeers sv store) as [sv1 peers].
    cbn [snd]. rewrite List.map_map. reflexivity.
Qed.

Lemma getPeerInfo_keyed (sv : Service) (store : list Event) (pk : string) :
  keyed (peerInfoCache sv) ->
  keyed (peerInfoCache (fst (getPeerInfo sv store pk)))
  /\ forall i, snd (getPeerInfo sv store pk) = Some i -> pi_pubkey i = pk.
Proof.
  intros Hk. unfold getPeerInfo.
  destruct (peerInfoCache sv !! pk) as [cached |] eqn:Hc.
  - split; [exact Hk |]. intros i [= <-]. apply Hk, Hc.
  - destruct (reduce_latest _) as [latest |] eqn:Hr; [| split; [exact Hk | discriminate]].
    destruct (parseIlpPeerInfo latest) as [i |] eqn:Hp; [| split; [exact Hk | discriminate]].
    apply ResolverFacts.reduce_latest_max in Hr as [Hin _].
    apply FilterFacts.In_querySync in Hin as [_ Hm].
    apply FilterFacts.matchFilter_kind_author in Hm as [_ Hpk].
    destruct (parseIlpPeerInfo_event latest i Hp) as (_ & Hi & _).
    assert (Hik : pi_pubkey i = pk) by congruence.
    split; [| intros x [= <-]; exact Hik].
    cbn [fst peerInfoCache]. rewrite <- Hik. apply keyed_insert, Hk.
Qed.

Lemma onevent_keyed (cache : gmap string IlpPeerInfo) (e : Event) :
  keyed cache -> keyed (fst (onevent cache e)).
Proof.
  intros Hk. unfold onevent. destruct (parseIlpPeerInfo e) as [i |]; [| exact Hk].
  destruct (cache !! pi_pubkey i) as [existing |].
  - destruct (pi_createdAt i >? pi_createdAt existing); [apply keyed_insert |]; exact Hk.
  - apply keyed_insert, Hk.
Qed.

Lemma discoverPeers_keyed (sv : Service) (store : list Event) :
  keyed (peerInfoCache sv) -> keyed (peerInfoCache (fst (discoverPeers sv store))).
Proof.
  intros Hk. unfold discoverPeers.
  pose proof (refreshFollowList_keeps sv store) as [_ Hcache].
  destruct (refreshFollowList sv store) as [sv1 pks]. cbn [fst] in Hcache.
  destruct (size (followedPubkeys sv1) =? 0)%nat; [cbn; rewrite Hcache; exact Hk |].
  set (events := queryEvents store _).
  pose proof (collect_spec events (peerInfoCache sv1)) as (_ & Hkeyed & _).
  destruct (collect (peerInfoCache sv1) events) as [cache' peers]. cbn [fst] in *.
  apply Hkeyed. rewrite Hcache. exact Hk.
Qed.

Lemma call_keyed (sv : Service) (c : Call) :
  keyed (peerInfoCache sv) -> keyed (peerInfoCache (call sv c)).
Proof.
  intros Hk. destruct c as [store | store pk | store calc | store | pk | e]; cbn [call].
  - apply discoverPeers_keyed, Hk.
  - apply getPeerInfo_keyed, Hk.
  - unfold getPeerConfigs. pose proof (discoverPeers_keyed sv store Hk) as H.
    destruct (discoverPeers sv store). exact H.
  - rewrite (proj2 (refreshFollowList_keeps sv store)). exact Hk.
  - exact Hk.
  - cbn. apply onevent_keyed, Hk.
Qed.

(** X20. The cache of the service stays keyed by author through every
    public call and every delivered update, although [discoverPeers] and
    the subscription callback store under the parsed record's key and
    [getPeerInfo] under the requested one; hence [getPeerInfo] only ever
    returns a record of the author it was asked about. *)
Theorem service_cache_is_keyed (sv : Service) (cs : list Call)
    (store : list Event) (pk : string) :
  keyed (peerInfoCache sv) ->
  keyed (peerInfoCache (calls sv cs))
  /\ forall i, snd (getPeerInfo (calls sv cs) store pk) = Some i -> pi_pubkey i = pk.
Proof.
  intros Hk.
  assert (Hinv : keyed (peerInfoCache (calls sv cs))).
  { revert sv Hk. unfold calls. induction cs as [| c cs IH]; intros sv Hk; [exact Hk |].
    cbn [fold_left]. apply IH, call_keyed, Hk. }
  split; [exact Hinv |]. apply getPeerInfo_keyed, Hinv.
Qed.

Lemma service_cache_is_keyed_example :
  let sv := calls (new_Service "me")
              [ CallDiscoverPeers Samples.store_two_versions;
                Delivered (Samples.peer_info "bob" 3 "g.bob");
                CallGetPeerInfo Samples.store_two_versions "alice" ] in
  keyed (peerInfoCache (new_Service "me"))
  /\ keyed (peerInfoCache sv)
  /\ pi_pubkey <$> snd (getPeerInfo sv [] "bob") = Some "bob".
Proof.
  cbv zeta.
  assert (H0 : keyed (peerInfoCache (new_Service "me"))).
  { intros k i Hi. cbn in Hi. rewrite lookup_empty in Hi. discriminate. }
  destruct (service_cache_is_keyed (new_Service "me")
              [ CallDiscoverPeers Samples.store_two_versions;
                Delivered (Samples.peer_info "bob" 3 "g.bob");
                CallGetPeerInfo Samples.store_two_versions "alice" ] [] "bob" H0)
    as [Hk Hget].
  split; [exact H0 |]. split; [exact Hk |].
  destruct (snd (getPeerInfo _ [] "bob")) as [i |] eqn:Hi.
  - cbn. f_equal. apply Hget. reflexivity.
  - vm_compute in Hi. discriminate.
Defined.

End ServiceExtras.

(** ** The bootstrap service *)

Module BootstrapExtras.

Import Resolver Bootstrap BootstrapRelay.

Section World.

Context (W : Type)
        (querySync : string -> Filter -> M W (list Event))
        (requestSpspInfo : string -> string -> Z -> M W Correlator.SpspInfo)
        (addPeer : string -> string -> string -> M W unit)
        (addRoute : string -> string -> M W unit)
        (publish : string -> Event -> M W unit)
        (parseIlpPeerInfo : Event -> option IlpPeerInfo)
        (ownInfoEvent : Event)
        (spspTimeout : Z)
        (hasConnectorAdmin : bool)
        (ownPubkey : string).

Local Abbreviation bootstrapWithPeer :=
  (bootstrapWithPeer W querySync requestSpspInfo addPeer addRoute publish
     parseIlpPeerInfo ownInfoEvent spspTimeout hasConnectorAdmin).
Local Abbreviation discoverPeersViaRelay :=
  (discoverPeersViaRelay W querySync parseIlpPeerInfo ownPubkey).

(** The loop that skips excluded authors groups the other events. *)
Lemma relay_steps_filter (S : gset string) (events : list Event) :
  forall m : gmap string Event,
    fold_left (relay_step S) events m
    = fold_left group_step
        (List.filter (fun e => negb (bool_decide (pubkey e ∈ S))) events) m.
Proof.
  induction events as [| e events IH]; intros m; [reflexivity |].
  cbn [fold_left List.filter]. unfold relay_step at 2.
  destruct (bool_decide (pubkey e ∈ S)); cbn [negb fold_left]; apply IH.
Qed.

(** X21. [discoverPeersViaRelay] never reports the service's own key nor an
    excluded one; an entry is the parsed form of an event the relay returned
    for that author, with the greatest time stamp among them; and the only
    error it throws is the [BootstrapError] that wraps a failed query. *)
Theorem relay_discovery_skips_excluded (relayUrl : string) (excludePubkeys : list string)
    (w : W) :
  match discoverPeersViaRelay relayUrl excludePubkeys w with
  | (w', Returned m) =>
      exists events,
        querySync relayUrl all_peer_infos w = (w', Returned events)
        /\ forall (a : string) (i : IlpPeerInfo),
             m !! a = Some i ->
             a <> ownPubkey /\ ~ In a excludePubkeys
             /\ exists e, In e events /\ pubkey e = a /\ parseIlpPeerInfo e = Some i
                          /\ forall y, In y events -> pubkey y = a ->
                                       created_at y <= created_at e
  | (w', Thrown err) =>
      err = BootstrapError ("Failed to discover peers from " ++ relayUrl)%string
      /\ exists err0, querySync relayUrl all_peer_infos w = (w', Thrown err0)
  end.
Proof.
  unfold BootstrapRelay.discoverPeersViaRelay.
  destruct (querySync relayUrl all_peer_infos w) as [w' [events | err0]];
    [| split; [reflexivity | eauto]].
  exists events. split; [reflexivity |].
  intros a i Hi. rewrite lookup_omap, relay_steps_filter in Hi.
  set (S := list_to_set (ownPubkey :: excludePubkeys) : gset string) in *.
  set (kept := List.filter (fun e => negb (bool_decide (pubkey e ∈ S))) events) in *.
  pose proof (ResolverFacts.group_latest_spec kept a) as Hg.
  unfold group_latest in Hg.
  destruct (fold_left group_step kept ∅ !! a) as [e |]; [| discriminate].
  cbn in Hi. destruct Hg as (Hin & Ha & Hmax).
  apply filter_In in Hin as [Hin Hnot].
  apply negb_true_iff, bool_decide_eq_false in Hnot. rewrite Ha in Hnot.
  assert (Hout : a <> ownPubkey /\ ~ In a excludePubkeys).
  { split.
    - intros ->. apply Hnot. subst S. apply elem_of_list_to_set. left.
    - intros Hx. apply Hnot. subst S. apply elem_of_list_to_set. right.
      apply list_elem_of_In, Hx. }
  destruct Hout as [Hown Hexcl]. split; [exact Hown |]. split; [exact Hexcl |].
  exists e. repeat split; try assumption.
  intros y Hy Hya. apply Hmax; [| exact Hya].
  apply filter_In. split; [exact Hy |].
  apply negb_true_iff, bool_decide_eq_false. rewrite Hya. exact Hnot.
Qed.

(** X22. [bootstrapWithPeer] either returns a result for the peer it was
    given, whose key is then well formed, or throws a [BootstrapError] with
    one of six messages, one for each step that can fail. *)
Theorem bootstrapWithPeer_failure_modes (kp : KnownPeer) (w : W) :
  match snd (bootstrapWithPeer kp w) with
  | Returned r => knownPeer r = kp /\ PUBKEY_REGEX_test (kp_pubkey kp) = true
  | Thrown err =>
      In err
         [ BootstrapError ("Invalid pubkey format for known peer: " ++ kp_pubkey kp)%string;
           BootstrapError ("Failed to query peer info from " ++ relayUrl kp)%string;
           BootstrapError ("No kind:10032 event found for peer "
                             ++ slice16 (kp_pubkey kp) ++ "...")%string;
           BootstrapError ("SPSP handshake failed with "
                             ++ slice16 (kp_pubkey kp) ++ "...")%string;
           BootstrapError "Failed to add peer to connector";
           BootstrapError ("Failed to publish ILP info to " ++ relayUrl kp)%string ]
  end.
Proof.
  unfold Bootstrap.bootstrapWithPeer.
  destruct (PUBKEY_REGEX_test (kp_pubkey kp)) eqn:Hpk; cbn [negb];
    [| cbn; auto].
  unfold bind, queryPeerInfo.
  destruct (querySync _ _ w) as [w1 [events | e1]]; [| cbn; auto].
  destruct (most_recent events) as [mostRecent |]; [| cbn; auto].
  destruct (parseIlpPeerInfo mostRecent) as [i |]; [| cbn; auto].
  unfold directSpspHandshake, rethrow_as.
  destruct (requestSpspInfo _ _ _ w1) as [w2 [sp | e2]]; [| cbn; tauto].
  assert (Hpub : forall w3,
             match snd (match publishOurInfo W publish ownInfoEvent (relayUrl kp) w3 with
                        | (w', Returned a) =>
                            ret W {| knownPeer := kp; peerInfo := i; spspInfo := sp |} w'
                        | (w', Thrown e) => (w', Thrown e)
                        end) with
             | Returned r => knownPeer r = kp /\ true = true
             | Thrown err =>
                 err = BootstrapError ("Failed to publish ILP info to " ++ relayUrl kp)%string
             end).
  { intros w3. unfold publishOurInfo, rethrow_as.
    destruct (publish _ _ w3) as [w4 [[] | e4]]; cbn; auto. }
  destruct hasConnectorAdmin.
  - unfold addPeerToConnector, rethrow_as, bind.
    destruct (addPeer _ _ _ w2) as [w3 [[] | e3]]; [| cbn; tauto].
    destruct (addRoute _ _ w3) as [w4 [[] | e4]]; [| cbn; tauto].
    specialize (Hpub w4).
    destruct (snd _) as [r | err]; [exact Hpub | subst err; cbn; tauto].
  - unfold ret at 1. specialize (Hpub w2).
    destruct (snd _) as [r | err]; [exact Hpub | subst err; cbn; tauto].
Qed.

End World.

End BootstrapExtras.

(** ** The SPSP server and the dynamic exchange *)

Module ServerFacts.

Import Events SpspServer.

Lemma idle_well_kept : well_kept idle.
Proof.
  unfold well_kept, idle. cbn. repeat split.
  - intros h Hh. lia.
  - constructor.
  - intros h [].
  - discriminate.
Qed.

Lemma startListening_well_kept (st : Listening) :
  well_kept st -> well_kept (startListening st).
Proof.
  intros (Hall & Hnd & Hcl & Hsub). unfold startListening.
  destruct (subscription st) as [h0 |] eqn:Hs; [unfold well_kept; rewrite Hs; auto |].
  unfold well_kept. cbn. repeat split.
  - intros h Hh. destruct (decide (h = opened st)) as [-> | Hne].
    + right. split; [reflexivity |]. intros Hin. apply Hcl in Hin. lia.
    + left. destruct (Hall h ltac:(lia)) as [[Hin _] | [Heq _]]; [| discriminate].
      split; [exact Hin | congruence].
  - exact Hnd.
  - intros h Hin. apply Hcl in Hin. lia.
  - intros h [= <-]. lia.
Qed.

Lemma stopListening_well_kept (st : Listening) :
  well_kept st -> well_kept (stopListening st).
Proof.
  intros (Hall & Hnd & Hcl & Hsub). unfold stopListening.
  destruct (subscription st) as [h0 |] eqn:Hs; [| unfold well_kept; rewrite Hs; auto].
  assert (Hh0 : (h0 < opened st)%nat) by (apply Hsub; reflexivity).
  assert (Hnot : ~ In h0 (closed st)).
  { destruct (Hall h0 Hh0) as [[_ Hne] | [_ Hnin]]; [congruence | exact Hnin]. }
  unfold well_kept. cbn. repeat split.
  - intros h Hh. left. split; [| discriminate].
    apply in_or_app. destruct (decide (h = h0)) as [-> | Hne]; [right; left; reflexivity |].
    left. destruct (Hall h Hh) as [[Hin _] | [Heq _]]; [exact Hin | congruence].
  - apply List.NoDup_app; [exact Hnd | repeat constructor; intros [] |].
    intros x Hx [<- | []]. contradiction.
  - intros h Hin. apply in_app_or in Hin as [Hin | [<- | []]]; [apply Hcl, Hin | exact Hh0].
  - discriminate.
Qed.

(** X23. Whatever calls of [startListening], [stopListening] and [close] a
    server receives, every subscription it has opened on the pool has been
    closed exactly once, except the one its [subscription] field holds; so at
    most one is open at any time, and starting or stopping twice is starting
    or stopping once. *)
Theorem server_subscriptions_are_closed (cs : list Call) :
  let st := calls idle cs in
  (forall h, (h < opened st)%nat ->
             (In h (closed st) /\ subscription st <> Some h)
             \/ (subscription st = Some h /\ ~ In h (closed st)))
  /\ List.NoDup (closed st)
  /\ startListening (startListening st) = startListening st
  /\ stopListening (stopListening st) = stopListening st
  /\ subscription (close st) = None.
Proof.
  cbv zeta.
  assert (Hinv : well_kept (calls idle cs)).
  { unfold calls. generalize idle_well_kept. generalize idle.
    induction cs as [| c cs IH]; intros st Hst; [exact Hst |].
    cbn [fold_left]. apply IH.
    destruct c; cbn [call close];
      [apply startListening_well_kept | apply stopListening_well_kept
       | apply stopListening_well_kept]; exact Hst. }
  destruct Hinv as (Hall & Hnd & _ & _).
  split; [exact Hall |]. split; [exact Hnd |].
  set (st := calls idle cs). unfold close, startListening, stopListening.
  destruct (subscription st) as [h |] eqn:Hs; cbn; rewrite ?Hs; auto.
Qed.

Section Server.

Context (serverPubkey destinationAccount : string) (receiptsEnabled : bool)
        (decrypt_request : Event -> string + option string)
        (secretGenerator : nat -> string + string)
        (encrypt : string -> SpspResponse -> string)
        (event_hash signature : EventTemplate -> string)
        (send_error : Event -> SpspResponse -> option string)
        (client_decrypt : Event -> string + SpspResponse).

Local Abbreviation response_event := (response_event serverPubkey encrypt event_hash signature).
Local Abbreviation sendResponse :=
  (sendResponse serverPubkey encrypt event_hash signature send_error).
Local Abbreviation sendErrorResponse :=
  (sendErrorResponse serverPubkey encrypt event_hash signature send_error).
Local Abbreviation setup_response := (setup_response destinationAccount receiptsEnabled).
Local Abbreviation try_handle :=
  (try_handle serverPubkey destinationAccount receiptsEnabled decrypt_request
     secretGenerator encrypt event_hash signature send_error).
Local Abbreviation handleRequest :=
  (handleRequest serverPubkey destinationAccount receiptsEnabled decrypt_request
     secretGenerator encrypt event_hash signature send_error).
Local Abbreviation onevent :=
  (onevent serverPubkey destinationAccount receiptsEnabled decrypt_request
     secretGenerator encrypt event_hash signature send_error).
Local Abbreviation is_setup := (is_setup decrypt_request).
Local Abbreviation static_info_event :=
  (static_info_event serverPubkey destinationAccount receiptsEnabled event_hash signature).
Local Abbreviation addressed := (addressed serverPubkey).
Local Abbreviation refusal := (refusal decrypt_request).
Local Abbreviation static_info := (static_info serverPubkey destinationAccount receiptsEnabled).

Lemma response_event_addressed (now : Z) (ev : Event) (response : SpspResponse) :
  addressed now ev (response_event now ev response).
Proof.
  unfold SpspServer.addressed, SpspServer.response_event, finalizeEvent, LegacyWait.filter,
    matchFilter, has_tag_value, opt_all, Z_mem, str_mem.
  cbn. rewrite !String.eqb_refl. cbn. repeat split; reflexivity.
Qed.

(** One call of [sendResponse] publishes one addressed event or throws. *)
Lemma sendResponse_cases (now : Z) (ev : Event) (response : SpspResponse) (w : World) :
  (send_error ev response = None
   /\ sendResponse now ev response w
      = ({| generated := generated w;
            published := published w ++ [response_event now ev response];
            logged := logged w |}, None))
  \/ (exists msg, send_error ev response = Some msg
                  /\ sendResponse now ev response w = (w, Some msg)).
Proof.
  unfold SpspServer.sendResponse. destruct (send_error ev response) as [msg |]; eauto.
Qed.

(** The [try] block publishes at most one event, and only when it does not
    throw. *)
Lemma try_handle_cases (now : Z) (ev : Event) (w : World) :
  let '(w1, thrown) := try_handle now ev w in
  generated w1 = (generated w + if is_setup ev then 1 else 0)%nat
  /\ logged w1 = logged w
  /\ match thrown with
     | None => exists r, published w1 = published w ++ [r] /\ addressed now ev r
     | Some _ => published w1 = published w
     end.
Proof.
  unfold SpspServer.try_handle, SpspServer.is_setup.
  destruct (decrypt_request ev) as [msg | [m |]].
  - cbn. rewrite Nat.add_0_r. auto.
  - destruct (String.eqb m "spsp_setup").
    + destruct (secretGenerator (generated w)) as [msg | secret].
      * cbn. split; [lia | auto].
      * match goal with |- context [sendResponse now ev ?p ?w0] =>
          destruct (sendResponse_cases now ev p w0) as [[_ ->] | (msg & _ & ->)]
        end; cbn; (split; [lia |]); (split; [reflexivity |]); auto.
        eexists. split; [reflexivity | apply response_event_addressed].
    + unfold SpspServer.sendErrorResponse.
      match goal with |- context [sendResponse now ev ?p ?w0] =>
        destruct (sendResponse_cases now ev p w0) as [[_ ->] | (msg & _ & ->)]
      end; cbn; rewrite Nat.add_0_r; (split; [reflexivity |]);
        (split; [reflexivity |]); auto.
      eexists. split; [reflexivity | apply response_event_addressed].
  - unfold SpspServer.sendErrorResponse.
    match goal with |- context [sendResponse now ev ?p ?w0] =>
      destruct (sendResponse_cases now ev p w0) as [[_ ->] | (msg & _ & ->)]
    end; cbn; rewrite Nat.add_0_r; (split; [reflexivity |]);
      (split; [reflexivity |]); auto.
    eexists. split; [reflexivity | apply response_event_addressed].
Qed.

(** X24. Handling one request ends in exactly one of two ways: one response
    is published, signed by the server, addressed to the requester and
    carrying the id of the request, so that it passes the filter of the
    client's wait; or nothing is published and one line is written to the
    console. The secret generator is called once for a request that reads as
    ['spsp_setup'], and not at all otherwise. *)
Theorem request_is_answered_once (now : Z) (ev : Event) (w : World) :
  let w' := onevent now ev w in
  generated w' = (generated w + if is_setup ev then 1 else 0)%nat
  /\ ((exists r, published w' = published w ++ [r] /\ addressed now ev r
                 /\ logged w' = logged w)
      \/ (exists line, published w' = published w /\ logged w' = logged w ++ [line])).
Proof.
  cbv zeta. unfold SpspServer.onevent, SpspServer.handleRequest.
  pose proof (try_handle_cases now ev w) as Ht.
  destruct (try_handle now ev w) as [w1 [msg |]].
  - destruct Ht as (Hg & Hl & Hp). unfold SpspServer.sendErrorResponse.
    match goal with |- context [sendResponse now ev ?p ?w0] =>
      destruct (sendResponse_cases now ev p w0) as [[_ ->] | (msg' & _ & ->)]
    end; cbn; (split; [exact Hg |]).
    + left. eexists. rewrite Hp. split; [reflexivity |].
      split; [apply response_event_addressed | exact Hl].
    + right. exists msg'. rewrite Hp, Hl. auto.
  - destruct Ht as (Hg & Hl & r & Hp & Ha). split; [exact Hg |].
    left. exists r. auto.
Qed.

(** X25. The dynamic exchange end to end: when the request reads as
    ['spsp_setup'], the generator yields a secret, the response is sent and
    the client can decrypt it, the server publishes one response, the
    client's wait for that request resolves with it, and [requestSpspParams]
    returns the server's destination account and receipts flag with the fresh
    secret. *)
Theorem dynamic_exchange_delivers_fresh_secret (now : Z) (ev : Event) (w : World)
    (sharedSecret : string) :
  decrypt_request ev = inr (Some "spsp_setup") ->
  secretGenerator (generated w) = inr sharedSecret ->
  send_error ev (setup_response sharedSecret) = None ->
  client_decrypt (response_event now ev (setup_response sharedSecret))
  = inr (setup_response sharedSecret) ->
  let r := response_event now ev (setup_response sharedSecret) in
  published (onevent now ev w) = published w ++ [r]
  /\ logged (onevent now ev w) = logged w
  /\ exists settle,
       LegacyWait.promise _
         (LegacyWait.receive _ client_decrypt serverPubkey (event_id ev)
            (LegacyWait.start _) r)
       = Some settle
       /\ LegacyRequest.outcome settle
          = Returned {| LegacyRequest.destinationAccount := destinationAccount;
                        LegacyRequest.sharedSecret := sharedSecret;
                        LegacyRequest.receiptsEnabled := receiptsEnabled |}.
Proof.
  intros Hreq Hgen Hsend Hdec. cbv zeta.
  unfold SpspServer.onevent, SpspServer.handleRequest, SpspServer.try_handle.
  rewrite Hreq, Hgen. cbn [String.eqb Ascii.eqb Bool.eqb andb].
  unfold SpspServer.sendResponse. rewrite Hsend. cbn [published logged].
  split; [reflexivity |]. split; [reflexivity |].
  destruct (response_event_addressed now ev (setup_response sharedSecret))
    as (_ & _ & _ & Hmatch & _).
  unfold LegacyWait.receive. cbn [LegacyWait.start LegacyWait.subOpen andb].
  rewrite Hmatch. unfold LegacyWait.onevent, LegacyWait.promise.
  cbn [LegacyWait.settled LegacyWait.start app head]. rewrite Hdec.
  eexists. split; reflexivity.
Qed.

(** X26. A request that cannot be read, or that names another method, is
    answered with an error payload without a secret being generated, and the
    client that decrypts this answer throws
    ["SPSP request failed: <code> - <message>"]. *)
Theorem refusals_reach_the_client (now : Z) (ev : Event) (w : World) :
  is_setup ev = false ->
  send_error ev (refusal ev) = None ->
  client_decrypt (response_event now ev (refusal ev)) = inr (refusal ev) ->
  published (onevent now ev w) = published w ++ [response_event now ev (refusal ev)]
  /\ generated (onevent now ev w) = generated w
  /\ exists settle c m,
       LegacyWait.promise _
         (LegacyWait.receive _ client_decrypt serverPubkey (event_id ev)
            (LegacyWait.start _) (response_event now ev (refusal ev)))
       = Some settle
       /\ error (refusal ev) = Some {| code := c; message := m |}
       /\ LegacyRequest.outcome settle
          = Thrown (Error_ ("SPSP request failed: " ++ c ++ " - " ++ m)%string).
Proof.
  intros Hno Hsend Hdec.
  assert (Hpub : onevent now ev w
                 = {| generated := generated w;
                      published := published w ++ [response_event now ev (refusal ev)];
                      logged := logged w |}).
  { unfold SpspServer.onevent, SpspServer.handleRequest, SpspServer.try_handle,
      SpspServer.sendErrorResponse, SpspServer.sendResponse.
    unfold SpspServer.is_setup in Hno. unfold SpspServer.refusal in Hsend |- *.
    destruct (decrypt_request ev) as [msg | [m |]].
    - rewrite Hsend. reflexivity.
    - rewrite Hno, Hsend. reflexivity.
    - rewrite Hsend. reflexivity. }
  rewrite Hpub. cbn [published generated]. split; [reflexivity |].
  split; [reflexivity |].
  destruct (response_event_addressed now ev (refusal ev)) as (_ & _ & _ & Hmatch & _).
  unfold LegacyWait.receive. cbn [LegacyWait.start LegacyWait.subOpen andb].
  rewrite Hmatch. unfold LegacyWait.onevent, LegacyWait.promise.
  cbn [LegacyWait.settled LegacyWait.start app head]. rewrite Hdec.
  unfold SpspServer.refusal. destruct (decrypt_request ev) as [msg | method];
    eexists _, _, _; repeat split; reflexivity.
Qed.

Lemma parse_static_info_event (now : Z) (sharedSecret : string) :
  parseSpspInfo (static_info_event now sharedSecret) = Some (static_info now sharedSecret).
Proof.
  unfold SpspServer.static_info_event, SpspServer.static_info, parseSpspInfo, buildSpspInfoEvent,
    finalizeEvent, find_tag.
  destruct receiptsEnabled; reflexivity.
Qed.

(** X27. A static record the server publishes is what the older client then
    returns for the server's key, when the client has nothing cached for it
    and every other static record of the server on the relays is older: the
    destination account, the secret and the receipts flag are those of the
    server. *)
Theorem published_static_info_is_read_back (now : Z) (sharedSecret : string)
    (cache : gmap string SpspInfo) (store store' : list Event) :
  cache !! serverPubkey = None ->
  (forall e, In e store' <-> e = static_info_event now sharedSecret \/ In e store) ->
  (forall e, In e store -> kind e = SPSP_INFO_KIND -> pubkey e = serverPubkey ->
             created_at e < now) ->
  StaticSpsp.getStaticSpspParams cache store' serverPubkey
  = (<[serverPubkey := static_info now sharedSecret]> cache,
     Some {| StaticSpsp.destinationAccount := Some destinationAccount;
             StaticSpsp.sharedSecret := Some sharedSecret;
             StaticSpsp.receiptsEnabled := receiptsEnabled |}).
Proof.
  intros Hmiss Hstore Hold. unfold StaticSpsp.getStaticSpspParams. rewrite Hmiss.
  set (f := {| kinds := Some [SPSP_INFO_KIND]; authors := Some [serverPubkey];
               tag_p := None; tag_e := None |}).
  set (ev := static_info_event now sharedSecret) in *.
  assert (Hev : In ev (querySync store' f)).
  { apply FilterFacts.In_querySync. split; [apply Hstore; left; reflexivity |].
    apply FilterFacts.matchFilter_kind_author. split; reflexivity. }
  destruct (Resolver.reduce_latest (querySync store' f)) as [latest |] eqn:Hr.
  - apply ResolverFacts.reduce_latest_max in Hr as [Hin Hmax].
    assert (latest = ev).
    { apply FilterFacts.In_querySync in Hin as [Hin Hm].
      apply FilterFacts.matchFilter_kind_author in Hm as [Hk Hp].
      apply Hstore in Hin as [-> | Hin]; [reflexivity |].
      specialize (Hold latest Hin Hk Hp). specialize (Hmax ev Hev).
      change (created_at ev) with now in Hmax. lia. }
    subst latest. unfold ev. rewrite parse_static_info_event. reflexivity.
  - destruct (querySync store' f) as [| x l]; [destruct Hev |].
    destruct (ResolverFacts.reduce_latest_some (x :: l) ltac:(discriminate)) as [r Hr'].
    congruence.
Qed.

End Server.

Import ServerSamples.

Lemma dynamic_exchange_delivers_fresh_secret_example :
  let ev := request "payer" "setup" in
  let w' := SpspServer.onevent "server" "g.agent.receiver" false read_request fixed_secret
              seal hash_of sig_of no_failure 20 ev empty_world in
  List.length (published w') = 1%nat
  /\ exists settle,
       LegacyWait.promise _
         (fold_left (LegacyWait.receive _ open_response "server" (event_id ev))
            (published w') (LegacyWait.start _))
       = Some settle
       /\ LegacyRequest.outcome settle
          = Returned {| LegacyRequest.destinationAccount := "g.agent.receiver";
                        LegacyRequest.sharedSecret := "c2VjcmV0";
                        LegacyRequest.receiptsEnabled := false |}.
Proof.
  cbv zeta.
  destruct (dynamic_exchange_delivers_fresh_secret "server" "g.agent.receiver" false
              read_request fixed_secret seal hash_of sig_of no_failure open_response
              20 (request "payer" "setup") empty_world "c2VjcmV0"
              ltac:(reflexivity) ltac:(reflexivity) ltac:(reflexivity)
              ltac:(reflexivity))
    as (Hp & _ & settle & Hs & Ho).
  rewrite Hp. split; [reflexivity |]. exists settle. split; [exact Hs | exact Ho].
Defined.

Lemma refusals_reach_the_client_example :
  let ev := request "payer" "other" in
  is_setup read_request ev = false
  /\ generated (SpspServer.onevent "server" "g.agent.receiver" false read_request
                  fixed_secret seal hash_of sig_of no_failure 20 ev empty_world) = 0%nat
  /\ List.length
       (published (SpspServer.onevent "server" "g.agent.receiver" false read_request
                     fixed_secret seal hash_of sig_of no_failure 20 ev empty_world))
     = 1%nat.
Proof.
  cbv zeta. split; [reflexivity |].
  destruct (refusals_reach_the_client "server" "g.agent.receiver" false
              read_request fixed_secret seal hash_of sig_of no_failure open_response
              20 (request "payer" "other") empty_world
              ltac:(reflexivity) ltac:(reflexivity) ltac:(reflexivity))
    as (Hp & Hg & _).
  split; [exact Hg |]. rewrite Hp. reflexivity.
Defined.

Lemma published_static_info_is_read_back_example :
  StaticSpsp.sharedSecret
    <$> snd (StaticSpsp.getStaticSpspParams ∅
               (Samples.store_old
                  ++ [SpspServer.static_info_event "receiver" "g.agent.receiver" true
                        hash_of sig_of 5 "bmV3"])
               "receiver")
  = Some (Some "bmV3").
Proof.
  rewrite (published_static_info_is_read_back "receiver" "g.agent.receiver" true
             hash_of sig_of 5 "bmV3" ∅ Samples.store_old
             (Samples.store_old
                ++ [SpspServer.static_info_event "receiver" "g.agent.receiver" true
                      hash_of sig_of 5 "bmV3"])).
  - reflexivity.
  - reflexivity.
  - intros e. rewrite in_app_iff. split.
    + intros [H | [H | []]]; [right; exact H | left; symmetry; exact H].
    + intros [H | H]; [right; left; symmetry; exact H | left; exact H].
  - intros e He Hk Hp.
    repeat (destruct He as [<- | He]; [try discriminate; try (vm_compute; reflexivity) |]).
    destruct He.
Defined.

End ServerFacts.

(** ** JSON content *)

Module CoreEventsFacts.

Import Resolver CoreEvents.

Lemma nonempty_string_JString (s : string) :
  s <> "" -> nonempty_string (Some (JString s)) = Some s.
Proof.
  intros Hs. cbn. destruct (String.eqb_spec s ""); [contradiction | reflexivity].
Qed.

Lemma nonempty_string_inv (x : option Json) (s : string) :
  nonempty_string x = Some s -> x = Some (JString s) /\ s <> "".
Proof.
  unfold nonempty_string. destruct x as [[| | | t | |] |]; try discriminate.
  destruct (String.eqb_spec t ""); [discriminate |]. intros [= <-]. auto.
Qed.

Section Json.

Variable JSON_parse : string -> option Json.
Variable JSON_stringify : Json -> string.

Local Abbreviation parseIlpPeerInfo := (parseIlpPeerInfo JSON_parse).
Local Abbreviation parseSpspInfo := (parseSpspInfo JSON_parse).
Local Abbreviation buildIlpPeerInfoEvent := (buildIlpPeerInfoEvent JSON_stringify).
Local Abbreviation buildSpspInfoEvent := (buildSpspInfoEvent JSON_stringify).
Local Abbreviation getSpspInfo := (getSpspInfo JSON_parse).

(** What a record returned by [parseIlpPeerInfo] says about the event. *)
Lemma parseIlpPeerInfo_returned (e : Event) (info : Bootstrap.IlpPeerInfo) :
  parseIlpPeerInfo e = Returned info ->
  kind e = ILP_PEER_INFO_KIND
  /\ Bootstrap.ilpAddress info <> "" /\ Bootstrap.btpEndpoint info <> ""
  /\ Bootstrap.assetCode info <> ""
  /\ exists parsed,
       JSON_parse (content e) = Some parsed
       /\ get "ilpAddress" parsed = Some (JString (Bootstrap.ilpAddress info))
       /\ get "btpEndpoint" parsed = Some (JString (Bootstrap.btpEndpoint info))
       /\ get "assetCode" parsed = Some (JString (Bootstrap.assetCode info))
       /\ get "assetScale" parsed
          = Some (JNumber (IntegerValue (Bootstrap.assetScale info)))
       /\ get "settlementEngine" parsed = JString <$> Bootstrap.settlementEngine info.
Proof.
  unfold CoreEvents.parseIlpPeerInfo.
  destruct (Z.eqb_spec (kind e) ILP_PEER_INFO_KIND) as [Hk | _]; [| discriminate].
  cbn [negb]. destruct (JSON_parse (content e)) as [parsed |]; [| discriminate].
  destruct (isObject parsed); [| discriminate]. cbn [negb].
  destruct (nonempty_string (get "ilpAddress" parsed)) as [a |] eqn:Ha; [| discriminate].
  destruct (nonempty_string (get "btpEndpoint" parsed)) as [b |] eqn:Hb; [| discriminate].
  destruct (nonempty_string (get "assetCode" parsed)) as [c |] eqn:Hc; [| discriminate].
  apply nonempty_string_inv in Ha as [Ha Ha'].
  apply nonempty_string_inv in Hb as [Hb Hb'].
  apply nonempty_string_inv in Hc as [Hc Hc'].
  destruct (get "assetScale" parsed) as [[| | [z |] | | |] |] eqn:Hs; try discriminate.
  destruct (get "settlementEngine" parsed) as [[| | | s | |] |] eqn:He; try discriminate;
    intros [= <-]; cbn; (split; [exact Hk |]); repeat (split; [assumption |]);
    exists parsed; rewrite He; auto 10.
Qed.

Lemma parseSpspInfo_returned (e : Event) (info : Correlator.SpspInfo) :
  parseSpspInfo e = Returned info ->
  kind e = SPSP_INFO_KIND
  /\ Correlator.destinationAccount info <> "" /\ Correlator.sharedSecret info <> "".
Proof.
  unfold CoreEvents.parseSpspInfo.
  destruct (Z.eqb_spec (kind e) SPSP_INFO_KIND) as [Hk | _]; [| discriminate].
  cbn [negb]. destruct (JSON_parse (content e)) as [parsed |]; [| discriminate].
  destruct (isObject parsed); [| discriminate]. cbn [negb].
  destruct (nonempty_string (get "destinationAccount" parsed)) as [a |] eqn:Ha;
    [| discriminate].
  destruct (nonempty_string (get "sharedSecret" parsed)) as [b |] eqn:Hb; [| discriminate].
  apply nonempty_string_inv in Ha as [_ Ha]. apply nonempty_string_inv in Hb as [_ Hb].
  intros [= <-]. auto.
Qed.


(** X29. With the JSON parser, every peer [NostrPeerDiscovery.discoverPeers]
    reports has a non-empty ILP address, BTP endpoint and asset code, and is
    the parsed content of a kind-10032 event of that author that the relays
    returned. *)
Theorem discovered_peers_are_validated (pool : CoreDiscovery.Pool) (pk a : string)
    (m : gmap string Bootstrap.IlpPeerInfo) (info : Bootstrap.IlpPeerInfo) :
  CoreDiscovery.discoverPeers _ (fun e => returned (parseIlpPeerInfo e)) pool pk
  = Returned m ->
  m !! a = Some info ->
  Bootstrap.ilpAddress info <> "" /\ Bootstrap.btpEndpoint info <> ""
  /\ Bootstrap.assetCode info <> ""
  /\ exists follows events e,
       CoreDiscovery.getFollows pool pk = Returned follows
       /\ pool (CoreDiscovery.peer_infos_of follows) = Returned events
       /\ In e events /\ pubkey e = a /\ kind e = ILP_PEER_INFO_KIND
       /\ parseIlpPeerInfo e = Returned info.
Proof.
  intros Hd Hm.
  destruct (CoreDiscoveryExtras.discoverPeers_returned _ _ pool pk m Hd)
    as (follows & Hf & [[_ ->] | (events & Hq & ->)]).
  - rewrite lookup_empty in Hm. discriminate.
  - rewrite lookup_omap in Hm.
    pose proof (ResolverFacts.group_latest_spec events a) as Hg.
    destruct (group_latest events !! a) as [e |]; [| discriminate].
    cbn in Hm. destruct Hg as (Hin & Ha & _).
    assert (Hr : parseIlpPeerInfo e = Returned info).
    { unfold returned in Hm. destruct (parseIlpPeerInfo e); congruence. }
    destruct (parseIlpPeerInfo_returned e info Hr) as (Hk & H1 & H2 & H3 & _).
    repeat (split; [assumption |]). exists follows, events, e. auto 10.
Qed.

(** X30. [getSpspInfo] of the core package throws an [SpspError] in two
    cases: for a malformed key, before any query, and when the query of the
    relays fails. Otherwise the first received record among those with the
    greatest time stamp decides: its parsed content, whose two strings are
    then not empty, or [null] when it is malformed, whatever older records
    hold; and [null] when nothing was received. *)
Theorem core_getSpspInfo_latest_decides (pool : CoreDiscovery.Pool) (pk : string) :
  match getSpspInfo pool pk with
  | Thrown err =>
      (PUBKEY_REGEX_test pk = false
       /\ err = SpspError "Invalid pubkey format: must be 64-character lowercase hex string")
      \/ (PUBKEY_REGEX_test pk = true
          /\ err = SpspError "Failed to query relays for SPSP info"
          /\ exists cause, pool (spsp_info_of pk) = Thrown cause)
  | Returned answer =>
      PUBKEY_REGEX_test pk = true
      /\ exists events,
           pool (spsp_info_of pk) = Returned events
           /\ ((events = [] /\ answer = None)
               \/ exists e l1 l2,
                    events = l1 ++ e :: l2
                    /\ (forall x, In x l1 -> created_at x < created_at e)
                    /\ (forall x, In x l2 -> created_at x <= created_at e)
                    /\ answer = returned (parseSpspInfo e)
                    /\ match answer with
                       | Some info => Correlator.destinationAccount info <> ""
                                      /\ Correlator.sharedSecret info <> ""
                       | None => True
                       end)
  end.
Proof.
  unfold CoreEvents.getSpspInfo.
  destruct (PUBKEY_REGEX_test pk); cbn [negb]; [| left; split; reflexivity].
  destruct (pool (spsp_info_of pk)) as [events | cause] eqn:Hq;
    [| right; split; [reflexivity |]; split; [reflexivity | eauto]].
  destruct (most_recent events) as [e |] eqn:Hm.
  - destruct (ResolverExtras.most_recent_first_max _ e Hm) as (l1 & l2 & Hl & H1 & H2).
    destruct (parseSpspInfo e) as [info | [msg]] eqn:Hp.
    + split; [reflexivity |]. exists events. split; [reflexivity |].
      right. exists e, l1, l2. rewrite Hp.
      repeat (split; [assumption || reflexivity |]).
      apply parseSpspInfo_returned in Hp as (_ & Hd & Hs). auto.
    + split; [reflexivity |]. exists events. split; [reflexivity |].
      right. exists e, l1, l2. rewrite Hp.
      repeat (split; [assumption || reflexivity |]). exact I.
  - split; [reflexivity |]. exists events. split; [reflexivity |].
    left. split; [| reflexivity].
    destruct events as [| x l]; [reflexivity |].
    destruct (ResolverFacts.most_recent_some (x :: l) ltac:(discriminate)) as [r Hr].
    congruence.
Qed.

End Json.

Import CoreSamples.


Lemma discovered_peers_are_validated_example :
  let pool := CoreDiscovery.answering
                [ Samples.follow_list Samples.key_a 1 [Samples.key_b];
                  {| event_id := "b-1"; pubkey := Samples.key_b;
                     kind := ILP_PEER_INFO_KIND; created_at := 1; tags := [];
                     content := "peer"; event_sig := "" |} ] in
  exists m,
    CoreDiscovery.discoverPeers _ (fun e => returned (CoreEvents.parseIlpPeerInfo parse e))
      pool Samples.key_a = Returned m
    /\ m !! Samples.key_b = Some info_alice
    /\ Bootstrap.ilpAddress info_alice <> "".
Proof.
  cbv zeta.
  set (pool := CoreDiscovery.answering
                 [ Samples.follow_list Samples.key_a 1 [Samples.key_b];
                   {| event_id := "b-1"; pubkey := Samples.key_b;
                      kind := ILP_PEER_INFO_KIND; created_at := 1; tags := [];
                      content := "peer"; event_sig := "" |} ]).
  destruct (CoreDiscovery.discoverPeers _
              (fun e => returned (CoreEvents.parseIlpPeerInfo parse e)) pool Samples.key_a)
    as [m | err] eqn:Hd; [| vm_compute in Hd; discriminate].
  assert (Hm : m !! Samples.key_b = Some info_alice).
  { assert (Hd' : Returned m
                  = CoreDiscovery.discoverPeers _
                      (fun e => returned (CoreEvents.parseIlpPeerInfo parse e))
                      pool Samples.key_a) by (symmetry; exact Hd).
    vm_compute in Hd'. injection Hd' as ->. vm_compute. reflexivity. }
  exists m. split; [reflexivity |]. split; [exact Hm |].
  exact (proj1 (discovered_peers_are_validated parse pool Samples.key_a Samples.key_b
                  m info_alice Hd Hm)).
Defined.

(** The latest record decides for [getSpspInfo]: a malformed one hides an
    older well-formed one, and a failed query is reported as an error. *)
Example core_getSpspInfo_cases :
  CoreEvents.getSpspInfo parse
    (CoreDiscovery.answering [ spsp_record Samples.key_a 1 "spsp";
                               spsp_record Samples.key_a 2 "[]" ]) Samples.key_a
  = Returned None
  /\ CoreEvents.getSpspInfo parse
       (CoreDiscovery.answering [ spsp_record Samples.key_a 1 "spsp" ]) Samples.key_a
     = Returned (Some spsp_alice)
  /\ CoreEvents.getSpspInfo parse (fun f => Thrown (Error_ "connection refused"))
       Samples.key_a
     = Thrown (SpspError "Failed to query relays for SPSP info").
Proof. repeat split; vm_compute; reflexivity. Qed.

End CoreEventsFacts.
